(** * Difference quotients of the norm (Griewank & Walther, exercise 2.2)

    A shallow embedding of the two programs of
    [ch2/ex2_2_difference_quotients_of_the_norm.cpp]:

    - Experiment 1: the template norm evaluator [f] instantiated at [float]
      and [double], applied to uniformly sampled data;
    - Experiment 2: the scan over step sizes [h = 10^-k] and problem sizes
      [n = 10^j] of the forward difference of the prescaled norm.

    Floating-point values are IEEE 754 binary floats in the executable
    specification of the Standard Library ([SpecFloat]); every operation
    rounds to nearest, ties to even, with no excess precision and no fused
    multiply-add.  [float] is binary32 and [double] is binary64.

    What the programs call and do not define is modelled apart: [pow] of
    the C library as the correctly rounded power ([Libm]), the conversions
    of [printf] as the exact decimal expansion rounded to the digits asked
    for ([Stdio]), and the generator of the GSL as a parameter of
    Experiment 1.  Undefined behaviour of the source (an access past the
    end of a buffer) is an explicit outcome of the model. *)

From Stdlib Require Import QArith Qabs Qpower Lqa.
From Stdlib Require Import ZArith NArith List String Ascii DecimalString Lia.
From Stdlib Require Import Floats.SpecFloat Sorting.Sorted.
From stdpp Require Import base option list.

Open Scope Z_scope.

(** ** Floating-point formats *)

Module Fp.

(** A format is the pair (precision, exponent of infinity), the way the
    C++ template is instantiated at a type [T]. *)
Record format := Format { prec : Z; emax : Z }.

Definition binary32 : format := Format 24 128.
Definition binary64 : format := Format 53 1024.

Section Ops.
Variable T : format.

(** Conversion of an integer to [T] (exact when it fits the mantissa). *)
Definition of_Z (z : Z) : spec_float :=
  binary_normalize (prec T) (emax T) z 0 false.

Definition zero : spec_float := S754_zero false.
Definition one : spec_float := of_Z 1.

Definition add : spec_float -> spec_float -> spec_float :=
  SFadd (prec T) (emax T).
Definition sub : spec_float -> spec_float -> spec_float :=
  SFsub (prec T) (emax T).
Definition mul : spec_float -> spec_float -> spec_float :=
  SFmul (prec T) (emax T).
Definition div : spec_float -> spec_float -> spec_float :=
  SFdiv (prec T) (emax T).

(** Conversion between formats: rounding of the exact value. *)
Definition convert (v : spec_float) : spec_float :=
  match v with
  | S754_finite s m e =>
      binary_normalize (prec T) (emax T) (cond_Zopp s (Zpos m)) e s
  | _ => v
  end.
End Ops.

(** The float that holds the positive integer [p] when [p] has at most
    [prec] binary digits: the mantissa is [p] shifted to [prec] digits. *)
Definition canon (prec : Z) (p : positive) : spec_float :=
  S754_finite false
    (Z.to_pos (Zpos p * 2 ^ (prec - Zpos (digits2_pos p))))
    (Zpos (digits2_pos p) - prec).

(** Format-independent operations. *)
Definition opp : spec_float -> spec_float := SFopp.
(** C's [==]: false on NaN, true on zeros of either sign. *)
Definition eqb : spec_float -> spec_float -> bool := SFeqb.

(** The exact value of a finite float as a fraction [num / 2^den_log2]
    with [den_log2 >= 0]; [None] on infinities and NaN. *)
Definition exact (v : spec_float) : option (Z * Z) :=
  match v with
  | S754_zero _ => Some (0, 0)
  | S754_finite s m e =>
      if 0 <=? e then Some (cond_Zopp s (Zpos m) * 2 ^ e, 0)
      else Some (cond_Zopp s (Zpos m), - e)
  | _ => None
  end.

Definition is_finite (v : spec_float) : bool :=
  match v with
  | S754_zero _ | S754_finite _ _ _ => true
  | _ => false
  end.

(** [v] is exactly the integer [z]. *)
Definition is_integer (v : spec_float) (z : Z) : Prop :=
  match exact v with
  | Some (num, d) => num = z * 2 ^ d
  | None => False
  end.

End Fp.

(** ** Buffers

    A C array is a list of cells; [x[i]] is the lookup [x !! i].  Reading or
    writing past the end has no defined behaviour in the source, and is
    [None] here. *)

Module Buf.

(** [x[i] = v]. *)
Definition store (x : list spec_float) (i : nat) (v : spec_float)
    : option (list spec_float) :=
  if (i <? length x)%nat then Some (<[i := v]> x) else None.

(** The cells of a local array before anything is written to them. *)
Definition indeterminate (size : N) : list spec_float :=
  replicate (N.to_nat size) S754_nan.

End Buf.

(** ** The norm evaluator

    [template<typename T> static T f(T *x, uint32_t n)]: the loop reads
    [x[0]], ..., [x[n-1]] in this order and accumulates the squares into
    [result], which starts at [0.0].  A read past the end of the buffer has
    no defined behaviour in C++; the model returns [None] there. *)

Module Norm.
Section Generic.
Variable T : Fp.format.

Fixpoint f_loop (x : list spec_float) (i : nat) (todo : nat)
    (result : spec_float) : option spec_float :=
  match todo with
  | O => Some result
  | S todo' =>
      x_i ← x !! i;
      f_loop x (S i) todo' (Fp.add T result (Fp.mul T x_i x_i))
  end.

Definition f (x : list spec_float) (n : N) : option spec_float :=
  f_loop x 0 (N.to_nat n) Fp.zero.

(** One turn of the loop: [result += x_i*x_i]. *)
Definition accumulate (result x_i : spec_float) : spec_float :=
  Fp.add T result (Fp.mul T x_i x_i).

(** Follows the spec: the squares of the given components, added one
    after the other from the left, starting from [0.0]. *)
Definition spec_sum_of_squares (xs : list spec_float) : spec_float :=
  fold_left (fun acc x_i => Fp.add T acc (Fp.mul T x_i x_i)) xs Fp.zero.

(** The vectors whose first [n] components are all [1.0]. *)
Definition all_ones (x : list spec_float) (n : N) : Prop :=
  forall i, (i < N.to_nat n)%nat -> x !! i = Some (Fp.one T).
End Generic.
End Norm.

(** ** Library functions the programs call *)

Module Libm.

(** The integer a float holds, when it holds one. *)
Definition integral (y : spec_float) : option Z :=
  match y with
  | S754_zero _ => Some 0
  | S754_finite s m e =>
      if 0 <=? e then Some (cond_Zopp s (Zpos m * 2 ^ e))
      else if (Zpos m) mod 2 ^ (- e) =? 0
           then Some (cond_Zopp s (Zpos m / 2 ^ (- e)))
           else None
  | _ => None
  end.

(** [pow] of the C library at format [T], on the part of its domain the
    scan uses: a finite positive base and an integral exponent.  The
    result is the exact power rounded once to nearest (for a negative
    exponent, the quotient of [1] by the exact positive power); [pow(x, 0)]
    is [1].  Outside this domain the model answers NaN. *)
Definition pow (T : Fp.format) (x y : spec_float) : spec_float :=
  match x, integral y with
  | S754_finite false mx ex, Some z =>
      match z with
      | Z0 => Fp.one T
      | Zpos p =>
          binary_normalize (Fp.prec T) (Fp.emax T)
            (Zpos (Pos.pow mx p)) (ex * Zpos p) false
      | Zneg p =>
          SFdiv (Fp.prec T) (Fp.emax T)
            (S754_finite false 1 0)
            (S754_finite false (Pos.pow mx p) (ex * Zpos p))
      end
  | _, _ => S754_nan
  end.

End Libm.

Module Stdio.

(** The [uint32_t] argument that [%d] reads as an [int]. *)
Definition as_int (n : N) : Z :=
  let z := Z.of_N n mod 2 ^ 32 in
  if z <? 2 ^ 31 then z else z - 2 ^ 32.

(** Rounding of [num / den] ([den > 0], [num >= 0]) to the nearest
    integer, ties to even. *)
Definition round_quotient (num den : Z) : Z :=
  let q := num / den in
  let r := num mod den in
  match 2 * r ?= den with
  | Lt => q
  | Gt => q + 1
  | Eq => if Z.even q then q else q + 1
  end.

(** The integer [%.pf] prints, without its point: the exact value of
    [m * 2^e] times [10^p], rounded. *)
Definition scaled_decimal (p : nat) (m : positive) (e : Z) : N :=
  let scaled := Zpos m * 10 ^ Z.of_nat p in
  Z.to_N (if 0 <=? e then scaled * 2 ^ e
          else round_quotient scaled (2 ^ (- e))).

Local Open Scope string_scope.

Definition newline : string := String (ascii_of_nat 10) EmptyString.

Definition digits (n : N) : string :=
  NilEmpty.string_of_uint (N.to_uint n).

(** [%d] of an [int]. *)
Definition fmt_d (z : Z) : string :=
  match z with
  | Zneg p => "-" ++ digits (Npos p)
  | _ => digits (Z.to_N z)
  end.

Fixpoint zeros (k : nat) : string :=
  match k with O => "" | S k' => "0" ++ zeros k' end.

(** The decimal digits of [q] with a point before the last [p] digits. *)
Definition place_point (p : nat) (q : N) : string :=
  let s := digits q in
  let s := zeros (S p - String.length s)%nat ++ s in
  let int_len := (String.length s - p)%nat in
  match p with
  | O => s
  | _ => substring 0 int_len s ++ "." ++ substring int_len p s
  end.

(** [%.pf] of a [double]: the exact value rounded to [p] decimals. *)
Definition fmt_f (p : nat) (v : spec_float) : string :=
  match v with
  | S754_nan => "nan"
  | S754_infinity s => if s then "-inf" else "inf"
  | S754_zero s => (if s then "-" else "") ++ place_point p 0
  | S754_finite s m e =>
      (if s then "-" else "") ++ place_point p (scaled_decimal p m e)
  end.

End Stdio.

(** ** Experiment 1: the norm of uniformly sampled data *)

Module Exp1.

(** [constexpr size_t N = 2048] and [constexpr uint32_t n = 12]. *)
Definition N_x : N := 2048.
Definition n : N := 12.

Inductive termination :=
| Exit (code : Z)
| Abort
| Undefined.

Record result := Result { stdout : list string; how : termination }.

Definition EXIT_SUCCESS : Z := 0.

(** The bounds [init_data_uniform] passes to [gsl_ran_flat] for
    [a = 1.0f]: the [float]s [-a] and [a], converted to [double]. *)
Definition lo : spec_float :=
  Fp.convert Fp.binary64 (Fp.opp (Fp.one Fp.binary32)).
Definition hi : spec_float :=
  Fp.convert Fp.binary64 (Fp.one Fp.binary32).

Section Gsl.
(** The generator of the GSL: its state, seeding, and one draw of
    [gsl_ran_flat (r, a, b)], which also advances the state. *)
Variable rng : Type.
Variable gsl_rng_set : rng -> Z -> rng.
Variable gsl_ran_flat :
  rng -> spec_float -> spec_float -> spec_float * rng.

(** What the process is handed by its surroundings: the generator that
    [gsl_rng_alloc] returns ([None] for [NULL]), and the status and the
    [tv_usec] field that [gettimeofday] returns. *)
Record environment := Environment {
  gsl_rng_alloc : option rng;
  gettimeofday_status : Z;
  gettimeofday_usec : Z
}.

(** The first [count] draws from [r] with bounds [lo] and [hi], and the
    generator after them. *)
Fixpoint draws (r : rng) (count : nat) (lo hi : spec_float)
    : list spec_float * rng :=
  match count with
  | O => ([], r)
  | S count' =>
      let '(v, r') := gsl_ran_flat r lo hi in
      let '(vs, r'') := draws r' count' lo hi in
      (v :: vs, r'')
  end.

(** [assert (status == 0)]: [None] is the failed assertion. *)
Definition get_and_check_time_of_day (env : environment) : option Z :=
  if gettimeofday_status env =? 0 then Some (gettimeofday_usec env)
  else None.

(** The [uint64_t] made of [tv_usec]. *)
Definition get_seed_from_time_of_day (env : environment) : option Z :=
  usec ← get_and_check_time_of_day env;
  Some (usec mod 2 ^ 64).

(** [assert (rng != NULL)], then the seeding. *)
Definition get_gsl_rng (env : environment) : option rng :=
  r ← gsl_rng_alloc env;
  seed ← get_seed_from_time_of_day env;
  Some (gsl_rng_set r seed).

Section Template.
Variable T : Fp.format.

(** [data[i] = gsl_ran_flat (rng, -a, a)] for [i < nelem]; [a] is a
    [float], the draw is a [double] converted to [T]. *)
Fixpoint init_data_uniform_loop (data : list spec_float) (r : rng)
    (i : nat) (todo : nat) (a : spec_float)
    : option (list spec_float * rng) :=
  match todo with
  | O => Some (data, r)
  | S todo' =>
      let '(v, r') :=
        gsl_ran_flat r (Fp.convert Fp.binary64 (Fp.opp a))
          (Fp.convert Fp.binary64 a) in
      data' ← Buf.store data i (Fp.convert T v);
      init_data_uniform_loop data' r' (S i) todo' a
  end.

Definition init_data_uniform (data : list spec_float) (r : rng)
    (nelem : N) (a : spec_float) : option (list spec_float * rng) :=
  init_data_uniform_loop data r 0 (N.to_nat nelem) a.
End Template.

(** [printf ("%.5f\n", v)]; a [float] argument is promoted to
    [double]. *)
Definition print_norm (v : spec_float) : string :=
  (Stdio.fmt_f 5 (Fp.convert Fp.binary64 v) ++ Stdio.newline)%string.

(** Follows the spec: two lines, the single precision norm of the
    first [n] of [N] draws and the double precision norm of the first
    [n] of the next [N] draws, and a successful exit. *)
Definition run_with (r : rng) : result :=
  let '(sample_f, r1) := draws r (N.to_nat N_x) lo hi in
  let '(sample, _) := draws r1 (N.to_nat N_x) lo hi in
  Result
    [print_norm
       (Norm.spec_sum_of_squares Fp.binary32
          (take (N.to_nat n) (map (Fp.convert Fp.binary32) sample_f)));
     print_norm
       (Norm.spec_sum_of_squares Fp.binary64
          (take (N.to_nat n) (map (Fp.convert Fp.binary64) sample)))]
    (Exit EXIT_SUCCESS).

Definition main (env : environment) : result :=
  let x_f := Buf.indeterminate N_x in
  let x := Buf.indeterminate N_x in
  match get_gsl_rng env with
  | None => Result [] Abort
  | Some r =>
      match init_data_uniform Fp.binary32 x_f r N_x
              (Fp.one Fp.binary32) with
      | None => Result [] Undefined
      | Some (x_f, r) =>
          match init_data_uniform Fp.binary64 x r N_x
                  (Fp.one Fp.binary32) with
          | None => Result [] Undefined
          | Some (x, r) =>
              match Norm.f Fp.binary32 x_f n with
              | None => Result [] Undefined
              | Some norm_f =>
                  match Norm.f Fp.binary64 x n with
                  | None => Result [print_norm norm_f] Undefined
                  | Some norm =>
                      Result [print_norm norm_f; print_norm norm]
                        (Exit EXIT_SUCCESS)
                  end
              end
          end
      end
  end.
End Gsl.

(** A small linear congruential generator, to run [main] on: the state
    is an integer, seeding stores the seed, and a draw is
    [a + u (b - a)] with [u] in [[0, 1)]. *)
Definition lcg_set (r : Z) (seed : Z) : Z := seed.

Definition lcg_flat (r : Z) (a b : spec_float) : spec_float * Z :=
  let u := Fp.div Fp.binary64 (Fp.of_Z Fp.binary64 (r mod 1000))
             (Fp.of_Z Fp.binary64 1000) in
  (Fp.add Fp.binary64 a
     (Fp.mul Fp.binary64 u (Fp.sub Fp.binary64 b a)),
   (r * 1103515245 + 12345) mod 2 ^ 31).

End Exp1.

(** ** Experiment 2: the scaled scan for underflow *)

Module Exp2.

Definition T : Fp.format := Fp.binary64.

(** [constexpr size_t N = 1024] and [constexpr double gamma = 100.0]. *)
Definition N_x : N := 1024.
Definition gamma : spec_float := Fp.of_Z T 100.

(** Arithmetic of [uint32_t] wraps around. *)
Definition wrap32 (n : N) : N := (n mod 2 ^ 32)%N.

(** [init_data]: [data[i] = (i + 1)/gamma] for [i < nelem], with [i + 1]
    computed in [uint32_t] and converted to [double]. *)
Fixpoint init_data_loop (data : list spec_float) (i : nat) (todo : nat)
    (gamma : spec_float) : option (list spec_float) :=
  match todo with
  | O => Some data
  | S todo' =>
      data' ← Buf.store data i
                (Fp.div T (Fp.of_Z T (Z.of_N (wrap32 (N.of_nat i + 1)))) gamma);
      init_data_loop data' (S i) todo' gamma
  end.

Definition init_data (data : list spec_float) (nelem : N)
    (gamma : spec_float) : option (list spec_float) :=
  init_data_loop data 0 (N.to_nat nelem) gamma.

(** [static double f(double *x, uint32_t n)]. *)
Fixpoint f_loop (x : list spec_float) (i : nat) (todo : nat)
    (result : spec_float) : option spec_float :=
  match todo with
  | O => Some result
  | S todo' =>
      x_i ← x !! i;
      f_loop x (S i) todo' (Fp.add T result (Fp.mul T x_i x_i))
  end.

Definition f (x : list spec_float) (n : N) : option spec_float :=
  f_loop x 0 (N.to_nat n) Fp.zero.

(** The three [printf] calls of the scan, with their arguments. *)
Inductive event :=
| Underflow_h (k : spec_float)
| Underflow_diff (k : spec_float) (n : N)
| Err_line (k : spec_float) (n : N) (err : spec_float).

Definition render (ev : event) : string :=
  (match ev with
   | Underflow_h k =>
       "underflow for 10^-" ++ Stdio.fmt_f 0 k ++ Stdio.newline
   | Underflow_diff k n =>
       "difference underflown for k: " ++ Stdio.fmt_f 0 k ++ " n: "
         ++ Stdio.fmt_d (Stdio.as_int n) ++ Stdio.newline
   | Err_line k n err =>
       "k: " ++ Stdio.fmt_f 0 k ++ " n: " ++ Stdio.fmt_d (Stdio.as_int n)
         ++ " err " ++ Stdio.fmt_f 6 err ++ Stdio.newline
   end)%string.

(** Where control is: at the head of the outer [for (;;)], at the test of
    the inner [for] (with [h] and [n] live), or at [finish]. *)
Inductive pc :=
| Outer
| Inner (h : spec_float) (n : N)
| Finish.

Record state := State { x : list spec_float; k : spec_float; at_pc : pc }.

Inductive step_result :=
| Next (out : list event) (s : state)
| Undefined.

(** Lines 246-250: the two evaluations around the perturbed and the
    restored first component, and the rescaled difference.  Returns the
    difference and the buffer as it is left. *)
Definition difference (x : list spec_float) (h : spec_float) (n : N)
    : option (spec_float * list spec_float) :=
  x1 ← Buf.store x 0 (Fp.div T (Fp.add T (Fp.one T) h) gamma);
  err ← f x1 n;
  x2 ← Buf.store x1 0 (Fp.div T (Fp.one T) gamma);
  fx ← f x2 n;
  let err := Fp.sub T err fx in
  let err := Fp.mul T err (Fp.mul T gamma gamma) in
  Some (err, x2).

(** Follows the spec: the buffer with its first component set to
    [(1 + h)/gamma], the buffer with it reset to [1/gamma], and
    [gamma^2 (f (x + h e_1) - f (x))] over the first [n] components. *)
Definition perturbed (x : list spec_float) (h : spec_float)
    : list spec_float :=
  <[0%nat := Fp.div T (Fp.add T (Fp.one T) h) gamma]> x.

Definition restored (x : list spec_float) : list spec_float :=
  <[0%nat := Fp.div T (Fp.one T) gamma]> x.

Definition spec_difference (x : list spec_float) (h : spec_float) (n : N)
    : option spec_float :=
  f_plus ← f (perturbed x h) n;
  f_base ← f (restored x) n;
  Some (Fp.mul T (Fp.sub T f_plus f_base) (Fp.mul T gamma gamma)).

(** The prescaling of a vector, and the norm computed as
    [gamma^2 f (x/gamma)]. *)
Definition prescale (gamma : spec_float) (x : list spec_float)
    : list spec_float :=
  map (fun x_i => Fp.div T x_i gamma) x.

Definition rescaled_norm (gamma : spec_float) (x : list spec_float) (n : N)
    : option spec_float :=
  v ← f (prescale gamma x) n;
  Some (Fp.mul T v (Fp.mul T gamma gamma)).

(** The vector [1, 2, ..., N] that [init_data] divides by [gamma]. *)
Definition integers : list spec_float :=
  map (fun i => Fp.of_Z T (Z.of_nat i + 1)) (seq 0 (N.to_nat N_x)).

Section Scan.
(** The C library's [pow] on [double]. *)
Variable pow : spec_float -> spec_float -> spec_float.

Definition step (s : state) : step_result :=
  match at_pc s with
  | Outer =>
      let h := pow (Fp.of_Z T 10) (Fp.opp (k s)) in
      if Fp.eqb h Fp.zero
      then Next [Underflow_h (k s)] (State (x s) (k s) Finish)
      else Next [] (State (x s) (k s) (Inner h 1))
  | Inner h n =>
      if (n <? N_x)%N then
        match difference (x s) h n with
        | None => Undefined
        | Some (err, x') =>
            if Fp.eqb err Fp.zero then
              Next [Underflow_diff (k s) n]
                (if (n =? 1)%N
                 then State x' (k s) Finish
                 else State x' (Fp.add T (k s) (Fp.one T)) Outer)
            else
              let err := Fp.div T err h in
              let err := Fp.sub T err (Fp.of_Z T 2) in
              Next [Err_line (k s) n err]
                (State x' (k s) (Inner h (wrap32 (n * 10))))
        end
      else Next [] (State (x s) (Fp.add T (k s) (Fp.one T)) Outer)
  | Finish => Next [] s
  end.

Inductive outcome :=
| Halted (out : list event) (s : state)
| Out_of_fuel (out : list event) (s : state)
| Crashed (out : list event).

(** Runs the machine until it reaches [finish], for at most [fuel]
    steps, collecting what is printed. *)
Fixpoint run (fuel : nat) (s : state) (out : list event) : outcome :=
  match at_pc s with
  | Finish => Halted out s
  | _ =>
      match fuel with
      | O => Out_of_fuel out s
      | S fuel' =>
          match step s with
          | Undefined => Crashed out
          | Next o s' => run fuel' s' (out ++ o)
          end
      end
  end.

(** The states the machine passes through from [s0]. *)
Inductive reachable (s0 : state) : state -> Prop :=
| reach_start : reachable s0 s0
| reach_step (s : state) (out : list event) (s' : state) :
    reachable s0 s -> step s = Next out s' -> reachable s0 s'.

(** [main]: the buffer is declared (its cells indeterminate, [x0]),
    initialised, and scanned from [k = 0.0]. *)
Definition main (x0 : list spec_float) (fuel : nat) : outcome :=
  match init_data x0 N_x gamma with
  | None => Crashed []
  | Some x => run fuel (State x Fp.zero Outer) []
  end.
End Scan.

(** The scan with the library's [pow]. *)
Definition pow : spec_float -> spec_float -> spec_float := Libm.pow T.

(** The sizes the inner loop visits, with their position. *)
Definition sizes : list (N * Z) :=
  [(1%N, 0); (10%N, 1); (100%N, 2); (1000%N, 3); (10000%N, 4)].

(** Case analysis on a member of [sizes]. *)
Ltac each_size Hin :=
  unfold sizes in Hin; cbn [In] in Hin;
  repeat (destruct Hin as [[= <- <-]|Hin]; [|]); [..|contradiction].

(** [rank r s]: the buffer has its size, the counter [k] holds an
    integer [j] of [0 .. 324], and the scan is at most [r] steps from
    [finish]. *)
Definition rank (r : Z) (s : state) : Prop :=
  length (x s) = N.to_nat N_x
  /\ exists j, k s = Fp.of_Z T j /\ 0 <= j <= 324
     /\ match at_pc s with
        | Finish => r = 0
        | Outer => r = 6 * (324 - j) + 1
        | Inner h n =>
            j <= 323 /\ exists i, In (n, i) sizes /\ r = 6 * (324 - j) - i
        end.

(** [double x[N]] before [init_data] runs; every cell is overwritten
    before it is read. *)
Definition x_declared : list spec_float := Buf.indeterminate N_x.

(** The buffer as [init_data] leaves it. *)
Definition x_initial : list spec_float :=
  default [] (init_data x_declared N_x gamma).

(** What an outcome has printed. *)
Definition printed (o : outcome) : list event :=
  match o with
  | Halted out _ | Out_of_fuel out _ | Crashed out => out
  end.

Definition final_state (o : outcome) : option state :=
  match o with
  | Halted _ s => Some s
  | _ => None
  end.

End Exp2.

(** ** Observations used by the further properties *)

Module Obs.

(** The sign bit of [v] is clear, or [v] is NaN: [v] is neither a
    negative number nor [-0.0]. *)
Definition sign_clear (v : spec_float) : Prop :=
  match v with
  | S754_nan => True
  | S754_zero s | S754_infinity s | S754_finite s _ _ => s = false
  end.

(** [a] and [b] are the same number, infinity or NaN (the form of the
    mantissa apart). *)
Definition same_value (a b : spec_float) : Prop :=
  match Fp.exact a, Fp.exact b with
  | Some (na, da), Some (nb, db) => na * 2 ^ db = nb * 2 ^ da
  | None, None => a = b
  | _, _ => False
  end.

(** The values of a format: [valid_binary] of [SpecFloat]. *)
Definition valid (T : Fp.format) (v : spec_float) : bool :=
  valid_binary (Fp.prec T) (Fp.emax T) v.

(** The size [n] and the counter [k] a line of the scan shows. *)
Definition event_size (ev : Exp2.event) : option N :=
  match ev with
  | Exp2.Underflow_h _ => None
  | Exp2.Underflow_diff _ n | Exp2.Err_line _ n _ => Some n
  end.

Definition event_k (ev : Exp2.event) : spec_float :=
  match ev with
  | Exp2.Underflow_h k | Exp2.Underflow_diff k _ | Exp2.Err_line k _ _ => k
  end.

(** The sizes below the capacity of the buffer. *)
Definition scanned_sizes : list N := [1%N; 10%N; 100%N; 1000%N].

(** The two messages that come before [finish]. *)
Definition closing (ev : Exp2.event) (k : spec_float) : Prop :=
  ev = Exp2.Underflow_h k \/ ev = Exp2.Underflow_diff k 1.

(** [safe s]: the buffer has its size, and in the inner loop [n] is one
    of the sizes of [Exp2.sizes]. *)
Definition safe (s : Exp2.state) : Prop :=
  length (Exp2.x s) = N.to_nat Exp2.N_x
  /\ match Exp2.at_pc s with
     | Exp2.Inner _ n => exists i, In (n, i) Exp2.sizes
     | _ => True
     end.

(** The place of a line in the scan: the integer [j] that its counter
    [k] holds and the size [n] it shows ([0] for the line of an
    underflown [h], which shows none); places are ordered by [j], then
    by [n]. *)
Definition event_column (ev : Exp2.event) : N :=
  match ev with
  | Exp2.Underflow_h _ => 0%N
  | Exp2.Underflow_diff _ n | Exp2.Err_line _ n _ => n
  end.

Definition shows (ev : Exp2.event) (place : Z * N) : Prop :=
  event_k ev = Fp.of_Z Exp2.T (fst place) /\ event_column ev = snd place.

Definition before (a b : Z * N) : Prop :=
  fst a < fst b \/ (fst a = fst b /\ (snd a < snd b)%N).

(** What is printed so far lies before the place the scan is at. *)
Definition ahead (s : Exp2.state) (j : Z) (place : Z * N) : Prop :=
  match Exp2.at_pc s with
  | Exp2.Outer => fst place < j
  | Exp2.Inner _ n => before place (j, n)
  | Exp2.Finish => True
  end.

End Obs.

(** ** Values and ranges, for the analysis of the rescaling *)

Module Val.

Definition pow2 (e : Z) : Q := Qpower 2 e.

(** The number a finite float holds; [0] for infinities and NaN. *)
Definition value (v : spec_float) : Q :=
  match v with
  | S754_finite s m e => (inject_Z (cond_Zopp s (Zpos m)) * pow2 e)%Q
  | _ => 0%Q
  end.

(** The sum of the squares of the numbers [qs], and of the numbers
    that the floats [xs] hold. *)
Definition sumsq (qs : list Q) : Q :=
  fold_right (fun q s => (q * q + s)%Q) 0%Q qs.

Definition sum_of_squares (xs : list spec_float) : Q :=
  sumsq (map value xs).

(** [v] is a normal number of [T]. *)
Definition normal (T : Fp.format) (v : spec_float) : Prop :=
  match v with
  | S754_finite _ m e =>
      Zpos (digits2_pos m) = Fp.prec T
      /\ emin (Fp.prec T) (Fp.emax T) <= e <= Fp.emax T - Fp.prec T
  | _ => False
  end.

Definition positive_normal (T : Fp.format) (v : spec_float) : Prop :=
  normal T v /\ exists m e, v = S754_finite false m e.

(** [v] is a normal number of [T] with [2^-L <= |v| < 2^L]. *)
Definition moderate (T : Fp.format) (L : Z) (v : spec_float) : bool :=
  match v with
  | S754_finite _ m e =>
      (Zpos (digits2_pos m) =? Fp.prec T)
      && (emin (Fp.prec T) (Fp.emax T) <=? e)
      && (e <=? Fp.emax T - Fp.prec T)
      && (- L <? Zpos (digits2_pos m) + e)
      && (Zpos (digits2_pos m) + e <=? L)
  | _ => false
  end.

(** [v] is a zero or a moderate number. *)
Definition zero_or_moderate (T : Fp.format) (L : Z) (v : spec_float)
    : bool :=
  match v with
  | S754_zero _ => true
  | _ => moderate T L v
  end.

(** [a] and [b] are finite and [|a - b| <= c 2^-bits |b|]. *)
Definition within (c bits : Z) (a b : spec_float) : Prop :=
  Fp.is_finite a = true /\ Fp.is_finite b = true
  /\ (Qabs (value a - value b) * pow2 bits
      <= inject_Z c * Qabs (value b))%Q.

(** [a] is [X] up to [k] roundings of relative error [u]. *)
Definition rel (u : Q) (k : nat) (a X : Q) : Prop :=
  (X * Qpower (1 - u) (Z.of_nat k) <= a
   /\ a <= X * Qpower (1 + u) (Z.of_nat k))%Q.

(** The accumulator [acc] of the norm tracks the exact sum [X]: both are
    zero, or [acc] is a positive normal number within [k] roundings of
    [X >= lo]. *)
Definition tracks (T : Fp.format) (u lo : Q) (k : nat) (acc : spec_float)
    (X : Q) : Prop :=
  (acc = S754_zero false /\ (X == 0)%Q)
  \/ (positive_normal T acc /\ rel u k (value acc) X /\ (lo <= X)%Q).

(** The component [y] stands for the number [q >= 0]: both are zero, or
    [y] is a normal number with [|y|] within [j] roundings of [q], and
    [lo <= q^2 <= hi]. *)
Definition stands_for (T : Fp.format) (u lo hi : Q) (j : nat)
    (y : spec_float) (q : Q) : Prop :=
  ((exists s, y = S754_zero s) /\ (q == 0)%Q)
  \/ (normal T y /\ rel u j (Qabs (value y)) q
      /\ (0 <= q)%Q /\ (lo <= q * q)%Q /\ (q * q <= hi)%Q).

End Val.

(** * Properties *)

(** ** Rounding of values that need none

    The operations of [SpecFloat] round through [binary_round_aux]; when the
    exact result fits the format, the rounding returns it.  These lemmas
    say so for the shifts the operations perform, for any format with
    [0 < prec < emax]. *)

Module FpFacts.

Lemma digits2_pos_size (p : positive) : digits2_pos p = Pos.size p.
Proof. induction p; simpl; congruence. Qed.

(** The number of binary digits, from bounds. *)
Lemma digits2_pos_bounds (p : positive) :
  2 ^ (Zpos (digits2_pos p) - 1) <= Zpos p < 2 ^ Zpos (digits2_pos p).
Proof.
  rewrite digits2_pos_size. split.
  - pose proof (Pos.size_le p) as H.
    apply Pos2Z.pos_le_pos in H. rewrite Pos2Z.inj_pow in H.
    replace (Zpos (Pos.size p)) with (Z.succ (Zpos (Pos.size p) - 1)) in H by lia.
    rewrite Z.pow_succ_r in H by lia.
    revert H. generalize (2 ^ (Zpos (Pos.size p) - 1)). intros z H. lia.
  - pose proof (Pos.size_gt p) as H.
    apply Pos2Z.pos_lt_pos in H. now rewrite Pos2Z.inj_pow in H.
Qed.

Lemma digits2_pos_unique (p : positive) (d : Z) :
  2 ^ (d - 1) <= Zpos p < 2 ^ d -> Zpos (digits2_pos p) = d.
Proof.
  intros [Hlo Hhi]. pose proof (digits2_pos_bounds p) as [Glo Ghi].
  assert (0 < d).
  { destruct (Z_lt_le_dec 0 d) as [|Hd]; [assumption|].
    destruct (Z.eq_dec d 0) as [->|]; [simpl in Hhi; lia|].
    rewrite Z.pow_neg_r in Hhi by lia. lia. }
  destruct (Z_lt_le_dec (Zpos (digits2_pos p)) d) as [Hlt|Hge].
  - assert (2 ^ Zpos (digits2_pos p) <= 2 ^ (d - 1))
      by (apply Z.pow_le_mono_r; lia). lia.
  - destruct (Z.eq_dec (Zpos (digits2_pos p)) d) as [|Hne]; [assumption|].
    assert (2 ^ d <= 2 ^ (Zpos (digits2_pos p) - 1))
      by (apply Z.pow_le_mono_r; lia). lia.
Qed.

(** Digits of a mantissa shifted left. *)
Lemma digits2_pos_shift (p : positive) (j : Z) :
  0 <= j ->
  Zpos (digits2_pos (Z.to_pos (Zpos p * 2 ^ j))) = Zpos (digits2_pos p) + j.
Proof.
  intros Hj. pose proof (digits2_pos_bounds p) as [Glo Ghi].
  assert (0 < 2 ^ j) by (apply Z.pow_pos_nonneg; lia).
  apply digits2_pos_unique. rewrite Z2Pos.id by nia.
  replace (Zpos (digits2_pos p) + j - 1)
    with (Zpos (digits2_pos p) - 1 + j) by lia.
  rewrite !Z.pow_add_r by lia. nia.
Qed.

Lemma iter_pos_nat {A} (g : A -> A) (p : positive) (a : A) :
  SpecFloat.iter_pos g p a = Nat.iter (Pos.to_nat p) g a.
Proof.
  revert a. induction p as [p IH|p IH|]; intros a; cbn [SpecFloat.iter_pos].
  - rewrite !IH, Pos2Nat.inj_xI.
    replace (S (2 * Pos.to_nat p)) with (Pos.to_nat p + (Pos.to_nat p + 1))%nat by lia.
    rewrite !Nat.iter_add. reflexivity.
  - rewrite !IH, Pos2Nat.inj_xO.
    replace (2 * Pos.to_nat p)%nat with (Pos.to_nat p + Pos.to_nat p)%nat by lia.
    rewrite Nat.iter_add. reflexivity.
  - reflexivity.
Qed.

Lemma nat_iter_xO (m : positive) (k : nat) :
  Zpos (Nat.iter k xO m) = Zpos m * 2 ^ Z.of_nat k.
Proof.
  induction k as [|k IH].
  - simpl. lia.
  - rewrite Nat2Z.inj_succ, Z.pow_succ_r by lia.
    change (Nat.iter (S k) xO m) with (xO (Nat.iter k xO m)).
    rewrite Pos2Z.inj_xO, IH. lia.
Qed.

Lemma pos_iter_xO (m p : positive) :
  Zpos (Pos.iter xO m p) = Zpos m * 2 ^ Zpos p.
Proof.
  rewrite Pos2Nat.inj_iter.
  change (nat_rect (fun _ => positive) m (fun _ => xO) (Pos.to_nat p))
    with (Nat.iter (Pos.to_nat p) xO m).
  rewrite nat_iter_xO, positive_nat_Z. reflexivity.
Qed.

(** Shifting out [k] zero bits loses nothing. *)
Lemma shr_exact (m : positive) (e k : Z) :
  0 <= k ->
  shr (Build_shr_record (Zpos (Z.to_pos (Zpos m * 2 ^ k))) false false) e k
  = (Build_shr_record (Zpos m) false false, e + k).
Proof.
  intros Hk. destruct k as [|p|p]; [| |lia].
  - simpl. rewrite Pos.mul_1_r, Z.add_0_r. reflexivity.
  - unfold shr. f_equal. rewrite iter_pos_nat.
    rewrite <- pos_iter_xO, Pos2Z.id, Pos2Nat.inj_iter.
    generalize (Pos.to_nat p) as k. induction k as [|k IH]; [reflexivity|].
    rewrite Nat.iter_succ_r. simpl. exact IH.
Qed.

Section Exact.
Variables prec emax : Z.
Hypothesis Hprec : 0 < prec.
Hypothesis Hemax : prec < emax.

Lemma shl_align_le (mx : positive) (ex ex' : Z) :
  ex' <= ex ->
  shl_align mx ex ex' = (Z.to_pos (Zpos mx * 2 ^ (ex - ex')), ex').
Proof.
  intros Hle. unfold shl_align.
  destruct (ex' - ex) as [|d|d] eqn:Hd; [| lia |].
  - replace (ex - ex') with 0 by lia. rewrite Z.mul_1_r. simpl. f_equal. lia.
  - replace (ex - ex') with (Zpos d) by lia.
    rewrite <- pos_iter_xO. reflexivity.
Qed.

Lemma shl_align_ge (mx : positive) (ex ex' : Z) :
  ex <= ex' -> shl_align mx ex ex' = (mx, ex).
Proof.
  intros Hle. unfold shl_align.
  destruct (ex' - ex) as [|d|d] eqn:Hd; [reflexivity | reflexivity | lia].
Qed.

(** A mantissa with [k] spare zero bits whose shifted form is
    canonical rounds to that form. *)
Lemma binary_round_aux_exact (s : bool) (m' : positive) (e k : Z) :
  0 <= k ->
  fexp prec emax (Zpos (digits2_pos m') + (e + k)) = e + k ->
  e + k <= emax - prec ->
  binary_round_aux prec emax s (Zpos (Z.to_pos (Zpos m' * 2 ^ k))) e loc_Exact
  = S754_finite s m' (e + k).
Proof.
  intros Hk Hcanon Hmax. unfold binary_round_aux, shr_fexp.
  cbn [Zdigits2 shr_record_of_loc].
  rewrite digits2_pos_shift by assumption.
  replace (Zpos (digits2_pos m') + k + e)
    with (Zpos (digits2_pos m') + (e + k)) by lia.
  rewrite Hcanon. replace (e + k - e) with k by lia.
  rewrite shr_exact by assumption.
  cbn [shr_m loc_of_shr_record round_nearest_even Zdigits2 shr_record_of_loc].
  rewrite Hcanon, Z.sub_diag. cbn [shr shr_m].
  apply Z.leb_le in Hmax. rewrite Hmax. reflexivity.
Qed.

Lemma binary_round_aux_canonical (s : bool) (m : positive) (e : Z) :
  fexp prec emax (Zpos (digits2_pos m) + e) = e ->
  e <= emax - prec ->
  binary_round_aux prec emax s (Zpos m) e loc_Exact = S754_finite s m e.
Proof.
  intros Hcanon Hmax.
  pose proof (binary_round_aux_exact s m e 0) as H.
  rewrite Z.add_0_r, Z.mul_1_r, Pos2Z.id in H.
  apply H; [lia | assumption | assumption].
Qed.

(** [binary_round] of a value that has a canonical form [m' * 2^e']. *)
Lemma binary_round_exact (s : bool) (m m' : positive) (e e' : Z) :
  fexp prec emax (Zpos (digits2_pos m) + e) = e' ->
  e' <= emax - prec ->
  (e' <= e -> Zpos m' = Zpos m * 2 ^ (e - e')) ->
  (e <= e' -> Zpos m = Zpos m' * 2 ^ (e' - e)) ->
  binary_round prec emax s m e = S754_finite s m' e'.
Proof.
  intros Hfexp Hmax Hdown Hup. unfold binary_round. rewrite Hfexp.
  destruct (Z_le_gt_dec e' e) as [Hle|Hgt].
  - rewrite shl_align_le by assumption.
    rewrite <- (Hdown Hle), Pos2Z.id.
    apply binary_round_aux_canonical; [|lia].
    rewrite <- Hfexp at 2. f_equal.
    assert (Hm' : m' = Z.to_pos (Zpos m * 2 ^ (e - e')))
      by (rewrite <- (Hdown Hle); symmetry; apply Pos2Z.id).
    rewrite Hm', digits2_pos_shift by lia. lia.
  - rewrite shl_align_ge by lia.
    assert (Hm : m = Z.to_pos (Zpos m' * 2 ^ (e' - e)))
      by (rewrite <- Hup by lia; symmetry; apply Pos2Z.id).
    replace e' with (e + (e' - e)) by lia.
    rewrite Hm at 1.
    apply binary_round_aux_exact; [lia| |lia].
    replace (e + (e' - e)) with e' by lia.
    rewrite <- Hfexp at 2. f_equal.
    rewrite Hm, digits2_pos_shift by lia. lia.
Qed.

Lemma of_Z_canon (p : positive) :
  Zpos (digits2_pos p) <= prec ->
  binary_normalize prec emax (Zpos p) 0 false = Fp.canon prec p.
Proof.
  intros Hd. unfold Fp.canon. cbn [binary_normalize].
  assert (0 < 2 ^ (prec - Zpos (digits2_pos p)))
    by (apply Z.pow_pos_nonneg; lia).
  apply binary_round_exact.
  - unfold fexp, emin. lia.
  - lia.
  - intros _. rewrite Z2Pos.id by nia. f_equal. f_equal. lia.
  - intros He. replace (Zpos (digits2_pos p) - prec - 0) with 0 in * by lia.
    replace (prec - Zpos (digits2_pos p)) with 0 in * by lia.
    rewrite Z2Pos.id by lia. lia.
Qed.

Lemma digits2_pos_succ_le (p : positive) :
  Zpos (digits2_pos p) <= Zpos (digits2_pos (p + 1)).
Proof.
  pose proof (digits2_pos_bounds p) as [Hlo _].
  pose proof (digits2_pos_bounds (p + 1)) as [_ Hhi].
  destruct (Z_le_gt_dec (Zpos (digits2_pos p)) (Zpos (digits2_pos (p + 1))))
    as [|Hgt]; [assumption|].
  assert (2 ^ Zpos (digits2_pos (p + 1)) <= 2 ^ (Zpos (digits2_pos p) - 1))
    by (apply Z.pow_le_mono_r; lia).
  lia.
Qed.

(** Adding one to an integer float is exact as long as the sum still
    fits the mantissa. *)
Lemma add_canon_one (p : positive) :
  Zpos (digits2_pos (p + 1)) <= prec ->
  SFadd prec emax (Fp.canon prec p) (Fp.canon prec 1)
  = Fp.canon prec (p + 1).
Proof.
  intros Hd. pose proof (digits2_pos_succ_le p) as Hle.
  set (d := Zpos (digits2_pos p)) in *.
  set (d' := Zpos (digits2_pos (p + 1))) in *.
  assert (Hd1 : 1 <= d) by (subst d; lia).
  assert (Hpow : 0 < 2 ^ (prec - d)) by (apply Z.pow_pos_nonneg; lia).
  assert (Hpow' : 0 < 2 ^ (prec - d')) by (apply Z.pow_pos_nonneg; lia).
  assert (Hpow1 : 0 < 2 ^ (prec - 1)) by (apply Z.pow_pos_nonneg; lia).
  assert (Hpowd : 0 < 2 ^ (d - 1)) by (apply Z.pow_pos_nonneg; lia).
  unfold Fp.canon at 1 2. fold d. cbn [digits2_pos].
  unfold SFadd.
  replace (Z.min (d - prec) (1 - prec)) with (1 - prec) by lia.
  rewrite !shl_align_le by lia. cbn [fst cond_Zopp].
  rewrite !Z2Pos.id by nia.
  replace (1 - prec - (1 - prec)) with 0 by lia.
  replace (d - prec - (1 - prec)) with (d - 1) by lia.
  rewrite Z.mul_1_r, <- Z.mul_assoc, <- Z.pow_add_r by lia.
  replace (prec - d + (d - 1)) with (prec - 1) by lia.
  rewrite Z.mul_1_l.
  replace (Zpos p * 2 ^ (prec - 1) + 2 ^ (prec - 1))
    with (Zpos (p + 1) * 2 ^ (prec - 1)) by lia.
  destruct (Zpos (p + 1) * 2 ^ (prec - 1)) as [|M|M] eqn:HM; [nia| |nia].
  cbn [binary_normalize]. unfold Fp.canon. fold d'.
  assert (HdM : Zpos (digits2_pos M) = d' + (prec - 1)).
  { replace M with (Z.to_pos (Zpos (p + 1) * 2 ^ (prec - 1)))
      by (rewrite HM; reflexivity).
    rewrite digits2_pos_shift by lia. reflexivity. }
  apply binary_round_exact.
  - rewrite HdM. unfold fexp, emin. lia.
  - lia.
  - intros He. assert (d' = 1) by lia.
    rewrite Z2Pos.id by nia. rewrite <- HM.
    replace (1 - prec - (d' - prec)) with 0 by lia.
    replace (prec - d') with (prec - 1) by lia. lia.
  - intros He. rewrite Z2Pos.id by nia. rewrite <- HM.
    rewrite <- Z.mul_assoc, <- Z.pow_add_r by lia.
    f_equal. f_equal. lia.
Qed.
End Exact.

Section Integers.
Variable T : Fp.format.
Hypothesis Hprec : 0 < Fp.prec T.
Hypothesis Hemax : Fp.prec T < Fp.emax T.

Lemma digits2_pos_le_prec (q : positive) :
  Zpos q < 2 ^ Fp.prec T -> Zpos (digits2_pos q) <= Fp.prec T.
Proof.
  intros Hq. pose proof (digits2_pos_bounds q) as [Hlo _].
  destruct (Z_le_gt_dec (Zpos (digits2_pos q)) (Fp.prec T)) as [|Hgt];
    [assumption|].
  assert (2 ^ Fp.prec T <= 2 ^ (Zpos (digits2_pos q) - 1))
    by (apply Z.pow_le_mono_r; lia).
  lia.
Qed.

Lemma of_Z_pos (q : positive) :
  Zpos q < 2 ^ Fp.prec T ->
  Fp.of_Z T (Zpos q) = Fp.canon (Fp.prec T) q.
Proof.
  intros Hq. unfold Fp.of_Z.
  apply of_Z_canon; auto using digits2_pos_le_prec.
Qed.

Lemma one_canon : Fp.one T = Fp.canon (Fp.prec T) 1.
Proof.
  apply of_Z_pos. change (Zpos 1) with (2 ^ 0).
  apply Z.pow_lt_mono_r; lia.
Qed.

(** [1.0 * 1.0] is [1.0]. *)
Lemma mul_one_one : Fp.mul T (Fp.one T) (Fp.one T) = Fp.one T.
Proof.
  rewrite one_canon. unfold Fp.mul, Fp.canon. cbn [digits2_pos SFmul xorb].
  assert (Hpow : 0 < 2 ^ (Fp.prec T - 1)) by (apply Z.pow_pos_nonneg; lia).
  replace (Zpos 1 - Fp.prec T) with (1 - Fp.prec T) by reflexivity.
  replace (Fp.prec T - Zpos 1) with (Fp.prec T - 1) by reflexivity.
  set (m := Z.to_pos (Zpos 1 * 2 ^ (Fp.prec T - 1))).
  assert (Hm : Zpos m = 2 ^ (Fp.prec T - 1))
    by (subst m; rewrite Z2Pos.id; lia).
  replace (Zpos (m * m)) with (Zpos (Z.to_pos (Zpos m * 2 ^ (Fp.prec T - 1))))
    by (rewrite Z2Pos.id, Pos2Z.inj_mul, Hm by nia; reflexivity).
  replace (1 - Fp.prec T) with (1 - Fp.prec T + (1 - Fp.prec T) + (Fp.prec T - 1)) at 3 by lia.
  apply binary_round_aux_exact; [lia | | lia].
  subst m. rewrite digits2_pos_shift by lia. cbn [digits2_pos].
  unfold fexp, emin. lia.
Qed.

(** Adding [1.0] to the float of [z] gives the float of [z + 1] while
    [z + 1] fits the mantissa. *)
Lemma add_of_Z_one (z : Z) :
  0 <= z -> z + 1 < 2 ^ Fp.prec T ->
  Fp.add T (Fp.of_Z T z) (Fp.one T) = Fp.of_Z T (z + 1).
Proof.
  intros Hz Hlt. destruct z as [|q|q]; [| |lia].
  - change (Fp.of_Z T (0 + 1)) with (Fp.one T).
    rewrite one_canon. reflexivity.
  - replace (Zpos q + 1) with (Zpos (q + 1)) in * by lia.
    rewrite !of_Z_pos, one_canon by lia.
    apply add_canon_one; auto using digits2_pos_le_prec.
Qed.

(** The float of an integer that fits the mantissa holds it exactly. *)
Lemma of_Z_is_integer (z : Z) :
  0 <= z < 2 ^ Fp.prec T -> Fp.is_integer (Fp.of_Z T z) z.
Proof.
  intros [Hz Hlt]. destruct z as [|q|q]; [reflexivity| |lia].
  rewrite of_Z_pos by assumption.
  pose proof (digits2_pos_le_prec q Hlt) as Hd.
  assert (0 < 2 ^ (Fp.prec T - Zpos (digits2_pos q)))
    by (apply Z.pow_pos_nonneg; lia).
  unfold Fp.is_integer, Fp.exact, Fp.canon.
  destruct (0 <=? Zpos (digits2_pos q) - Fp.prec T) eqn:He.
  - apply Z.leb_le in He.
    replace (Zpos (digits2_pos q) - Fp.prec T) with 0 by lia.
    replace (Fp.prec T - Zpos (digits2_pos q)) with 0 by lia.
    simpl. lia.
  - cbn [cond_Zopp]. rewrite Z2Pos.id by nia. do 2 f_equal. lia.
Qed.

Lemma count_up_iter (k : nat) :
  Z.of_nat k < 2 ^ Fp.prec T ->
  Nat.iter k (fun r => Norm.accumulate T r (Fp.one T)) Fp.zero
  = Fp.of_Z T (Z.of_nat k).
Proof.
  induction k as [|k IH]; intros Hk; [reflexivity|].
  rewrite Nat.iter_succ, IH by lia. unfold Norm.accumulate.
  rewrite mul_one_one, add_of_Z_one by lia.
  f_equal. lia.
Qed.
End Integers.

End FpFacts.

(** ** The norm evaluator *)

Module NormFacts.
Import FpFacts.

Section Generic.
Variable T : Fp.format.

Lemma f_loop_agree (x y : list spec_float) (todo i : nat) (r : spec_float) :
  (forall j, (i <= j < i + todo)%nat -> x !! j = y !! j) ->
  Norm.f_loop T x i todo r = Norm.f_loop T y i todo r.
Proof.
  revert i r. induction todo as [|todo IH]; intros i r Hxy; [reflexivity|].
  cbn [Norm.f_loop]. rewrite <- (Hxy i) by lia.
  destruct (x !! i) as [x_i|]; [|reflexivity].
  cbn. apply IH. intros j Hj. apply Hxy. lia.
Qed.

Lemma f_loop_fold (x : list spec_float) (todo i : nat) (r : spec_float) :
  (i + todo <= length x)%nat ->
  Norm.f_loop T x i todo r
  = Some (fold_left (Norm.accumulate T) (take todo (drop i x)) r).
Proof.
  revert i r. induction todo as [|todo IH]; intros i r Hlen; [reflexivity|].
  cbn [Norm.f_loop].
  destruct (lookup_lt_is_Some_2 x i ltac:(lia)) as [x_i Hx_i].
  rewrite Hx_i. cbn.
  rewrite (drop_S x x_i i Hx_i). cbn [take fold_left].
  apply IH. lia.
Qed.

Lemma f_loop_const (x : list spec_float) (c : spec_float)
    (todo i : nat) (r : spec_float) :
  (forall j, (i <= j < i + todo)%nat -> x !! j = Some c) ->
  Norm.f_loop T x i todo r
  = Some (Nat.iter todo (fun acc => Norm.accumulate T acc c) r).
Proof.
  revert i r. induction todo as [|todo IH]; intros i r Hc; [reflexivity|].
  cbn [Norm.f_loop]. rewrite (Hc i) by lia. cbn [mbind option_bind].
  rewrite Nat.iter_succ_r. apply IH. intros j Hj. apply Hc. lia.
Qed.

Lemma f_fold (x : list spec_float) (n : N) :
  (N.to_nat n <= length x)%nat ->
  Norm.f T x n = Some (Norm.spec_sum_of_squares T (take (N.to_nat n) x)).
Proof.
  intros Hlen. unfold Norm.f. rewrite f_loop_fold by lia.
  rewrite drop_0. reflexivity.
Qed.
End Generic.

(** The evaluator of Experiment 2 is the template at [double]. *)
Lemma exp2_f_loop (x : list spec_float) (todo i : nat) (r : spec_float) :
  Exp2.f_loop x i todo r = Norm.f_loop Fp.binary64 x i todo r.
Proof.
  revert i r. induction todo as [|todo IH]; intros i r; [reflexivity|].
  cbn [Exp2.f_loop Norm.f_loop]. destruct (x !! i); [|reflexivity].
  cbn. apply IH.
Qed.

Lemma exp2_f (x : list spec_float) (n : N) :
  Exp2.f x n = Norm.f Fp.binary64 x n.
Proof. apply exp2_f_loop. Qed.

(** C10. The value of [f (x, n)] is a function of the first [n] components
    of [x] alone: two buffers that agree on the indices [0 .. n-1] give
    the same result (the same undefined read included), whatever the rest
    of the buffers holds; this holds for the template at every format and
    for the evaluator of Experiment 2. *)
Theorem f_depends_on_prefix (T : Fp.format) (x y : list spec_float) (n : N) :
  (forall i, (i < N.to_nat n)%nat -> x !! i = y !! i) ->
  Norm.f T x n = Norm.f T y n /\ Exp2.f x n = Exp2.f y n.
Proof.
  intros Hxy.
  assert (H : forall T', Norm.f T' x n = Norm.f T' y n).
  { intros T'. apply f_loop_agree. intros j Hj. apply Hxy. lia. }
  split; [apply H|]. rewrite !exp2_f. apply H.
Qed.

(** Two buffers that differ only past the prefix read. *)
Lemma f_depends_on_prefix_witness :
  let x := [Fp.of_Z Fp.binary64 3; Fp.of_Z Fp.binary64 4;
            Fp.of_Z Fp.binary64 5] in
  let y := [Fp.of_Z Fp.binary64 3; Fp.of_Z Fp.binary64 4; S754_nan] in
  Norm.f Fp.binary64 x 2 = Norm.f Fp.binary64 y 2
  /\ Exp2.f x 2 = Exp2.f y 2.
Proof.
  apply (f_depends_on_prefix Fp.binary64
           [Fp.of_Z Fp.binary64 3; Fp.of_Z Fp.binary64 4;
            Fp.of_Z Fp.binary64 5]
           [Fp.of_Z Fp.binary64 3; Fp.of_Z Fp.binary64 4; S754_nan] 2).
  intros [|[|i]] Hi; [reflexivity | reflexivity | simpl in Hi; lia].
Defined.

(** C5. Given a vector and a length [n] within it, [f] returns the sum of
    the squares of the first [n] components, accumulated one after the
    other from the left, starting from [0.0]; the single and the double
    precision instance, and the evaluator of Experiment 2, are this same
    algorithm at their format.  The result is a function of the buffer
    and the format. *)
Theorem f_is_sequential_sum (x : list spec_float) (n : N) :
  (N.to_nat n <= length x)%nat ->
  Norm.f Fp.binary32 x n
  = Some (Norm.spec_sum_of_squares Fp.binary32 (take (N.to_nat n) x))
  /\ Norm.f Fp.binary64 x n
     = Some (Norm.spec_sum_of_squares Fp.binary64 (take (N.to_nat n) x))
  /\ Exp2.f x n
     = Some (Norm.spec_sum_of_squares Fp.binary64 (take (N.to_nat n) x)).
Proof.
  intros Hn. split; [|split].
  - apply f_fold. exact Hn.
  - apply f_fold. exact Hn.
  - rewrite (exp2_f x n). apply f_fold. exact Hn.
Qed.

(** The vector [3, 4, 5] and its first two components. *)
Lemma f_is_sequential_sum_witness :
  let x := [Fp.of_Z Fp.binary64 3; Fp.of_Z Fp.binary64 4;
            Fp.of_Z Fp.binary64 5] in
  Norm.f Fp.binary32 x 2
  = Some (Norm.spec_sum_of_squares Fp.binary32 (take (N.to_nat 2) x))
  /\ Norm.f Fp.binary64 x 2
     = Some (Norm.spec_sum_of_squares Fp.binary64 (take (N.to_nat 2) x))
  /\ Exp2.f x 2
     = Some (Norm.spec_sum_of_squares Fp.binary64 (take (N.to_nat 2) x)).
Proof.
  apply (f_is_sequential_sum
           [Fp.of_Z Fp.binary64 3; Fp.of_Z Fp.binary64 4;
            Fp.of_Z Fp.binary64 5] 2).
  simpl. lia.
Defined.

Lemma f_all_ones (T : Fp.format) (x : list spec_float) (n : N) :
  Norm.all_ones T x n ->
  Norm.f T x n
  = Some (Nat.iter (N.to_nat n)
            (fun r => Norm.accumulate T r (Fp.one T)) Fp.zero).
Proof.
  intros Hones. apply f_loop_const. intros j Hj. apply Hones. lia.
Qed.

(** C7, as amended.  On a vector whose first [n] components are [1.0],
    [f] returns exactly [n] in double precision for every [n] that a
    [uint32_t] holds, and in single precision for every [n] up to
    [2^24 = 16777216]. *)
Theorem norm_of_ones (T : Fp.format) (x : list spec_float) (n : N) :
  (T = Fp.binary32 /\ (n <= 16777216)%N)
  \/ (T = Fp.binary64 /\ (n < 2 ^ 32)%N) ->
  Norm.all_ones T x n ->
  Norm.f T x n = Some (Fp.of_Z T (Z.of_N n))
  /\ Fp.is_integer (Fp.of_Z T (Z.of_N n)) (Z.of_N n).
Proof.
  intros Hrange Hones. rewrite (f_all_ones T x n Hones).
  destruct Hrange as [[-> Hn]|[-> Hn]].
  - destruct (N.eq_dec n 16777216%N) as [->|Hne].
    + replace (N.to_nat 16777216%N) with (S (N.to_nat 16777215%N)) by lia.
      rewrite Nat.iter_succ, count_up_iter.
      * rewrite N_nat_Z. split; vm_compute; reflexivity.
      * reflexivity.
      * reflexivity.
      * rewrite N_nat_Z. reflexivity.
    + assert (Hlt : Z.of_N n < 2 ^ Fp.prec Fp.binary32)
        by (change (2 ^ Fp.prec Fp.binary32) with 16777216; lia).
      rewrite count_up_iter, N_nat_Z; [|reflexivity|reflexivity|lia].
      split; [reflexivity|].
      apply of_Z_is_integer; [reflexivity|reflexivity|lia].
  - assert (Hlt : Z.of_N n < 2 ^ Fp.prec Fp.binary64).
    { change (2 ^ Fp.prec Fp.binary64) with 9007199254740992.
      change (2 ^ 32)%N with 4294967296%N in Hn. lia. }
    rewrite count_up_iter, N_nat_Z; [|reflexivity|reflexivity|lia].
    split; [reflexivity|].
    apply of_Z_is_integer; [reflexivity|reflexivity|lia].
Qed.

(** Twelve ones in single precision, the size Experiment 1 uses. *)
Lemma norm_of_ones_witness :
  Norm.f Fp.binary32 (replicate 12 (Fp.one Fp.binary32)) 12
  = Some (Fp.of_Z Fp.binary32 (Z.of_N 12))
  /\ Fp.is_integer (Fp.of_Z Fp.binary32 (Z.of_N 12)) (Z.of_N 12).
Proof.
  apply (norm_of_ones Fp.binary32 (replicate 12 (Fp.one Fp.binary32)) 12).
  - left. split; [reflexivity | vm_compute; discriminate].
  - intros i Hi. apply lookup_replicate_2. simpl in Hi. lia.
Defined.

(** C7, as stated, fails in single precision: on [16777218] ones the
    accumulator has stopped at [2^24 = 16777216], which is neither the
    number [16777218] nor the [float] nearest to it. *)
Lemma norm_of_ones_single_stalls :
  let n := 16777218%N in
  let x := replicate (N.to_nat n) (Fp.one Fp.binary32) in
  Norm.all_ones Fp.binary32 x n
  /\ (N.to_nat n <= length x)%nat
  /\ Norm.f Fp.binary32 x n = Some (Fp.of_Z Fp.binary32 16777216)
  /\ ~ Fp.is_integer (Fp.of_Z Fp.binary32 16777216) (Z.of_N n)
  /\ Fp.eqb (Fp.of_Z Fp.binary32 16777216) (Fp.of_Z Fp.binary32 (Z.of_N n))
     = false.
Proof.
  intros n x.
  assert (Hones : Norm.all_ones Fp.binary32 x n).
  { intros i Hi. apply lookup_replicate_2. exact Hi. }
  split; [exact Hones|]. split.
  { unfold x. rewrite length_replicate. apply Nat.le_refl. }
  split.
  - rewrite (f_all_ones _ _ _ Hones). unfold n.
    replace (N.to_nat 16777218%N) with (3 + N.to_nat 16777215%N)%nat by lia.
    assert (Hr : Nat.iter (N.to_nat 16777215%N)
                   (fun r => Norm.accumulate Fp.binary32 r (Fp.one Fp.binary32))
                   Fp.zero
                 = Fp.of_Z Fp.binary32 16777215).
    { change 16777215 with (Z.of_N 16777215%N). rewrite <- N_nat_Z.
      apply count_up_iter; [reflexivity | reflexivity |].
      rewrite N_nat_Z. reflexivity. }
    etransitivity; [apply f_equal, Nat.iter_add|].
    revert Hr.
    generalize (Nat.iter (N.to_nat 16777215%N)
                  (fun r => Norm.accumulate Fp.binary32 r (Fp.one Fp.binary32))
                  Fp.zero).
    intros r ->. vm_compute. reflexivity.
  - split; [vm_compute; discriminate | vm_compute; reflexivity].
Qed.

End NormFacts.

(** ** Buffers *)

Module BufFacts.

Lemma store_in_range (x : list spec_float) (i : nat) (v : spec_float) :
  (i < length x)%nat -> Buf.store x i v = Some (<[i := v]> x).
Proof.
  intros Hi. unfold Buf.store.
  destruct (i <? length x)%nat eqn:E; [reflexivity|].
  apply Nat.ltb_ge in E. lia.
Qed.

Lemma store_Some (x x' : list spec_float) (i : nat) (v : spec_float) :
  Buf.store x i v = Some x' -> (i < length x)%nat /\ x' = <[i := v]> x.
Proof.
  unfold Buf.store. destruct (i <? length x)%nat eqn:E; [|discriminate].
  apply Nat.ltb_lt in E. intros [= <-]. auto.
Qed.

End BufFacts.

(** ** Experiment 1 *)

Module StdioFacts.

Lemma length_append (s1 s2 : string) :
  String.length (s1 ++ s2) = (String.length s1 + String.length s2)%nat.
Proof. induction s1 as [|c s1 IH]; simpl; [reflexivity|]. now rewrite IH. Qed.

Lemma length_substring (s : string) :
  forall n m, (n + m <= String.length s)%nat ->
              String.length (substring n m s) = m.
Proof.
  induction s as [|c s IH]; intros [|n] [|m] Hlen; simpl in *;
    try reflexivity; try lia.
  - rewrite (IH 0%nat m) by lia. reflexivity.
  - apply IH. lia.
  - apply IH. lia.
Qed.

Lemma append_assoc (s1 s2 s3 : string) :
  ((s1 ++ s2) ++ s3 = s1 ++ s2 ++ s3)%string.
Proof. induction s1 as [|c s1 IH]; simpl; [reflexivity|]. now rewrite IH. Qed.

Lemma length_zeros (k : nat) : String.length (Stdio.zeros k) = k.
Proof. induction k as [|k IH]; simpl; [reflexivity|]. now rewrite IH. Qed.

(** With at least one decimal asked for, the digits are split by a point
    that has exactly [p] characters after it and at least one before. *)
Lemma place_point_shape (p : nat) (q : N) :
  (0 < p)%nat ->
  exists int frac,
    Stdio.place_point p q = (int ++ "." ++ frac)%string
    /\ String.length frac = p /\ (0 < String.length int)%nat.
Proof.
  intros Hp. unfold Stdio.place_point.
  set (d := Stdio.digits q).
  set (s := (Stdio.zeros (S p - String.length d) ++ d)%string).
  assert (Hs : (S p <= String.length s)%nat).
  { subst s. rewrite length_append, length_zeros. lia. }
  destruct p as [|p]; [lia|].
  eexists _, _. split; [reflexivity|]. split.
  - apply length_substring. lia.
  - rewrite length_substring by lia. lia.
Qed.

(** [%.5f] of a finite value: a sign, digits, a point, five characters. *)
Lemma fmt_f_5_shape (v : spec_float) :
  Fp.is_finite v = true ->
  exists sign int frac,
    Stdio.fmt_f 5 v = (sign ++ int ++ "." ++ frac)%string
    /\ String.length frac = 5%nat /\ (0 < String.length int)%nat.
Proof.
  destruct v as [s|s| |s m e]; try discriminate; intros _; cbn [Stdio.fmt_f].
  - destruct (place_point_shape 5 0) as (int & frac & -> & Hf & Hi); [lia|].
    exists (if s then "-" else "")%string, int, frac. auto.
  - destruct (place_point_shape 5 (Stdio.scaled_decimal 5 m e))
      as (int & frac & -> & Hf & Hi); [lia|].
    exists (if s then "-" else "")%string, int, frac. auto.
Qed.

End StdioFacts.

Module Exp1Facts.
Import FpFacts NormFacts Exp1 BufFacts.

Section Gsl.
Variable rng : Type.
Variable gsl_rng_set : rng -> Z -> rng.
Variable gsl_ran_flat :
  rng -> spec_float -> spec_float -> spec_float * rng.

Lemma bounds_are_minus_one_and_one :
  lo = Fp.opp (Fp.one Fp.binary64) /\ hi = Fp.one Fp.binary64.
Proof. split; vm_compute; reflexivity. Qed.

Lemma draws_length (count : nat) :
  forall r a b,
    length (fst (Exp1.draws rng gsl_ran_flat r count a b)) = count.
Proof.
  induction count as [|count IH]; intros r a b; [reflexivity|].
  cbn [Exp1.draws]. destruct (gsl_ran_flat r a b) as [v r'].
  specialize (IH r' a b).
  destruct (Exp1.draws rng gsl_ran_flat r' count a b) as [vs r''].
  cbn [fst length] in *. now rewrite IH.
Qed.

Lemma init_data_uniform_loop_draws (T : Fp.format) (todo : nat) :
  forall (data : list spec_float) (r : rng) (i : nat),
    (i + todo <= length data)%nat ->
    init_data_uniform_loop rng gsl_ran_flat T data r i todo
      (Fp.one Fp.binary32)
    = Some (take i data
              ++ map (Fp.convert T)
                   (fst (Exp1.draws rng gsl_ran_flat r todo lo hi))
              ++ drop (i + todo) data,
            snd (Exp1.draws rng gsl_ran_flat r todo lo hi)).
Proof.
  induction todo as [|todo IH]; intros data r i Hlen.
  - cbn [init_data_uniform_loop Exp1.draws fst snd map app].
    rewrite Nat.add_0_r, take_drop. reflexivity.
  - cbn [init_data_uniform_loop Exp1.draws]. fold lo hi.
    destruct (gsl_ran_flat r lo hi) as [v r'].
    rewrite store_in_range by lia. cbn [mbind option_bind].
    rewrite IH by (rewrite length_insert; lia).
    destruct (Exp1.draws rng gsl_ran_flat r' todo lo hi) as [vs r''].
    cbn [fst snd map]. f_equal. f_equal.
    rewrite (take_S_r _ _ (Fp.convert T v))
      by (apply list_lookup_insert_eq; lia).
    rewrite take_insert_ge by lia.
    rewrite drop_insert_lt by lia.
    rewrite <- app_assoc. cbn [app].
    replace (S i + todo)%nat with (i + S todo)%nat by lia. reflexivity.
Qed.

Lemma init_data_uniform_draws (T : Fp.format) (r : rng) :
  init_data_uniform rng gsl_ran_flat T (Buf.indeterminate N_x) r N_x
    (Fp.one Fp.binary32)
  = Some (map (Fp.convert T)
            (fst (Exp1.draws rng gsl_ran_flat r (N.to_nat N_x) lo hi)),
          snd (Exp1.draws rng gsl_ran_flat r (N.to_nat N_x) lo hi)).
Proof.
  unfold init_data_uniform.
  rewrite init_data_uniform_loop_draws
    by (unfold Buf.indeterminate; rewrite length_replicate; lia).
  rewrite take_0, drop_ge
    by (unfold Buf.indeterminate; rewrite length_replicate; lia).
  rewrite app_nil_r. reflexivity.
Qed.

Lemma main_with_generator (env : environment rng) (r : rng) :
  get_gsl_rng rng gsl_rng_set env = Some r ->
  main rng gsl_rng_set gsl_ran_flat env = run_with rng gsl_ran_flat r.
Proof.
  intros Hr. unfold main, run_with. rewrite Hr.
  rewrite !init_data_uniform_draws.
  pose proof (draws_length (N.to_nat N_x) r lo hi) as Hl1.
  destruct (Exp1.draws rng gsl_ran_flat r (N.to_nat N_x) lo hi)
    as [sample_f r1].
  cbn [fst snd] in *. cbv beta iota.
  pose proof (draws_length (N.to_nat N_x) r1 lo hi) as Hl2.
  destruct (Exp1.draws rng gsl_ran_flat r1 (N.to_nat N_x) lo hi)
    as [sample r2].
  cbn [fst snd] in *. cbv beta iota.
  rewrite !f_fold; [reflexivity| |].
  - rewrite length_map, Hl2. vm_compute. lia.
  - rewrite length_map, Hl1. vm_compute. lia.
Qed.

(** C8, as amended.  Experiment 1 aborts, printing nothing, when the
    allocation of the generator fails or [gettimeofday] reports a
    failure.  Otherwise it prints exactly two lines and exits with
    [EXIT_SUCCESS]: the norm in single precision of the first [n = 12]
    of 2048 draws with bounds [-1] and [1], then the norm in double
    precision of the first 12 of the next 2048 draws, each printed by
    [%.5f], which for a finite value ends in a point and five
    characters. *)
Theorem experiment1_output (env : environment rng) :
  main rng gsl_rng_set gsl_ran_flat env
  = match gsl_rng_alloc rng env with
    | None => Result [] Abort
    | Some r0 =>
        if gettimeofday_status rng env =? 0
        then run_with rng gsl_ran_flat
               (gsl_rng_set r0 (gettimeofday_usec rng env mod 2 ^ 64))
        else Result [] Abort
    end
  /\ (lo = Fp.opp (Fp.one Fp.binary64) /\ hi = Fp.one Fp.binary64)
  /\ (forall v,
        Fp.is_finite (Fp.convert Fp.binary64 v) = true ->
        exists sign int frac,
          print_norm v = (sign ++ int ++ "." ++ frac ++ Stdio.newline)%string
          /\ String.length frac = 5%nat).
Proof.
  split; [|split; [exact bounds_are_minus_one_and_one|]].
  - destruct (gsl_rng_alloc rng env) as [r0|] eqn:Ealloc.
    + destruct (gettimeofday_status rng env =? 0) eqn:Estatus.
      * apply main_with_generator.
        unfold get_gsl_rng, get_seed_from_time_of_day,
          get_and_check_time_of_day.
        rewrite Ealloc, Estatus. reflexivity.
      * unfold main, get_gsl_rng, get_seed_from_time_of_day,
          get_and_check_time_of_day.
        rewrite Ealloc, Estatus. reflexivity.
    + unfold main, get_gsl_rng. rewrite Ealloc. reflexivity.
  - intros v Hv. unfold print_norm.
    destruct (StdioFacts.fmt_f_5_shape (Fp.convert Fp.binary64 v) Hv)
      as (sign & int & frac & -> & Hf & _).
    exists sign, int, frac. split; [|exact Hf].
    rewrite !StdioFacts.append_assoc. reflexivity.
Qed.
End Gsl.

(** C8, as stated, fails: with the generator allocated, a failure
    reported by [gettimeofday] still aborts the run. *)
Lemma abort_with_generator_allocated :
  let env := Environment Z (Some 0) (-1) 0 in
  gsl_rng_alloc Z env = Some 0
  /\ main Z lcg_set lcg_flat env = Result [] Abort.
Proof. split; reflexivity. Qed.

(** A run with the small generator: two lines and a successful exit. *)
Lemma experiment1_runs :
  exists line_f line,
    main Z lcg_set lcg_flat (Environment Z (Some 0) 0 42)
    = Result [line_f; line] (Exit EXIT_SUCCESS).
Proof. eexists _, _. vm_compute. reflexivity. Qed.
End Exp1Facts.

(** ** Experiment 2 *)

Module Exp2Facts.
Import FpFacts NormFacts BufFacts Exp2.

Lemma f_defined (x : list spec_float) (n : N) :
  (N.to_nat n <= length x)%nat -> is_Some (f x n).
Proof. intros Hn. rewrite exp2_f, f_fold by assumption. eauto. Qed.

Lemma difference_unfold (x : list spec_float) (h : spec_float) (n : N) :
  (0 < length x)%nat ->
  difference x h n
  = (d ← spec_difference x h n; Some (d, restored x)).
Proof.
  intros Hx. unfold difference, spec_difference.
  rewrite store_in_range by assumption. cbn [mbind option_bind].
  fold (perturbed x h).
  destruct (f (perturbed x h) n) as [f_plus|]; [|reflexivity].
  rewrite store_in_range by (unfold perturbed; rewrite length_insert; assumption).
  cbn [mbind option_bind]. unfold perturbed. rewrite list_insert_insert_eq.
  fold (restored x).
  destruct (f (restored x) n) as [f_base|]; reflexivity.
Qed.

Lemma restored_base (x : list spec_float) :
  x !! 0%nat = Some (Fp.div T (Fp.one T) gamma) -> restored x = x.
Proof. intros H. apply list_insert_id. exact H. Qed.

(** C1. For a pair [(k, n)] the scan sets [x[0]] to [(1 + h)/gamma],
    evaluates [f] over the first [n] components, resets [x[0]] to
    [1/gamma], evaluates [f] again, subtracts the second value from the
    first and multiplies by [gamma*gamma]: the raw difference is
    [gamma^2 (f (x + h e_1) - f (x))], the buffer is left with
    [x[0] = 1/gamma], and on a buffer that starts with [x[0] = 1/gamma]
    the second evaluation is [f] of the buffer itself. *)
Theorem difference_is_rescaled_forward_difference
    (x : list spec_float) (h : spec_float) (n : N) :
  (0 < length x)%nat ->
  difference x h n
  = (f_plus ← f (<[0%nat := Fp.div T (Fp.add T (Fp.one T) h) gamma]> x) n;
     f_base ← f (<[0%nat := Fp.div T (Fp.one T) gamma]> x) n;
     Some (Fp.mul T (Fp.sub T f_plus f_base) (Fp.mul T gamma gamma),
           <[0%nat := Fp.div T (Fp.one T) gamma]> x))
  /\ difference x h n = (d ← spec_difference x h n; Some (d, restored x))
  /\ Fp.mul T gamma gamma = Fp.of_Z T 10000
  /\ (x !! 0%nat = Some (Fp.div T (Fp.one T) gamma) ->
      difference x h n
      = (f_plus ← f (perturbed x h) n;
         f_base ← f x n;
         Some (Fp.mul T (Fp.sub T f_plus f_base) (Fp.mul T gamma gamma), x)))
  /\ (forall pow k0,
        (n < N_x)%N ->
        step pow (State x k0 (Inner h n))
        = match spec_difference x h n with
          | None => Undefined
          | Some d =>
              if Fp.eqb d Fp.zero
              then Next [Underflow_diff k0 n]
                     (if (n =? 1)%N
                      then State (restored x) k0 Finish
                      else State (restored x) (Fp.add T k0 (Fp.one T)) Outer)
              else Next [Err_line k0 n
                           (Fp.sub T (Fp.div T d h) (Fp.of_Z T 2))]
                     (State (restored x) k0 (Inner h (wrap32 (n * 10))))
          end).
Proof.
  intros Hx. pose proof (difference_unfold x h n Hx) as Hd.
  split; [|split; [exact Hd|split; [vm_compute; reflexivity|split]]];
    [| |intros pow k0 Hn; unfold step; cbn [Exp2.at_pc Exp2.x Exp2.k];
        apply N.ltb_lt in Hn; rewrite Hn, Hd;
        destruct (spec_difference x h n) as [d|]; reflexivity].
  - rewrite Hd. unfold spec_difference. fold (perturbed x h) (restored x).
    destruct (f (perturbed x h) n); [|reflexivity].
    cbn [mbind option_bind].
    destruct (f (restored x) n); reflexivity.
  - intros H0. rewrite Hd. unfold spec_difference.
    rewrite (restored_base x H0).
    destruct (f (perturbed x h) n); [|reflexivity].
    cbn [mbind option_bind].
    destruct (f x n); reflexivity.
Qed.

(** The buffer [3, 4] with [h = 1] and [n = 2]. *)
Lemma difference_is_rescaled_forward_difference_witness :
  let x := [Fp.of_Z T 3; Fp.of_Z T 4] in
  let h := Fp.one T in
  let n := 2%N in
  difference x h n
  = (f_plus ← f (<[0%nat := Fp.div T (Fp.add T (Fp.one T) h) gamma]> x) n;
     f_base ← f (<[0%nat := Fp.div T (Fp.one T) gamma]> x) n;
     Some (Fp.mul T (Fp.sub T f_plus f_base) (Fp.mul T gamma gamma),
           <[0%nat := Fp.div T (Fp.one T) gamma]> x))
  /\ difference x h n = (d ← spec_difference x h n; Some (d, restored x))
  /\ Fp.mul T gamma gamma = Fp.of_Z T 10000
  /\ (x !! 0%nat = Some (Fp.div T (Fp.one T) gamma) ->
      difference x h n
      = (f_plus ← f (perturbed x h) n;
         f_base ← f x n;
         Some (Fp.mul T (Fp.sub T f_plus f_base) (Fp.mul T gamma gamma), x)))
  /\ (forall pow k0,
        (n < N_x)%N ->
        step pow (State x k0 (Inner h n))
        = match spec_difference x h n with
          | None => Undefined
          | Some d =>
              if Fp.eqb d Fp.zero
              then Next [Underflow_diff k0 n]
                     (if (n =? 1)%N
                      then State (restored x) k0 Finish
                      else State (restored x) (Fp.add T k0 (Fp.one T)) Outer)
              else Next [Err_line k0 n
                           (Fp.sub T (Fp.div T d h) (Fp.of_Z T 2))]
                     (State (restored x) k0 (Inner h (wrap32 (n * 10))))
          end).
Proof.
  apply (difference_is_rescaled_forward_difference
           [Fp.of_Z T 3; Fp.of_Z T 4] (Fp.one T) 2).
  simpl. lia.
Defined.

(** C2. When the difference computed for a pair [(k, n)] compares equal
    to zero, the step prints the underflow message of that pair and
    leaves the inner loop; it goes to [finish] exactly when [n = 1], and
    otherwise to the head of the outer loop with [k + 1]. *)
Theorem zero_difference_leaves_inner_loop
    (pow : spec_float -> spec_float -> spec_float)
    (s : state) (h : spec_float) (n : N)
    (err : spec_float) (x' : list spec_float) :
  at_pc s = Inner h n ->
  (n < N_x)%N ->
  difference (x s) h n = Some (err, x') ->
  Fp.eqb err Fp.zero = true ->
  exists s',
    step pow s = Next [Underflow_diff (k s) n] s'
    /\ render (Underflow_diff (k s) n)
       = ("difference underflown for k: " ++ Stdio.fmt_f 0 (k s) ++ " n: "
            ++ Stdio.fmt_d (Stdio.as_int n) ++ Stdio.newline)%string
    /\ (at_pc s' = Finish <-> n = 1%N)
    /\ (n <> 1%N ->
        at_pc s' = Outer /\ k s' = Fp.add T (k s) (Fp.one T))
    /\ (forall h' n', at_pc s' <> Inner h' n').
Proof.
  intros Hpc Hn Hdiff Hzero. unfold step. rewrite Hpc.
  apply N.ltb_lt in Hn. rewrite Hn, Hdiff, Hzero.
  destruct (n =? 1)%N eqn:E.
  - apply N.eqb_eq in E. eexists. split; [reflexivity|].
    split; [reflexivity|]. cbn [at_pc k].
    repeat split; try tauto; try discriminate.
  - apply N.eqb_neq in E. eexists. split; [reflexivity|].
    split; [reflexivity|]. cbn [at_pc k].
    repeat split; try tauto; try discriminate.
Qed.

(** The pair [(16, 1)], where the run of the program underflows. *)
Lemma zero_difference_leaves_inner_loop_witness :
  let h := Exp2.pow (Fp.of_Z T 10) (Fp.opp (Fp.of_Z T 16)) in
  let s := State x_initial (Fp.of_Z T 16) (Inner h 1) in
  exists s',
    step Exp2.pow s = Next [Underflow_diff (k s) 1] s'
    /\ render (Underflow_diff (k s) 1)
       = ("difference underflown for k: " ++ Stdio.fmt_f 0 (k s) ++ " n: "
            ++ Stdio.fmt_d (Stdio.as_int 1) ++ Stdio.newline)%string
    /\ (at_pc s' = Finish <-> 1%N = 1%N)
    /\ (1%N <> 1%N ->
        at_pc s' = Outer /\ k s' = Fp.add T (k s) (Fp.one T))
    /\ (forall h' n', at_pc s' <> Inner h' n').
Proof.
  apply (zero_difference_leaves_inner_loop Exp2.pow
           (State x_initial (Fp.of_Z T 16)
              (Inner (Exp2.pow (Fp.of_Z T 10) (Fp.opp (Fp.of_Z T 16))) 1))
           (Exp2.pow (Fp.of_Z T 10) (Fp.opp (Fp.of_Z T 16))) 1
           (S754_zero false) x_initial).
  - reflexivity.
  - reflexivity.
  - vm_compute. reflexivity.
  - reflexivity.
Defined.

(** The cell [init_data] writes at index [j]. *)
Lemma wrap32_small (j : nat) :
  Z.of_nat j + 1 < 2 ^ 32 ->
  Z.of_N (wrap32 (N.of_nat j + 1)) = Z.of_nat j + 1.
Proof.
  intros Hj. unfold wrap32.
  rewrite N.mod_small; [lia|].
  apply N2Z.inj_lt. rewrite N2Z.inj_add, nat_N_Z, N2Z.inj_pow.
  exact Hj.
Qed.

Lemma init_data_loop_Some (todo : nat) :
  forall (data : list spec_float) (i : nat) (g : spec_float)
         (r : list spec_float),
    init_data_loop data i todo g = Some r ->
    length r = length data
    /\ (forall j, (i <= j < i + todo)%nat ->
          (j < length data)%nat
          /\ r !! j
             = Some (Fp.div T (Fp.of_Z T (Z.of_N (wrap32 (N.of_nat j + 1)))) g))
    /\ (forall j, ~ (i <= j < i + todo)%nat -> r !! j = data !! j).
Proof.
  induction todo as [|todo IH]; intros data i g r Hr; cbn [init_data_loop] in Hr.
  - injection Hr as <-. split; [reflexivity|]. split; [lia|reflexivity].
  - destruct (Buf.store data i _) as [data'|] eqn:Hst; [|discriminate].
    apply store_Some in Hst as [Hi ->]. cbn [mbind option_bind] in Hr.
    apply IH in Hr as (Hlen & Hin & Hout).
    rewrite length_insert in Hlen, Hin. split; [exact Hlen|]. split.
    + intros j Hj. destruct (Nat.eq_dec j i) as [->|Hne].
      * split; [exact Hi|]. rewrite Hout by lia.
        apply list_lookup_insert_eq. exact Hi.
      * apply Hin. lia.
    + intros j Hj. rewrite Hout by lia.
      apply list_lookup_insert_ne. lia.
Qed.

Lemma init_data_loop_defined (todo : nat) :
  forall (data : list spec_float) (i : nat) (g : spec_float),
    (i + todo <= length data)%nat ->
    is_Some (init_data_loop data i todo g).
Proof.
  induction todo as [|todo IH]; intros data i g Hlen; cbn [init_data_loop].
  - eauto.
  - rewrite store_in_range by lia. cbn [mbind option_bind].
    apply IH. rewrite length_insert. lia.
Qed.

(** [init_data] succeeds on the declared buffer. *)
Lemma x_initial_eq : init_data x_declared N_x gamma = Some x_initial.
Proof. vm_compute. reflexivity. Qed.

(** A step of the scan from a buffer that starts with [1/gamma] leaves
    the buffer as it was. *)
Lemma step_keeps_buffer (pow : spec_float -> spec_float -> spec_float)
    (s s' : state) (out : list event) :
  x s !! 0%nat = Some (Fp.div T (Fp.one T) gamma) ->
  step pow s = Next out s' -> x s' = x s.
Proof.
  intros H0. unfold step. destruct (at_pc s) as [|h n|].
  - destruct (Fp.eqb _ _); intros [= <- <-]; reflexivity.
  - destruct (n <? N_x)%N; [|intros [= <- <-]; reflexivity].
    destruct (difference (x s) h n) as [[err x']|] eqn:Hd; [|discriminate].
    assert (Hx' : x' = x s).
    { rewrite difference_unfold in Hd
        by (apply lookup_lt_Some in H0; exact H0).
      destruct (spec_difference (x s) h n); [|discriminate].
      injection Hd as _ <-. apply restored_base. exact H0. }
    destruct (Fp.eqb err Fp.zero).
    + destruct (n =? 1)%N; intros [= <- <-]; exact Hx'.
    + intros [= <- <-]. exact Hx'.
  - intros [= <- <-]. reflexivity.
Qed.

(** C9. Throughout the scan the buffer is the one [init_data] made:
    every [x[i]] is [(i + 1)/gamma], [x[0]] is [1/gamma] whenever a pair
    [(k, n)] starts, the perturbation of a pair touches [x[0]] only, and
    the reset brings the same buffer back. *)
Theorem scan_keeps_base_vector
    (pow : spec_float -> spec_float -> spec_float)
    (x0 xi : list spec_float) (s : state) :
  init_data x0 N_x gamma = Some xi ->
  reachable pow (State xi Fp.zero Outer) s ->
  x s = xi
  /\ (forall i, (i < N.to_nat N_x)%nat ->
        x s !! i = Some (Fp.div T (Fp.of_Z T (Z.of_nat i + 1)) gamma))
  /\ x s !! 0%nat = Some (Fp.div T (Fp.one T) gamma)
  /\ (forall h i, (1 <= i)%nat -> perturbed (x s) h !! i = x s !! i)
  /\ restored (x s) = x s.
Proof.
  intros Hinit Hreach.
  apply init_data_loop_Some in Hinit as (Hlen & Hin & _).
  assert (Hcell : forall i, (i < N.to_nat N_x)%nat ->
            xi !! i = Some (Fp.div T (Fp.of_Z T (Z.of_nat i + 1)) gamma)).
  { intros i Hi. destruct (Hin i ltac:(lia)) as [_ ->].
    rewrite wrap32_small; [reflexivity|].
    change (N.to_nat N_x) with 1024%nat in Hi.
    change (2 ^ 32) with 4294967296. lia. }
  assert (H0 : xi !! 0%nat = Some (Fp.div T (Fp.one T) gamma)).
  { apply (Hcell 0%nat). change (N.to_nat N_x) with 1024%nat. lia. }
  assert (Hx : x s = xi).
  { induction Hreach as [|s out s' Hreach IH Hstep]; [reflexivity|].
    rewrite <- IH. eapply step_keeps_buffer; [|exact Hstep].
    rewrite IH. exact H0. }
  rewrite Hx. split; [reflexivity|]. split; [exact Hcell|].
  split; [exact H0|]. split.
  - intros h i Hi. apply list_lookup_insert_ne. lia.
  - apply restored_base. exact H0.
Qed.

(** The state in which the first pair [(0, 1)] starts. *)
Lemma scan_keeps_base_vector_witness :
  let s := State x_initial Fp.zero (Inner (Fp.of_Z T 1) 1) in
  x s = x_initial
  /\ (forall i, (i < N.to_nat N_x)%nat ->
        x s !! i = Some (Fp.div T (Fp.of_Z T (Z.of_nat i + 1)) gamma))
  /\ x s !! 0%nat = Some (Fp.div T (Fp.one T) gamma)
  /\ (forall h i, (1 <= i)%nat -> perturbed (x s) h !! i = x s !! i)
  /\ restored (x s) = x s.
Proof.
  apply (scan_keeps_base_vector Exp2.pow x_declared x_initial).
  - vm_compute. reflexivity.
  - apply (reach_step _ _ (State x_initial Fp.zero Outer) []).
    + apply reach_start.
    + vm_compute. reflexivity.
Defined.

(** [10^-324] is below half the least positive [double]. *)
Lemma pow_underflows :
  Fp.eqb (Exp2.pow (Fp.of_Z T 10) (Fp.opp (Fp.of_Z T 324))) Fp.zero = true.
Proof. vm_compute. reflexivity. Qed.

Lemma k_increment (j : Z) :
  0 <= j <= 324 -> Fp.add T (Fp.of_Z T j) (Fp.one T) = Fp.of_Z T (j + 1).
Proof.
  intros Hj. apply add_of_Z_one; [reflexivity | reflexivity | lia |].
  change (2 ^ Fp.prec T) with 9007199254740992. lia.
Qed.

Lemma difference_defined (x : list spec_float) (h : spec_float) (n : N) :
  (0 < length x)%nat -> (N.to_nat n <= length x)%nat ->
  exists err, difference x h n = Some (err, restored x).
Proof.
  intros Hx Hn. rewrite difference_unfold by assumption.
  unfold spec_difference.
  destruct (f_defined (perturbed x h) n) as [a Ha];
    [unfold perturbed; rewrite length_insert; exact Hn|].
  destruct (f_defined (restored x) n) as [b Hb];
    [unfold restored; rewrite length_insert; exact Hn|].
  rewrite Ha, Hb. cbn [mbind option_bind]. eauto.
Qed.

Lemma sizes_position (n : N) (i : Z) : In (n, i) sizes -> 0 <= i <= 4.
Proof. intros Hin. each_size Hin; lia. Qed.

(** [n *= 10] moves to the next size while [n < N]. *)
Lemma sizes_next (n : N) (i : Z) :
  In (n, i) sizes -> (n <? N_x)%N = true ->
  In (wrap32 (n * 10), i + 1) sizes.
Proof.
  intros Hin Hn. each_size Hin; try discriminate Hn;
    unfold sizes; cbn [In]; vm_compute; tauto.
Qed.

Lemma rank_length (r : Z) (x' : list spec_float) (k' : spec_float)
    (pc' : pc) :
  rank r (State x' k' pc') -> rank r (State (restored x') k' pc').
Proof.
  intros (Hlen & H). split; [|exact H].
  unfold restored. cbn [x] in *. rewrite length_insert. exact Hlen.
Qed.

(** Every step from a ranked state other than [finish] leads to a state
    of smaller rank. *)
Lemma step_decreases (r : Z) (s : state) :
  rank r s -> at_pc s <> Finish ->
  exists out s' r',
    step Exp2.pow s = Next out s' /\ rank r' s' /\ 0 <= r' < r.
Proof.
  intros (Hlen & j & Hk & Hj & Hpc) Hnot. unfold step.
  destruct (at_pc s) as [|h n|] eqn:Eat; [| |congruence].
  - subst r. rewrite Hk.
    destruct (Fp.eqb _ Fp.zero) eqn:Eh.
    + eexists _, _, 0. split; [reflexivity|]. split; [|lia].
      split; [exact Hlen|]. exists j. cbn [k at_pc]. auto.
    + assert (j <> 324).
      { intros ->. rewrite pow_underflows in Eh. discriminate. }
      eexists _, _, (6 * (324 - j)).
      split; [reflexivity|]. split; [|lia].
      split; [exact Hlen|]. exists j. cbn [k at_pc].
      repeat split; try lia; auto.
      exists 0. split; [left; reflexivity|lia].
  - destruct Hpc as (Hj' & i & Hin & ->).
    pose proof (sizes_position n i Hin) as Hi.
    assert (Hnext : rank (6 * (324 - (j + 1)) + 1)
              (State (x s) (Fp.add T (k s) (Fp.one T)) Outer)).
    { split; [exact Hlen|].
      exists (j + 1). cbn [k at_pc]. rewrite Hk, k_increment by lia.
      repeat split; lia. }
    destruct (n <? N_x)%N eqn:En.
    + assert (Hn : (N.to_nat n <= length (x s))%nat).
      { apply N.ltb_lt in En. rewrite Hlen. lia. }
      destruct (difference_defined (x s) h n) as [err Hd];
        [rewrite Hlen; change (N.to_nat N_x) with 1024%nat; lia | exact Hn |].
      rewrite Hd. destruct (Fp.eqb err Fp.zero).
      * destruct (n =? 1)%N.
        -- eexists _, _, 0. split; [reflexivity|]. split; [|lia].
           apply rank_length. split; [exact Hlen|].
           exists j. cbn [k at_pc]. auto.
        -- eexists _, _, _. split; [reflexivity|].
           split; [apply rank_length; exact Hnext|lia].
      * eexists _, _, (6 * (324 - j) - (i + 1)).
        split; [reflexivity|]. split; [|lia].
        apply rank_length. split; [exact Hlen|].
        exists j. cbn [k at_pc]. repeat split; try lia; auto.
        exists (i + 1). split; [apply sizes_next; assumption|lia].
    + eexists _, _, _. split; [reflexivity|]. split; [exact Hnext|lia].
Qed.

(** With fuel for its rank, the run halts, in a ranked state. *)
Lemma run_halts (fuel : nat) :
  forall (r : Z) (s : state) (out : list event),
    rank r s -> r <= Z.of_nat fuel ->
    exists out' s' r',
      run Exp2.pow fuel s out = Halted out' s'
      /\ at_pc s' = Finish /\ rank r' s'.
Proof.
  induction fuel as [|fuel IH]; intros r s out Hrank Hr.
  - destruct (at_pc s) eqn:Eat.
    + destruct Hrank as (_ & j & _ & Hj & Hpc). rewrite Eat in Hpc. lia.
    + destruct Hrank as (_ & j & _ & Hj & Hpc). rewrite Eat in Hpc.
      destruct Hpc as (Hj' & i & Hin & ->).
      pose proof (sizes_position n i Hin). lia.
    + exists out, s, r. cbn [run]. rewrite Eat. auto.
  - destruct (at_pc s) eqn:Eat.
    1,2: destruct (step_decreases r s Hrank)
           as (o & s' & r' & Hstep & Hrank' & Hr');
      [congruence|];
      cbn [run]; rewrite Eat, Hstep; apply (IH r'); [exact Hrank'|lia].
    exists out, s, r. cbn [run]. rewrite Eat. auto.
Qed.

(** C3. The outer loop starts at [k = 0], and a step at its head with
    [h = pow (10, -k)] equal to zero prints the underflow message and
    goes to [finish], where the program returns.  [pow (10, -324)] is
    zero in double precision, and [k] counts up by one, so whatever the
    buffer holds the scan reaches [finish] after at most 1945 steps, with
    [k] an integer of [0 .. 324], below the bound 400. *)
Theorem scan_halts (x0 : list spec_float) :
  length x0 = N.to_nat N_x ->
  (forall xs k0,
      Fp.eqb (Exp2.pow (Fp.of_Z T 10) (Fp.opp k0)) Fp.zero = true ->
      step Exp2.pow (State xs k0 Outer)
      = Next [Underflow_h k0] (State xs k0 Finish)
      /\ forall fuel out,
           run Exp2.pow fuel (State xs k0 Finish) out
           = Halted out (State xs k0 Finish))
  /\ Fp.eqb (Exp2.pow (Fp.of_Z T 10) (Fp.opp (Fp.of_Z T 324))) Fp.zero = true
  /\ (exists out s j,
        run Exp2.pow 1945 (State x0 Fp.zero Outer) [] = Halted out s
        /\ at_pc s = Finish /\ k s = Fp.of_Z T j /\ 0 <= j <= 324 /\ j <= 400)
  /\ (exists out s j,
        main Exp2.pow x0 1945 = Halted out s
        /\ at_pc s = Finish /\ k s = Fp.of_Z T j /\ 0 <= j <= 324 /\ j <= 400).
Proof.
  intros Hlen.
  assert (Hrun : forall xs, length xs = N.to_nat N_x ->
            exists out s j,
              run Exp2.pow 1945 (State xs Fp.zero Outer) [] = Halted out s
              /\ at_pc s = Finish /\ k s = Fp.of_Z T j
              /\ 0 <= j <= 324 /\ j <= 400).
  { intros xs Hxs.
    destruct (run_halts 1945 (6 * (324 - 0) + 1) (State xs Fp.zero Outer) [])
      as (out & s & r & Hrun & Hfin & _ & j & Hk & Hj & _).
    - split; [exact Hxs|]. exists 0. cbn [k at_pc].
      split; [reflexivity|]. split; [lia|reflexivity].
    - reflexivity.
    - exists out, s, j. repeat split; try assumption; lia. }
  split; [|split; [exact pow_underflows|split; [apply Hrun; exact Hlen|]]].
  - intros xs k0 Hzero. split.
    + unfold step. cbn [at_pc k x]. rewrite Hzero. reflexivity.
    + intros [|fuel] out; reflexivity.
  - unfold main.
    destruct (init_data_loop_defined (N.to_nat N_x) x0 0 gamma) as [xi Hxi];
      [lia|].
    unfold init_data. rewrite Hxi. apply Hrun.
    apply init_data_loop_Some in Hxi as (Hl & _). rewrite Hl. exact Hlen.
Qed.

(** The scan from the buffer as it is declared. *)
Lemma scan_halts_witness :
  (forall xs k0,
      Fp.eqb (Exp2.pow (Fp.of_Z T 10) (Fp.opp k0)) Fp.zero = true ->
      step Exp2.pow (State xs k0 Outer)
      = Next [Underflow_h k0] (State xs k0 Finish)
      /\ forall fuel out,
           run Exp2.pow fuel (State xs k0 Finish) out
           = Halted out (State xs k0 Finish))
  /\ Fp.eqb (Exp2.pow (Fp.of_Z T 10) (Fp.opp (Fp.of_Z T 324))) Fp.zero = true
  /\ (exists out s j,
        run Exp2.pow 1945 (State x_declared Fp.zero Outer) [] = Halted out s
        /\ at_pc s = Finish /\ k s = Fp.of_Z T j /\ 0 <= j <= 324 /\ j <= 400)
  /\ (exists out s j,
        main Exp2.pow x_declared 1945 = Halted out s
        /\ at_pc s = Finish /\ k s = Fp.of_Z T j /\ 0 <= j <= 324 /\ j <= 400).
Proof.
  apply (scan_halts x_declared). vm_compute. reflexivity.
Defined.

Lemma run_step (pow : spec_float -> spec_float -> spec_float)
    (fuel : nat) (s s' : state) (out o : list event) :
  at_pc s <> Finish -> step pow s = Next o s' ->
  run pow (S fuel) s out = run pow fuel s' (out ++ o).
Proof.
  intros Hpc Hstep. cbn [run]. rewrite Hstep.
  destruct (at_pc s); [reflexivity | reflexivity | congruence].
Qed.

(** What has been printed stays printed. *)
Lemma run_extends (pow : spec_float -> spec_float -> spec_float)
    (fuel : nat) :
  forall (s : state) (out : list event),
    exists more, printed (run pow fuel s out) = out ++ more.
Proof.
  induction fuel as [|fuel IH]; intros s out; cbn [run].
  - exists []. rewrite app_nil_r. destruct (at_pc s); reflexivity.
  - destruct (at_pc s);
      try (destruct (step pow s) as [o s'|];
           [destruct (IH s' (out ++ o)) as [more ->];
            exists (o ++ more); rewrite app_assoc; reflexivity
           |exists []; rewrite app_nil_r; reflexivity]).
    exists []. rewrite app_nil_r. reflexivity.
Qed.

(** The first two steps of [main]: the head of the outer loop at [k = 0],
    and the pair [(0, 1)]. *)
Lemma main_first_steps (fuel : nat) :
  main Exp2.pow x_declared (2 + fuel)
  = run Exp2.pow fuel (State x_initial Fp.zero (Inner (Fp.of_Z T 1) 10))
      [Err_line Fp.zero 1 (S754_finite false 4503599627370498 (-52))].
Proof.
  unfold main. rewrite x_initial_eq.
  change (2 + fuel)%nat with (S (S fuel)).
  rewrite (run_step Exp2.pow (S fuel) (State x_initial Fp.zero Outer)
             (State x_initial Fp.zero (Inner (Fp.of_Z T 1) 1)) [] []);
    [|discriminate|vm_compute; reflexivity].
  rewrite (run_step Exp2.pow fuel
             (State x_initial Fp.zero (Inner (Fp.of_Z T 1) 1))
             (State x_initial Fp.zero (Inner (Fp.of_Z T 1) 10)) ([] ++ [])
             [Err_line Fp.zero 1 (S754_finite false 4503599627370498 (-52))]);
    [reflexivity|discriminate|vm_compute; reflexivity].
Qed.

Lemma main_first_event (fuel : nat) :
  hd_error (printed (main Exp2.pow x_declared (2 + fuel)))
  = Some (Err_line Fp.zero 1 (S754_finite false 4503599627370498 (-52))).
Proof.
  rewrite main_first_steps.
  destruct (run_extends Exp2.pow fuel
              (State x_initial Fp.zero (Inner (Fp.of_Z T 1) 10))
              [Err_line Fp.zero 1 (S754_finite false 4503599627370498 (-52))])
    as [more ->].
  reflexivity.
Qed.

(** The run of the program: it stops at [k = 16], where the difference
    for [n = 1] has become zero, long before [h] does. *)
Lemma main_stops_at_16 :
  let o := main Exp2.pow x_declared 1945 in
  (final_state o, last (printed o))
  = (Some (State x_initial (Fp.of_Z T 16) Finish),
     Some (Underflow_diff (Fp.of_Z T 16) 1)).
Proof. vm_compute. reflexivity. Qed.

(** C4, as stated, fails: at the first pair [(k, n) = (0, 1)] the
    quotient computed in double precision is not [3.0] and the printed
    quantity is not [1.0]; both are one unit in the last place of [1.0]
    above. *)
Lemma first_quotient_is_not_three :
  let h := Exp2.pow (Fp.of_Z T 10) (Fp.opp Fp.zero) in
  exists delta,
    difference x_initial h 1 = Some (delta, x_initial)
    /\ hd_error (printed (main Exp2.pow x_declared 1945))
       = Some (Err_line Fp.zero 1
                 (Fp.sub T (Fp.div T delta h) (Fp.of_Z T 2)))
    /\ Fp.eqb (Fp.div T delta h) (Fp.of_Z T 3) = false
    /\ Fp.eqb (Fp.sub T (Fp.div T delta h) (Fp.of_Z T 2)) (Fp.of_Z T 1)
       = false.
Proof.
  exists (S754_finite false 6755399441055745 (-51)).
  split; [vm_compute; reflexivity|].
  split; [|split; vm_compute; reflexivity].
  change 1945%nat with (2 + 1943)%nat. rewrite main_first_event.
  vm_compute. reflexivity.
Qed.

(** C4, as amended.  With [gamma = 100], at the first pair [k = 0]
    ([h = 1]), [n = 1], the computed quotient is [3 + 2^-51], its
    deviation from [2.0] is [1 + 2^-51], and the first line printed, by a
    run of any length that gets as far, is exactly
    [k: 0 n: 1 err 1.000000]. *)
Theorem first_line (fuel : nat) :
  let h := Exp2.pow (Fp.of_Z T 10) (Fp.opp Fp.zero) in
  h = Fp.of_Z T 1
  /\ exists delta err,
       difference x_initial h 1 = Some (delta, x_initial)
       /\ Fp.exact (Fp.div T delta h) = Some (3 * 2 ^ 51 + 1, 51)
       /\ err = Fp.sub T (Fp.div T delta h) (Fp.of_Z T 2)
       /\ Fp.exact err = Some (2 ^ 52 + 2, 52)
       /\ hd_error (printed (main Exp2.pow x_declared (2 + fuel)))
          = Some (Err_line Fp.zero 1 err)
       /\ hd_error (map render (printed (main Exp2.pow x_declared (2 + fuel))))
          = Some ("k: 0 n: 1 err 1.000000" ++ Stdio.newline)%string.
Proof.
  split; [vm_compute; reflexivity|].
  exists (S754_finite false 6755399441055745 (-51)),
         (S754_finite false 4503599627370498 (-52)).
  split; [vm_compute; reflexivity|].
  split; [vm_compute; reflexivity|].
  split; [vm_compute; reflexivity|].
  split; [vm_compute; reflexivity|].
  pose proof (main_first_event fuel) as Hev.
  split; [exact Hev|].
  destruct (printed (main Exp2.pow x_declared (2 + fuel))) as [|ev out];
    [discriminate|].
  injection Hev as ->. vm_compute. reflexivity.
Qed.

(** The values of [f] on every prefix. *)
(** The buffer of the scan is the prescaling of [1, 2, ..., 1024]. *)
Lemma prescale_integers : prescale gamma integers = x_initial.
Proof. vm_compute. reflexivity. Qed.

(** C6, as stated, fails: with [gamma = 2^600], which is not zero, and
    the vector [[1.0]], the square of [x/gamma] underflows to zero and
    [gamma*gamma] overflows, so the rescaled norm is NaN, while [f (x)]
    is [1.0]; no rounding tolerance relates the two. *)
Lemma rescaling_fails_for_large_gamma :
  let big := Fp.of_Z T (2 ^ 600) in
  Fp.eqb big Fp.zero = false
  /\ rescaled_norm big [Fp.one T] 1 = Some S754_nan
  /\ f [Fp.one T] 1 = Some (Fp.one T)
  /\ forall c bits, ~ Val.within c bits S754_nan (Fp.one T).
Proof.
  split; [vm_compute; reflexivity|].
  split; [vm_compute; reflexivity|].
  split; [vm_compute; reflexivity|].
  intros c bits [H _]. discriminate H.
Qed.

End Exp2Facts.

(** ** The rescaling identity, up to rounding *)

Module ValFacts.
Import FpFacts Val.

Lemma pow2_pos (e : Z) : (0 < pow2 e)%Q.
Proof. unfold pow2. apply Qpower_0_lt. reflexivity. Qed.

Lemma pow2_add (a b : Z) : (pow2 (a + b) == pow2 a * pow2 b)%Q.
Proof. unfold pow2. apply Qpower_plus. discriminate. Qed.

Lemma pow2_inject (k : Z) : 0 <= k -> (pow2 k == inject_Z (2 ^ k))%Q.
Proof.
  intros Hk. unfold pow2. rewrite Zpower_Qpower by exact Hk. reflexivity.
Qed.

Lemma pow2_0 : (pow2 0 == 1)%Q.
Proof. reflexivity. Qed.

Lemma pow2_ge_1 (k : Z) : 0 <= k -> (1 <= pow2 k)%Q.
Proof.
  intros Hk. rewrite pow2_inject by exact Hk.
  change 1%Q with (inject_Z 1). rewrite <- Zle_Qle.
  pose proof (Z.pow_pos_nonneg 2 k ltac:(lia) Hk). lia.
Qed.

Lemma pow2_le (a b : Z) : a <= b -> (pow2 a <= pow2 b)%Q.
Proof.
  intros Hab. replace b with (a + (b - a)) by lia. rewrite pow2_add.
  pose proof (pow2_pos a). pose proof (pow2_ge_1 (b - a) ltac:(lia)).
  nra.
Qed.

Lemma pow2_lt (a b : Z) : a < b -> (pow2 a < pow2 b)%Q.
Proof.
  intros Hab. replace b with (a + 1 + (b - a - 1)) by lia.
  rewrite !pow2_add.
  pose proof (pow2_pos a). pose proof (pow2_ge_1 (b - a - 1) ltac:(lia)).
  change (pow2 1) with 2%Q. nra.
Qed.

Lemma pow2_lt_inv (a b : Z) : (pow2 a < pow2 b)%Q -> a < b.
Proof.
  intros H. destruct (Z_lt_le_dec a b) as [|Hle]; [assumption|].
  apply pow2_le in Hle. lra.
Qed.

Lemma pow2_le_lt_inv (a b : Z) (v : Q) :
  (pow2 a <= v)%Q -> (v < pow2 b)%Q -> a < b.
Proof. intros H1 H2. apply pow2_lt_inv. lra. Qed.

Lemma shr_1_m (mrs : shr_record) :
  0 <= shr_m mrs -> shr_m (shr_1 mrs) = shr_m mrs / 2.
Proof.
  destruct mrs as [m r t]. cbn [shr_m]. intros Hm.
  rewrite <- Z.div2_div.
  destruct m as [|[p|p|]|p]; try reflexivity. lia.
Qed.

Lemma shr_m_iter (k : nat) (mrs : shr_record) :
  0 <= shr_m mrs ->
  shr_m (Nat.iter k shr_1 mrs) = shr_m mrs / 2 ^ Z.of_nat k.
Proof.
  intros Hm. induction k as [|k IH].
  - change (Nat.iter 0 shr_1 mrs) with mrs.
    change (2 ^ Z.of_nat 0) with 1. rewrite Z.div_1_r. reflexivity.
  - rewrite Nat.iter_succ. rewrite shr_1_m.
    + rewrite IH, Z.div_div by lia.
      rewrite Nat2Z.inj_succ, Z.pow_succ_r by lia.
      rewrite (Z.mul_comm 2). reflexivity.
    + rewrite IH. apply Z.div_pos; lia.
Qed.

Lemma shr_floor (mrs : shr_record) (e n : Z) :
  0 <= shr_m mrs -> 0 <= n ->
  snd (shr mrs e n) = e + n
  /\ shr_m (fst (shr mrs e n)) = shr_m mrs / 2 ^ n.
Proof.
  intros Hm Hn. destruct n as [|p|p]; [| |lia].
  - cbn [shr fst snd]. rewrite Z.add_0_r, Z.div_1_r. auto.
  - cbn [shr fst snd]. split; [reflexivity|].
    rewrite iter_pos_nat, shr_m_iter by exact Hm.
    rewrite positive_nat_Z. reflexivity.
Qed.

Lemma shr_m_of_loc (m : Z) (l : location) :
  shr_m (shr_record_of_loc m l) = m.
Proof. destruct l as [|[]]; reflexivity. Qed.

Lemma round_nearest_even_range (m : Z) (l : location) :
  m <= round_nearest_even m l <= m + 1.
Proof.
  destruct l as [|[]]; cbn [round_nearest_even]; try lia.
  destruct (Z.even m); lia.
Qed.

Lemma Zdigits2_bounds (m : Z) :
  0 < m -> 2 ^ (Zdigits2 m - 1) <= m < 2 ^ Zdigits2 m.
Proof.
  destruct m as [|p|p]; try lia. intros _. apply digits2_pos_bounds.
Qed.

Lemma Zdigits2_unique (m d : Z) :
  2 ^ (d - 1) <= m < 2 ^ d -> 0 < m -> Zdigits2 m = d.
Proof.
  destruct m as [|p|p]; try lia. intros H _.
  apply digits2_pos_unique. exact H.
Qed.

Section Round.
Variables prec emax : Z.
Hypothesis Hprec : 1 < prec.

Lemma shr_fexp_floor (m e : Z) (l : location) :
  0 < m -> prec <= Zdigits2 m ->
  emin prec emax <= Zdigits2 m + e - prec ->
  snd (shr_fexp prec emax m e l) = Zdigits2 m + e - prec
  /\ shr_m (fst (shr_fexp prec emax m e l)) = m / 2 ^ (Zdigits2 m - prec).
Proof.
  intros Hm Hd He. unfold shr_fexp.
  assert (Hf : fexp prec emax (Zdigits2 m + e) - e = Zdigits2 m - prec)
    by (unfold fexp; lia).
  rewrite Hf.
  destruct (shr_floor (shr_record_of_loc m l) e (Zdigits2 m - prec))
    as [H1 H2]; [rewrite shr_m_of_loc; lia | lia |].
  rewrite H1, H2, shr_m_of_loc. split; [lia|reflexivity].
Qed.

(** Rounding in the normal range is faithful: the result is a normal
    number, the truncation of the mantissa or its successor. *)
Lemma binary_round_aux_faithful (s : bool) (mx ex : Z) (lx : location) :
  0 < mx -> prec <= Zdigits2 mx ->
  emin prec emax <= Zdigits2 mx + ex - prec ->
  Zdigits2 mx + ex < emax ->
  exists (m : positive) (e : Z),
    binary_round_aux prec emax s mx ex lx = S754_finite s m e
    /\ Zpos (digits2_pos m) = prec
    /\ Zdigits2 mx + ex - prec <= e <= emax - prec
    /\ let e' := Zdigits2 mx + ex - prec in
       let t := mx / 2 ^ (Zdigits2 mx - prec) in
       2 ^ (prec - 1) <= t
       /\ t * 2 ^ (Zdigits2 mx - prec) <= mx
          < (t + 1) * 2 ^ (Zdigits2 mx - prec)
       /\ t <= Zpos m * 2 ^ (e - e') <= t + 1.
Proof.
  intros Hmx Hd Hlo Hhi.
  set (d := Zdigits2 mx) in *. set (n := d - prec).
  set (t := mx / 2 ^ n). set (e' := d + ex - prec).
  assert (Hn : 0 <= n) by (unfold n; lia).
  assert (Hpn : 0 < 2 ^ n) by (apply Z.pow_pos_nonneg; lia).
  pose proof (Zdigits2_bounds mx Hmx) as Hb. fold d in Hb.
  assert (Ht : 2 ^ (prec - 1) <= t < 2 ^ prec).
  { unfold t. split.
    - apply Z.div_le_lower_bound; [exact Hpn|].
      rewrite <- Z.pow_add_r by lia.
      replace (n + (prec - 1)) with (d - 1) by (unfold n; lia). lia.
    - apply Z.div_lt_upper_bound; [exact Hpn|].
      rewrite <- Z.pow_add_r by lia.
      replace (n + prec) with d by (unfold n; lia). lia. }
  assert (Htm : t * 2 ^ n <= mx < (t + 1) * 2 ^ n).
  { unfold t. pose proof (Z.div_mod mx (2 ^ n) ltac:(lia)) as Hdm.
    pose proof (Z.mod_pos_bound mx (2 ^ n) Hpn). nia. }
  unfold binary_round_aux.
  destruct (shr_fexp_floor mx ex lx Hmx Hd Hlo) as [He1 Hm1].
  fold d in He1, Hm1. fold n in Hm1. fold t in Hm1. fold e' in He1.
  destruct (shr_fexp prec emax mx ex lx) as [mrs1 e1].
  cbn [fst snd] in He1, Hm1. subst e1. rewrite Hm1.
  set (m1 := round_nearest_even t (loc_of_shr_record mrs1)).
  pose proof (round_nearest_even_range t (loc_of_shr_record mrs1)) as Hr.
  fold m1 in Hr.
  assert (Hm1pos : 0 < m1).
  { pose proof (Z.pow_pos_nonneg 2 (prec - 1) ltac:(lia) ltac:(lia)). lia. }
  assert (Hd1 : (m1 < 2 ^ prec /\ Zdigits2 m1 = prec)
                \/ (m1 = 2 ^ prec /\ Zdigits2 m1 = prec + 1)).
  { destruct (Z_lt_le_dec m1 (2 ^ prec)) as [Hlt|Hge].
    - left. split; [exact Hlt|]. apply Zdigits2_unique; lia.
    - right. assert (m1 = 2 ^ prec) by lia. split; [assumption|].
      apply Zdigits2_unique; [|lia].
      replace (prec + 1 - 1) with prec by lia.
      rewrite Z.pow_add_r by lia. lia. }
  destruct (shr_fexp_floor m1 e' loc_Exact Hm1pos) as [He2 Hm2];
    [destruct Hd1 as [[_ ->]|[_ ->]]; lia
    |destruct Hd1 as [[_ ->]|[_ ->]]; unfold e'; lia|].
  destruct (shr_fexp prec emax m1 e' loc_Exact) as [mrs2 e2].
  cbn [fst snd] in He2, Hm2. subst e2. rewrite Hm2.
  destruct Hd1 as [[Hlt Hd1]|[Heq Hd1]]; rewrite Hd1.
  - replace (prec - prec) with 0 by lia.
    change (2 ^ 0) with 1. rewrite Z.div_1_r.
    destruct m1 as [|m|m]; try lia.
    replace (prec + e' - prec) with e' by lia.
    replace (e' <=? emax - prec) with true
      by (symmetry; apply Z.leb_le; unfold e'; lia).
    exists m, e'. split; [reflexivity|].
    split; [exact Hd1|]. split; [unfold e'; lia|].
    cbv zeta. fold d. fold n. fold t. fold e'.
    split; [lia|]. split; [exact Htm|].
    replace (e' - e') with 0 by lia. change (2 ^ 0) with 1. lia.
  - replace (prec + 1 - prec) with 1 by lia. rewrite Heq.
    change (2 ^ 1) with 2.
    assert (Hhalf : 2 ^ prec / 2 = 2 ^ (prec - 1)).
    { replace prec with (prec - 1 + 1) at 1 by lia.
      rewrite Z.pow_add_r by lia. change (2 ^ 1) with 2.
      apply Z.div_mul. lia. }
    rewrite Hhalf.
    pose proof (Z.pow_pos_nonneg 2 (prec - 1) ltac:(lia) ltac:(lia)) as Hp.
    destruct (2 ^ (prec - 1)) as [|m|m] eqn:Em; try lia.
    replace (prec + 1 + e' - prec) with (e' + 1) by lia.
    replace (e' + 1 <=? emax - prec) with true
      by (symmetry; apply Z.leb_le; unfold e'; lia).
    exists m, (e' + 1). split; [reflexivity|].
    split.
    { apply digits2_pos_unique. rewrite <- Em.
      split; [lia|]. apply Z.pow_lt_mono_r; lia. }
    split; [unfold e'; lia|].
    cbv zeta. fold d. fold n. fold t. fold e'.
    split; [lia|]. split; [exact Htm|].
    replace (e' + 1 - e') with 1 by lia. change (2 ^ 1) with 2.
    assert (2 ^ prec = 2 * 2 ^ (prec - 1)).
    { replace prec with (prec - 1 + 1) at 1 by lia.
      rewrite Z.pow_add_r by lia. change (2 ^ 1) with 2. lia. }
    lia.
Qed.
(** In terms of the number [v] that is rounded: within the normal range
    the result is a normal number at most [2^(1-prec) v] from [v]. *)
Lemma binary_round_aux_value (s : bool) (mx ex : Z) (lx : location)
    (v : Q) :
  0 < mx -> prec <= Zdigits2 mx ->
  (inject_Z mx * pow2 ex <= v)%Q ->
  (v < inject_Z (mx + 1) * pow2 ex)%Q ->
  (pow2 (emin prec emax + prec - 1) <= v)%Q ->
  (v < pow2 (emax - 1))%Q ->
  exists (m : positive) (e : Z),
    binary_round_aux prec emax s mx ex lx = S754_finite s m e
    /\ Zpos (digits2_pos m) = prec
    /\ emin prec emax <= e <= emax - prec
    /\ (Qabs (inject_Z (Zpos m) * pow2 e - v) <= pow2 (1 - prec) * v)%Q.
Proof.
  intros Hmx Hd Hlo Hhi Hmin Hmax.
  pose proof (Zdigits2_bounds mx Hmx) as Hb.
  set (d := Zdigits2 mx) in *.
  pose proof (pow2_pos ex) as Hpex.
  assert (H1 : (pow2 (d - 1 + ex) <= inject_Z mx * pow2 ex)%Q).
  { rewrite pow2_add, (pow2_inject (d - 1)) by lia.
    assert (inject_Z (2 ^ (d - 1)) <= inject_Z mx)%Q
      by (rewrite <- Zle_Qle; lia).
    nra. }
  assert (H2 : (inject_Z (mx + 1) * pow2 ex <= pow2 (d + ex))%Q).
  { rewrite pow2_add, (pow2_inject d) by lia.
    assert (inject_Z (mx + 1) <= inject_Z (2 ^ d))%Q
      by (rewrite <- Zle_Qle; lia).
    nra. }
  assert (Hup : d + ex < emax).
  { assert (d - 1 + ex < emax - 1); [|lia].
    apply (pow2_le_lt_inv _ _ v); lra. }
  assert (Hdn : emin prec emax <= d + ex - prec).
  { assert (emin prec emax + prec - 1 < d + ex); [|lia].
    apply (pow2_le_lt_inv _ _ v); lra. }
  destruct (binary_round_aux_faithful s mx ex lx Hmx Hd Hdn Hup)
    as (m & e & Hr & Hdm & He & Ht & Htm & Hme).
  fold d in He, Ht, Htm, Hme.
  set (n := d - prec) in *. set (e' := d + ex - prec) in *.
  set (t := mx / 2 ^ n) in *.
  exists m, e. split; [exact Hr|]. split; [exact Hdm|].
  split; [lia|].
  pose proof (pow2_pos e') as Hpe'.
  assert (Ee' : (pow2 e' == pow2 n * pow2 ex)%Q)
    by (rewrite <- pow2_add; unfold e', n;
        replace (d - prec + ex) with (d + ex - prec) by lia; reflexivity).
  assert (Hn : (pow2 n == inject_Z (2 ^ n))%Q)
    by (apply pow2_inject; unfold n; lia).
  assert (A1 : (inject_Z t * pow2 e' <= v)%Q).
  { assert (inject_Z (t * 2 ^ n) <= inject_Z mx)%Q
      by (rewrite <- Zle_Qle; lia).
    rewrite inject_Z_mult, <- Hn in H. rewrite Ee'. nra. }
  assert (A2 : (v <= inject_Z (t + 1) * pow2 e')%Q).
  { assert (inject_Z (mx + 1) <= inject_Z ((t + 1) * 2 ^ n))%Q
      by (rewrite <- Zle_Qle; lia).
    rewrite inject_Z_mult, <- Hn in H. rewrite Ee'. nra. }
  assert (Em : (inject_Z (Zpos m) * pow2 e
                == inject_Z (Zpos m * 2 ^ (e - e')) * pow2 e')%Q).
  { rewrite inject_Z_mult, <- pow2_inject by lia.
    rewrite <- Qmult_assoc, <- pow2_add.
    replace (e - e' + e') with e by lia. reflexivity. }
  assert (A3 : (inject_Z t * pow2 e' <= inject_Z (Zpos m) * pow2 e)%Q).
  { rewrite Em.
    assert (inject_Z t <= inject_Z (Zpos m * 2 ^ (e - e')))%Q
      by (rewrite <- Zle_Qle; lia).
    nra. }
  assert (A4 : (inject_Z (Zpos m) * pow2 e <= inject_Z (t + 1) * pow2 e')%Q).
  { rewrite Em.
    assert (inject_Z (Zpos m * 2 ^ (e - e')) <= inject_Z (t + 1))%Q
      by (rewrite <- Zle_Qle; lia).
    nra. }
  assert (A5 : (pow2 e' <= pow2 (1 - prec) * (inject_Z t * pow2 e'))%Q).
  { assert (inject_Z (2 ^ (prec - 1)) <= inject_Z t)%Q
      by (rewrite <- Zle_Qle; lia).
    rewrite <- pow2_inject in H by lia.
    assert (E : (pow2 (1 - prec) * pow2 (prec - 1) == 1)%Q).
    { rewrite <- pow2_add. replace (1 - prec + (prec - 1)) with 0 by lia.
      reflexivity. }
    pose proof (pow2_pos (1 - prec)).
    assert (1 <= pow2 (1 - prec) * inject_Z t)%Q by nra.
    rewrite Qmult_assoc. nra. }
  rewrite inject_Z_plus in A2, A4.
  change (inject_Z 1) with 1%Q in A2, A4.
  pose proof (pow2_pos (1 - prec)) as Hu.
  apply Qabs_Qle_condition. split; nra.
Qed.
End Round.

End ValFacts.

Module OpFacts.
Import FpFacts Val ValFacts.

Lemma Zdigits2_ge (m k : Z) : 0 < m -> 2 ^ (k - 1) <= m -> k <= Zdigits2 m.
Proof.
  intros Hm Hk. pose proof (Zdigits2_bounds m Hm) as [_ Hb].
  destruct (Z_lt_le_dec (Zdigits2 m) k) as [Hlt|]; [|assumption].
  assert (2 ^ Zdigits2 m <= 2 ^ (k - 1))
    by (apply Z.pow_le_mono_r; lia).
  lia.
Qed.

Lemma abs_value (s : bool) (m : positive) (e : Z) :
  (Qabs (value (S754_finite s m e)) == inject_Z (Zpos m) * pow2 e)%Q.
Proof.
  unfold value. rewrite Qabs_Qmult.
  rewrite (Qabs_pos (pow2 e)) by (apply Qlt_le_weak, pow2_pos).
  destruct s; cbn [cond_Zopp]; reflexivity.
Qed.

Lemma value_positive (m : positive) (e : Z) :
  (value (S754_finite false m e) == inject_Z (Zpos m) * pow2 e)%Q.
Proof. reflexivity. Qed.

(** A normal mantissa with exponent [e] holds a number of
    [[2^(prec-1+e), 2^(prec+e))]. *)
Lemma normal_bounds (prec : Z) (m : positive) (e : Z) :
  1 < prec -> Zpos (digits2_pos m) = prec ->
  (pow2 (prec - 1 + e) <= inject_Z (Zpos m) * pow2 e)%Q
  /\ (inject_Z (Zpos m) * pow2 e < pow2 (prec + e))%Q.
Proof.
  intros Hprec Hd. pose proof (digits2_pos_bounds m) as Hb.
  rewrite Hd in Hb. pose proof (pow2_pos e).
  rewrite !pow2_add, (pow2_inject (prec - 1)), (pow2_inject prec) by lia.
  assert (inject_Z (2 ^ (prec - 1)) <= inject_Z (Zpos m))%Q
    by (rewrite <- Zle_Qle; lia).
  assert (inject_Z (Zpos m) < inject_Z (2 ^ prec))%Q
    by (rewrite <- Zlt_Qlt; lia).
  split; nra.
Qed.

Section Ops.
Variables prec emax : Z.
Hypothesis Hprec : 1 < prec.

Local Abbreviation u := (pow2 (1 - prec)).

Lemma mul_value (sa sb : bool) (ma mb : positive) (ea eb : Z) :
  Zpos (digits2_pos ma) = prec -> Zpos (digits2_pos mb) = prec ->
  let v := ((inject_Z (Zpos ma) * pow2 ea)
            * (inject_Z (Zpos mb) * pow2 eb))%Q in
  (pow2 (emin prec emax + prec - 1) <= v)%Q ->
  (v < pow2 (emax - 1))%Q ->
  exists (m : positive) (e : Z),
    SFmul prec emax (S754_finite sa ma ea) (S754_finite sb mb eb)
    = S754_finite (xorb sa sb) m e
    /\ Zpos (digits2_pos m) = prec
    /\ emin prec emax <= e <= emax - prec
    /\ (Qabs (inject_Z (Zpos m) * pow2 e - v) <= u * v)%Q.
Proof.
  intros Ha Hb v Hlo Hhi. cbn [SFmul].
  assert (Ev : (inject_Z (Zpos (ma * mb)) * pow2 (ea + eb) == v)%Q).
  { unfold v. rewrite Pos2Z.inj_mul, inject_Z_mult, pow2_add. ring. }
  apply (binary_round_aux_value prec emax Hprec
           (xorb sa sb) (Zpos (ma * mb)) (ea + eb) loc_Exact v).
  - lia.
  - apply Zdigits2_ge; [lia|].
    pose proof (digits2_pos_bounds ma) as Ba.
    pose proof (digits2_pos_bounds mb) as Bb.
    rewrite Ha in Ba. rewrite Hb in Bb.
    pose proof (Z.pow_pos_nonneg 2 (prec - 1) ltac:(lia) ltac:(lia)).
    rewrite Pos2Z.inj_mul. nia.
  - rewrite Ev. apply Qle_refl.
  - rewrite inject_Z_plus, <- Ev. change (inject_Z 1) with 1%Q.
    pose proof (pow2_pos (ea + eb)). nra.
  - exact Hlo.
  - exact Hhi.
Qed.

Lemma add_value (ma mb : positive) (ea eb : Z) :
  Zpos (digits2_pos ma) = prec -> Zpos (digits2_pos mb) = prec ->
  emin prec emax <= ea -> emin prec emax <= eb ->
  let v := (inject_Z (Zpos ma) * pow2 ea
            + inject_Z (Zpos mb) * pow2 eb)%Q in
  (v < pow2 (emax - 1))%Q ->
  exists (m : positive) (e : Z),
    SFadd prec emax (S754_finite false ma ea) (S754_finite false mb eb)
    = S754_finite false m e
    /\ Zpos (digits2_pos m) = prec
    /\ emin prec emax <= e <= emax - prec
    /\ (Qabs (inject_Z (Zpos m) * pow2 e - v) <= u * v)%Q.
Proof.
  intros Ha Hb Hea Heb v Hhi. cbn [SFadd cond_Zopp].
  set (ez := Z.min ea eb).
  rewrite (shl_align_le ma ea ez), (shl_align_le mb eb ez)
    by (unfold ez; lia).
  cbn [fst].
  assert (Pa : 0 < Zpos ma * 2 ^ (ea - ez))
    by (apply Z.mul_pos_pos; [lia|apply Z.pow_pos_nonneg; unfold ez; lia]).
  assert (Pb : 0 < Zpos mb * 2 ^ (eb - ez))
    by (apply Z.mul_pos_pos; [lia|apply Z.pow_pos_nonneg; unfold ez; lia]).
  set (pa := Z.to_pos (Zpos ma * 2 ^ (ea - ez))).
  set (pb := Z.to_pos (Zpos mb * 2 ^ (eb - ez))).
  assert (Epa : Zpos pa = Zpos ma * 2 ^ (ea - ez))
    by (unfold pa; rewrite Z2Pos.id; [reflexivity|exact Pa]).
  assert (Epb : Zpos pb = Zpos mb * 2 ^ (eb - ez))
    by (unfold pb; rewrite Z2Pos.id; [reflexivity|exact Pb]).
  change (Zpos pa + Zpos pb) with (Zpos (pa + pb)).
  cbn [binary_normalize]. unfold binary_round.
  pose proof (digits2_pos_bounds ma) as Ba. rewrite Ha in Ba.
  assert (Hge : 2 ^ (prec - 1) <= Zpos (pa + pb)).
  { rewrite Pos2Z.inj_add, Epa.
    pose proof (Z.pow_pos_nonneg 2 (ea - ez) ltac:(lia)
                  ltac:(unfold ez; lia)).
    nia. }
  assert (Hd : prec <= Zpos (digits2_pos (pa + pb)))
    by (apply (Zdigits2_ge (Zpos (pa + pb))); [lia|exact Hge]).
  rewrite shl_align_ge by (unfold fexp, ez; lia).
  assert (Ev : (inject_Z (Zpos (pa + pb)) * pow2 ez == v)%Q).
  { unfold v. rewrite Pos2Z.inj_add, inject_Z_plus, Epa, Epb.
    rewrite !inject_Z_mult, <- !pow2_inject by (unfold ez; lia).
    rewrite Qmult_plus_distr_l, <- !Qmult_assoc, <- !pow2_add.
    replace (ea - ez + ez) with ea by lia.
    replace (eb - ez + ez) with eb by lia. reflexivity. }
  apply (binary_round_aux_value prec emax Hprec
           false (Zpos (pa + pb)) ez loc_Exact v).
  - lia.
  - exact Hd.
  - rewrite Ev. apply Qle_refl.
  - rewrite inject_Z_plus, <- Ev. change (inject_Z 1) with 1%Q.
    pose proof (pow2_pos ez). nra.
  - rewrite <- Ev.
    assert (inject_Z (2 ^ (prec - 1)) <= inject_Z (Zpos (pa + pb)))%Q
      by (rewrite <- Zle_Qle; exact Hge).
    rewrite <- pow2_inject in H by lia.
    assert (pow2 (emin prec emax + prec - 1)
            <= pow2 (prec - 1) * pow2 ez)%Q.
    { rewrite <- pow2_add. apply pow2_le. unfold ez. lia. }
    pose proof (pow2_pos ez). nra.
  - exact Hhi.
Qed.

Lemma div_value (sa sb : bool) (ma mb : positive) (ea eb : Z) (v : Q) :
  Zpos (digits2_pos ma) = prec -> Zpos (digits2_pos mb) = prec ->
  (v * (inject_Z (Zpos mb) * pow2 eb) == inject_Z (Zpos ma) * pow2 ea)%Q ->
  (pow2 (emin prec emax + prec) <= v)%Q ->
  (v < pow2 (emax - 1))%Q ->
  exists (m : positive) (e : Z),
    SFdiv prec emax (S754_finite sa ma ea) (S754_finite sb mb eb)
    = S754_finite (xorb sa sb) m e
    /\ Zpos (digits2_pos m) = prec
    /\ emin prec emax <= e <= emax - prec
    /\ (Qabs (inject_Z (Zpos m) * pow2 e - v) <= u * v)%Q.
Proof.
  intros Ha Hb Ev Hlo Hhi.
  pose proof (digits2_pos_bounds ma) as Ba. rewrite Ha in Ba.
  pose proof (digits2_pos_bounds mb) as Bb. rewrite Hb in Bb.
  pose proof (Z.pow_pos_nonneg 2 (prec - 1) ltac:(lia) ltac:(lia)) as Hp1.
  assert (Hp : 2 ^ prec = 2 * 2 ^ (prec - 1)).
  { replace prec with (prec - 1 + 1) at 1 by lia.
    rewrite Z.pow_add_r by lia. change (2 ^ 1) with 2. lia. }
  pose proof (normal_bounds prec ma ea Hprec Ha) as [NaL NaU].
  pose proof (normal_bounds prec mb eb Hprec Hb) as [NbL NbU].
  pose proof (pow2_pos ea) as Pea. pose proof (pow2_pos eb) as Peb.
  set (A := (inject_Z (Zpos ma) * pow2 ea)%Q) in *.
  set (B := (inject_Z (Zpos mb) * pow2 eb)%Q) in *.
  assert (PB : (0 < B)%Q).
  { pose proof (pow2_pos (prec - 1 + eb)). lra. }
  assert (Hv0 : (0 < v)%Q).
  { pose proof (pow2_pos (emin prec emax + prec)). lra. }
  (* the exponents are in the normal range *)
  assert (Hee : emin prec emax + prec <= ea - eb).
  { assert (emin prec emax + prec < ea - eb + 1); [|lia].
    apply (pow2_le_lt_inv _ _ v); [exact Hlo|].
    assert (E : (pow2 (ea - eb + 1) * pow2 (prec - 1 + eb)
                 == pow2 (prec + ea))%Q).
    { rewrite <- pow2_add. replace (ea - eb + 1 + (prec - 1 + eb))
        with (prec + ea) by lia. reflexivity. }
    pose proof (pow2_pos (ea - eb + 1)). nra. }
  cbn [SFdiv]. unfold SFdiv_core_binary. cbn [Zdigits2].
  rewrite Ha, Hb.
  replace (Z.min (fexp prec emax (prec + ea - (prec + eb))) (ea - eb))
    with (ea - eb - prec) by (unfold fexp; lia).
  replace (ea - eb - (ea - eb - prec)) with prec by lia.
  assert (Em' : match prec with
                | 0 => Zpos ma
                | Zpos _ => Z.shiftl (Zpos ma) prec
                | Zneg _ => 0
                end = Zpos ma * 2 ^ prec).
  { destruct prec as [|p|p] eqn:Ep; try lia.
    rewrite Z.shiftl_mul_pow2 by lia. reflexivity. }
  rewrite Em'.
  pose proof (Z_div_mod (Zpos ma * 2 ^ prec) (Zpos mb) ltac:(lia)) as Hdm.
  unfold Z.div_eucl at 1 in Hdm.
  fold (Z.div_eucl (Zpos ma * 2 ^ prec) (Zpos mb)) in Hdm.
  destruct (Z.div_eucl (Zpos ma * 2 ^ prec) (Zpos mb)) as [q r].
  destruct Hdm as [Hq Hr].
  assert (Hqge : 2 ^ (prec - 1) <= q) by nia.
  set (e' := ea - eb - prec).
  assert (EA : (A == inject_Z (Zpos ma * 2 ^ prec) * pow2 (ea - prec))%Q).
  { unfold A. rewrite inject_Z_mult, <- pow2_inject by lia.
    rewrite <- Qmult_assoc, <- pow2_add.
    replace (prec + (ea - prec)) with ea by lia. reflexivity. }
  assert (EB : forall z, (inject_Z z * pow2 e' * B
                          == inject_Z (z * Zpos mb) * pow2 (ea - prec))%Q).
  { intros z. unfold B. rewrite inject_Z_mult.
    replace (ea - prec) with (e' + eb) by (unfold e'; lia).
    rewrite pow2_add. ring. }
  pose proof (pow2_pos (ea - prec)) as Pep.
  apply (binary_round_aux_value prec emax Hprec
           (xorb sa sb) q e' _ v).
  - lia.
  - apply Zdigits2_ge; [lia|exact Hqge].
  - assert (inject_Z q * pow2 e' * B <= v * B)%Q.
    { rewrite EB, Ev, EA.
      assert (inject_Z (q * Zpos mb) <= inject_Z (Zpos ma * 2 ^ prec))%Q
        by (rewrite <- Zle_Qle; nia).
      nra. }
    nra.
  - assert (v * B < inject_Z (q + 1) * pow2 e' * B)%Q.
    { rewrite EB, Ev, EA.
      assert (inject_Z (Zpos ma * 2 ^ prec) < inject_Z ((q + 1) * Zpos mb))%Q
        by (rewrite <- Zlt_Qlt; nia).
      nra. }
    nra.
  - assert (pow2 (emin prec emax + prec - 1)
            <= pow2 (emin prec emax + prec))%Q by (apply pow2_le; lia).
    lra.
  - exact Hhi.
Qed.
End Ops.

End OpFacts.

Module RelFacts.
Import Val ValFacts.

Section Rel.
Variable u : Q.
Hypothesis Hu0 : (0 <= u)%Q.
Hypothesis Hu1 : (u <= 1 # 2)%Q.

Lemma power_succ (q : Q) (k : nat) :
  (Qpower q (Z.of_nat (S k)) == q * Qpower q (Z.of_nat k))%Q.
Proof.
  rewrite Nat2Z.inj_succ. unfold Z.succ. rewrite Z.add_comm.
  rewrite Qpower_plus' by lia. rewrite Qpower_1_r. reflexivity.
Qed.

Lemma power_add (q : Q) (k j : nat) :
  (Qpower q (Z.of_nat (k + j))
   == Qpower q (Z.of_nat k) * Qpower q (Z.of_nat j))%Q.
Proof.
  induction k as [|k IH].
  - cbn [Nat.add]. change (Qpower q (Z.of_nat 0)) with 1%Q. ring.
  - change (S k + j)%nat with (S (k + j)). rewrite !power_succ, IH. ring.
Qed.

Lemma lower_bounds (k : nat) :
  (0 < Qpower (1 - u) (Z.of_nat k))%Q
  /\ (Qpower (1 - u) (Z.of_nat k) <= 1)%Q
  /\ (1 - inject_Z (Z.of_nat k) * u <= Qpower (1 - u) (Z.of_nat k))%Q.
Proof.
  induction k as [|k (IH1 & IH2 & IH3)].
  - change (Qpower (1 - u) (Z.of_nat 0)) with 1%Q.
    change (inject_Z (Z.of_nat 0)) with 0%Q. repeat split; lra.
  - rewrite power_succ, Nat2Z.inj_succ. unfold Z.succ.
    rewrite inject_Z_plus. change (inject_Z 1) with 1%Q.
    set (p := Qpower (1 - u) (Z.of_nat k)) in *.
    set (c := inject_Z (Z.of_nat k)) in *.
    assert (0 <= c)%Q
      by (unfold c; change 0%Q with (inject_Z 0); rewrite <- Zle_Qle; lia).
    repeat split; nra.
Qed.

Lemma upper_bounds (k : nat) :
  (1 <= Qpower (1 + u) (Z.of_nat k))%Q
  /\ ((inject_Z (Z.of_nat k) * u <= 1)%Q ->
      (Qpower (1 + u) (Z.of_nat k)
       <= 1 + inject_Z (Z.of_nat k) * u
          + inject_Z (Z.of_nat k) * u * (inject_Z (Z.of_nat k) * u))%Q).
Proof.
  induction k as [|k (IH1 & IH2)].
  - change (Qpower (1 + u) (Z.of_nat 0)) with 1%Q.
    change (inject_Z (Z.of_nat 0)) with 0%Q. split; [lra|intros _; lra].
  - rewrite power_succ, Nat2Z.inj_succ. unfold Z.succ.
    rewrite inject_Z_plus. change (inject_Z 1) with 1%Q.
    set (p := Qpower (1 + u) (Z.of_nat k)) in *.
    set (c := inject_Z (Z.of_nat k)) in *.
    assert (Hc : (0 <= c)%Q)
      by (unfold c; change 0%Q with (inject_Z 0); rewrite <- Zle_Qle; lia).
    split; [nra|]. intros Hk.
    assert (Hk' : (c * u <= 1)%Q) by nra.
    specialize (IH2 Hk').
    assert (H1 : ((1 + u) * p
                  <= (1 + u) * (1 + c * u + c * u * (c * u)))%Q) by nra.
    assert (H2 : (0 <= c * u)%Q) by nra.
    assert (H3 : (c * u * (c * u) <= c * u)%Q) by nra.
    assert (H4 : (c * u * (c * u) * u <= c * u * u)%Q) by nra.
    nra.
Qed.

Lemma Qmult_le_l_nonneg (a b c : Q) :
  (0 <= c)%Q -> (a <= b)%Q -> (c * a <= c * b)%Q.
Proof. intros. nra. Qed.

Lemma lower_antitone (k k' : nat) :
  (k <= k')%nat ->
  (Qpower (1 - u) (Z.of_nat k') <= Qpower (1 - u) (Z.of_nat k))%Q.
Proof.
  intros Hk. replace k' with (k + (k' - k))%nat by lia.
  rewrite power_add.
  destruct (lower_bounds k) as (A1 & _ & _).
  destruct (lower_bounds (k' - k)) as (B1 & B2 & _). nra.
Qed.

Lemma upper_monotone (k k' : nat) :
  (k <= k')%nat ->
  (Qpower (1 + u) (Z.of_nat k) <= Qpower (1 + u) (Z.of_nat k'))%Q.
Proof.
  intros Hk. replace k' with (k + (k' - k))%nat by lia.
  rewrite power_add.
  destruct (upper_bounds k) as (A1 & _).
  destruct (upper_bounds (k' - k)) as (B1 & _). nra.
Qed.

Lemma rel_eq (k : nat) (a a' X X' : Q) :
  (a == a')%Q -> (X == X')%Q -> rel u k a X -> rel u k a' X'.
Proof. unfold rel. intros Ea EX [H1 H2]. rewrite <- Ea, <- EX. auto. Qed.

Lemma rel_zero (k : nat) : rel u k 0 0.
Proof. unfold rel. split; lra. Qed.

Lemma rel_exact (X : Q) : rel u 0 X X.
Proof.
  unfold rel. change (Z.of_nat 0) with 0. rewrite !Qpower_0_r.
  split; lra.
Qed.

Lemma rel_weaken (k k' : nat) (a X : Q) :
  (0 <= X)%Q -> (k <= k')%nat -> rel u k a X -> rel u k' a X.
Proof.
  unfold rel. intros HX Hk [H1 H2].
  pose proof (lower_antitone k k' Hk). pose proof (upper_monotone k k' Hk).
  split; nra.
Qed.

Lemma rel_nonneg (k : nat) (a X : Q) :
  (0 <= X)%Q -> rel u k a X -> (0 <= a)%Q.
Proof.
  unfold rel. intros HX [H1 _].
  destruct (lower_bounds k) as (A1 & _ & _). nra.
Qed.

Lemma rel_add (k : nat) (a b X Y : Q) :
  rel u k a X -> rel u k b Y -> rel u k (a + b) (X + Y).
Proof. unfold rel. intros [A1 A2] [B1 B2]. split; lra. Qed.

Lemma rel_mul (k j : nat) (a b X Y : Q) :
  (0 <= X)%Q -> (0 <= Y)%Q ->
  rel u k a X -> rel u j b Y -> rel u (k + j) (a * b) (X * Y).
Proof.
  intros HX HY Ha Hb.
  pose proof (rel_nonneg k a X HX Ha) as Pa.
  pose proof (rel_nonneg j b Y HY Hb) as Pb.
  unfold rel in *. destruct Ha as [A1 A2], Hb as [B1 B2].
  rewrite !power_add.
  destruct (lower_bounds k) as (L1 & _ & _).
  destruct (lower_bounds j) as (L2 & _ & _).
  set (lk := Qpower (1 - u) (Z.of_nat k)) in *.
  set (lj := Qpower (1 - u) (Z.of_nat j)) in *.
  set (hk := Qpower (1 + u) (Z.of_nat k)) in *.
  set (hj := Qpower (1 + u) (Z.of_nat j)) in *.
  assert (0 <= X * lk)%Q by nra. assert (0 <= Y * lj)%Q by nra.
  split.
  - assert (X * lk * (Y * lj) <= a * b)%Q by nra. nra.
  - assert (a * b <= X * hk * (Y * hj))%Q by nra. nra.
Qed.

Lemma rel_round (k : nat) (r v X : Q) :
  (0 <= X)%Q -> rel u k v X -> (Qabs (r - v) <= u * v)%Q ->
  rel u (S k) r X.
Proof.
  intros HX Hv Hr. pose proof (rel_nonneg k v X HX Hv) as Pv.
  apply Qabs_Qle_condition in Hr. destruct Hr as [R1 R2].
  unfold rel in *. destruct Hv as [V1 V2]. rewrite !power_succ.
  destruct (lower_bounds k) as (L1 & _ & _).
  destruct (upper_bounds k) as (U1 & _).
  set (lk := Qpower (1 - u) (Z.of_nat k)) in *.
  set (hk := Qpower (1 + u) (Z.of_nat k)) in *.
  split; nra.
Qed.

(** While [k u <= 1/2], [k] roundings stay within a factor of two. *)
Lemma rel_factor_two (k : nat) (a X : Q) :
  (0 <= X)%Q -> (inject_Z (Z.of_nat k) * u <= 1 # 2)%Q ->
  rel u k a X -> (X <= 2 * a)%Q /\ (a <= 2 * X)%Q.
Proof.
  intros HX Hk [H1 H2].
  destruct (lower_bounds k) as (_ & _ & L3).
  destruct (upper_bounds k) as (_ & U2).
  specialize (U2 ltac:(lra)).
  set (c := (inject_Z (Z.of_nat k) * u)%Q) in *.
  assert (0 <= c)%Q.
  { unfold c. assert (0 <= inject_Z (Z.of_nat k))%Q
      by (change 0%Q with (inject_Z 0); rewrite <- Zle_Qle; lia).
    nra. }
  assert (c * c <= 1 # 4)%Q by nra.
  split; nra.
Qed.

(** Two results within [k] and [j] roundings of the same number are
    within [(k + j + 1) u] of each other, relative to the second. *)
Lemma rel_close (k j : nat) (a b X : Q) :
  (0 <= X)%Q -> rel u k a X -> rel u j b X ->
  (2 * inject_Z (Z.of_nat (k + j + 1))
   * (inject_Z (Z.of_nat (k + j + 1)) * u) <= 1)%Q ->
  (Qabs (a - b) <= inject_Z (Z.of_nat (k + j + 1)) * u * b)%Q.
Proof.
  intros HX [A1 A2] [B1 B2] Hsmall.
  destruct (lower_bounds k) as (_ & _ & Lk).
  destruct (lower_bounds j) as (_ & _ & Lj).
  destruct (upper_bounds k) as (_ & Uk).
  destruct (upper_bounds j) as (_ & Uj).
  rewrite !Nat2Z.inj_add, !inject_Z_plus in *.
  change (inject_Z (Z.of_nat 1)) with 1%Q in *.
  set (ck := inject_Z (Z.of_nat k)) in *.
  set (cj := inject_Z (Z.of_nat j)) in *.
  assert (Hck : (0 <= ck)%Q)
    by (unfold ck; change 0%Q with (inject_Z 0); rewrite <- Zle_Qle; lia).
  assert (Hcj : (0 <= cj)%Q)
    by (unfold cj; change 0%Q with (inject_Z 0); rewrite <- Zle_Qle; lia).
  set (lk := Qpower (1 - u) (Z.of_nat k)) in *.
  set (lj := Qpower (1 - u) (Z.of_nat j)) in *.
  set (hk := Qpower (1 + u) (Z.of_nat k)) in *.
  set (hj := Qpower (1 + u) (Z.of_nat j)) in *.
  set (c := (ck + cj + 1)%Q) in *.
  assert (Hc1 : (1 <= c)%Q) by (unfold c; lra).
  assert (Hcu : (c * u <= 1)%Q) by nra.
  assert (Hku : (ck * u <= 1)%Q) by (unfold c in Hcu; nra).
  assert (Hju : (cj * u <= 1)%Q) by (unfold c in Hcu; nra).
  specialize (Uk Hku). specialize (Uj Hju).
  assert (Hcu0 : (0 <= c * u)%Q) by nra.
  assert (Hlow : (c * u * (1 - cj * u) <= c * u * lj)%Q).
  { apply Qmult_le_l_nonneg; [exact Hcu0|exact Lj]. }
  assert (Hcc : (u * (2 * (c * c)) <= 1)%Q).
  { assert (E : (u * (2 * (c * c)) == 2 * c * (c * u))%Q) by ring.
    rewrite E. exact Hsmall. }
  assert (S1 : (hk - lj <= c * u * lj)%Q).
  { assert (hk - lj <= (ck + cj) * u + ck * u * (ck * u))%Q by lra.
    assert ((ck + cj) * u + ck * u * (ck * u)
            <= c * u * (1 - cj * u))%Q; [|lra].
    assert (H1 : (ck * ck + c * cj <= 2 * (c * c))%Q) by (unfold c; nra).
    assert (H2 : (u * (ck * ck + c * cj) <= u * (2 * (c * c)))%Q)
      by (apply Qmult_le_l_nonneg; assumption).
    assert (H3 : (0 <= u * (1 - u * (ck * ck + c * cj)))%Q)
      by (apply Qmult_le_0_compat; lra).
    assert (E : (c * u * (1 - cj * u)
                 - ((ck + cj) * u + ck * u * (ck * u))
                 == u * (1 - u * (ck * ck + c * cj)))%Q)
      by (unfold c; ring).
    lra. }
  assert (S2 : (hj - lk <= c * u * lj)%Q).
  { assert (hj - lk <= (ck + cj) * u + cj * u * (cj * u))%Q by lra.
    assert ((ck + cj) * u + cj * u * (cj * u)
            <= c * u * (1 - cj * u))%Q; [|lra].
    assert (H1 : (cj * cj + c * cj <= 2 * (c * c))%Q) by (unfold c; nra).
    assert (H2 : (u * (cj * cj + c * cj) <= u * (2 * (c * c)))%Q)
      by (apply Qmult_le_l_nonneg; assumption).
    assert (H3 : (0 <= u * (1 - u * (cj * cj + c * cj)))%Q)
      by (apply Qmult_le_0_compat; lra).
    assert (E : (c * u * (1 - cj * u)
                 - ((ck + cj) * u + cj * u * (cj * u))
                 == u * (1 - u * (cj * cj + c * cj)))%Q)
      by (unfold c; ring).
    lra. }
  assert (Hb : (c * u * (X * lj) <= c * u * b)%Q) by nra.
  apply Qabs_Qle_condition. split.
  - assert (b - a <= X * (hj - lk))%Q by lra.
    assert (X * (hj - lk) <= X * (c * u * lj))%Q by nra.
    nra.
  - assert (a - b <= X * (hk - lj))%Q by lra.
    assert (X * (hk - lj) <= X * (c * u * lj))%Q by nra.
    nra.
Qed.
End Rel.

End RelFacts.

Module AccFacts.
Import FpFacts Val ValFacts OpFacts RelFacts.

Lemma inject_nat_nonneg (k : nat) : (0 <= inject_Z (Z.of_nat k))%Q.
Proof. change 0%Q with (inject_Z 0). rewrite <- Zle_Qle. lia. Qed.

Lemma inject_nat_le (k k' : nat) :
  (k <= k')%nat -> (inject_Z (Z.of_nat k) <= inject_Z (Z.of_nat k'))%Q.
Proof. intros H. rewrite <- Zle_Qle. lia. Qed.

Lemma inject_nat_succ (k : nat) :
  (inject_Z (Z.of_nat (S k)) == inject_Z (Z.of_nat k) + 1)%Q.
Proof.
  rewrite Nat2Z.inj_succ. unfold Z.succ. rewrite inject_Z_plus.
  reflexivity.
Qed.

Lemma sumsq_nonneg (qs : list Q) : (0 <= sumsq qs)%Q.
Proof.
  induction qs as [|q qs IH]; cbn [sumsq fold_right]; [lra|].
  fold (sumsq qs). nra.
Qed.

Section Accumulate.
Variable T : Fp.format.
Hypothesis Hprec : 1 < Fp.prec T.

Local Abbreviation u := (pow2 (1 - Fp.prec T)).

Variables lo hi : Q.
Variable nmax : nat.
Variable j : nat.
Hypothesis Hlo : (2 * pow2 (emin (Fp.prec T) (Fp.emax T) + Fp.prec T - 1)
                  <= lo)%Q.
Hypothesis Hlohi : (lo <= hi)%Q.
Hypothesis Hhi : (2 * hi < pow2 (Fp.emax T - 1))%Q.
Hypothesis Hnhi : (2 * (inject_Z (Z.of_nat nmax) * hi)
                   < pow2 (Fp.emax T - 1))%Q.
Hypothesis Hu : (inject_Z (Z.of_nat (nmax + 2 * j + 2)) * u <= 1 # 2)%Q.

Lemma u_nonneg : (0 <= u)%Q.
Proof. apply Qlt_le_weak, pow2_pos. Qed.

Lemma u_half : (u <= 1 # 2)%Q.
Proof.
  assert (1 <= inject_Z (Z.of_nat (nmax + 2 * j + 2)))%Q
    by (change 1%Q with (inject_Z 1); rewrite <- Zle_Qle; lia).
  pose proof u_nonneg. nra.
Qed.

Lemma lo_pos : (0 < lo)%Q.
Proof.
  pose proof (pow2_pos (emin (Fp.prec T) (Fp.emax T) + Fp.prec T - 1)).
  lra.
Qed.

Lemma count_small (k : nat) :
  (k <= nmax + 2 * j + 2)%nat -> (inject_Z (Z.of_nat k) * u <= 1 # 2)%Q.
Proof.
  intros Hk. pose proof (inject_nat_le _ _ Hk).
  pose proof u_nonneg. pose proof (inject_nat_nonneg k). nra.
Qed.

Lemma tracks_eq (k : nat) (acc : spec_float) (X X' : Q) :
  (X == X')%Q -> tracks T u lo k acc X -> tracks T u lo k acc X'.
Proof.
  intros E [[H1 H2]|(H1 & H2 & H3)]; [left|right].
  - split; [exact H1|]. rewrite <- E. exact H2.
  - split; [exact H1|]. split; [|rewrite <- E; exact H3].
    eapply rel_eq; [reflexivity|exact E|exact H2].
Qed.

Lemma tracks_nonneg (k : nat) (acc : spec_float) (X : Q) :
  tracks T u lo k acc X -> (0 <= X)%Q.
Proof.
  intros [[_ H]|(_ & _ & H)]; [lra|]. pose proof lo_pos. lra.
Qed.

(** The square of a component. *)
Lemma square_tracks (y : spec_float) (q : Q) :
  stands_for T u lo hi j y q ->
  tracks T u lo (2 * j + 1) (Fp.mul T y y) (q * q).
Proof.
  intros [[[s ->] Hq]|(Hn & Hr & Hq0 & Hql & Hqh)].
  - left. split; [destruct s; reflexivity|]. rewrite Hq. ring.
  - right. destruct y as [| | |s m e]; try contradiction.
    destruct Hn as [Hd He].
    assert (Hv : rel u (j + j) (Qabs (value (S754_finite s m e))
                                * Qabs (value (S754_finite s m e)))
                   (q * q))
      by (apply rel_mul; solve [exact u_nonneg | exact u_half | assumption]).
    assert (Hqq : (0 <= q * q)%Q) by nra.
    destruct (rel_factor_two u u_nonneg u_half (j + j) _ _ Hqq
                (count_small (j + j) ltac:(lia)) Hv) as [F1 F2].
    rewrite abs_value in *.
    destruct (mul_value (Fp.prec T) (Fp.emax T) Hprec s s m m e e Hd Hd)
      as (m' & e' & Hmul & Hd' & He' & Herr); [lra | lra |].
    unfold Fp.mul. rewrite Hmul.
    replace (xorb s s) with false by (destruct s; reflexivity).
    split; [split; [split; assumption|eauto]|].
    split; [|exact Hql].
    replace (2 * j + 1)%nat with (S (j + j)) by lia.
    apply (rel_round u u_nonneg u_half (j + j) _ _ _ Hqq Hv).
    rewrite value_positive, !abs_value. exact Herr.
Qed.

(** One turn of the loop. *)
Lemma add_tracks (k : nat) (acc s : spec_float) (X Y : Q) :
  (S k <= nmax + 2 * j + 2)%nat ->
  tracks T u lo k acc X -> tracks T u lo k s Y ->
  (X + Y <= inject_Z (Z.of_nat nmax) * hi)%Q ->
  tracks T u lo (S k) (Fp.add T acc s) (X + Y).
Proof.
  intros Hk Hacc Hs Hsum.
  pose proof (tracks_nonneg _ _ _ Hacc) as PX.
  pose proof (tracks_nonneg _ _ _ Hs) as PY.
  destruct Hacc as [[-> HX]|([Hna (ma & ea & ->)] & Hra & Hla)];
    destruct Hs as [[-> HY]|([Hns (ms & es & ->)] & Hrs & Hls)].
  - left. split; [reflexivity|]. rewrite HX, HY. ring.
  - right. cbn [Fp.add SFadd].
    split; [split; [exact Hns|eauto]|]. split; [|lra].
    apply (rel_weaken u u_nonneg u_half k (S k)); [lra|lia|].
    eapply rel_eq; [reflexivity| |exact Hrs]. rewrite HX. ring.
  - right. cbn [Fp.add SFadd].
    split; [split; [exact Hna|eauto]|]. split; [|lra].
    apply (rel_weaken u u_nonneg u_half k (S k)); [lra|lia|].
    eapply rel_eq; [reflexivity| |exact Hra]. rewrite HY. ring.
  - right. destruct Hna as [Hda Hea], Hns as [Hds Hes].
    assert (Hv : rel u k (value (S754_finite false ma ea)
                          + value (S754_finite false ms es)) (X + Y))
      by (apply rel_add; assumption).
    assert (PXY : (0 <= X + Y)%Q) by lra.
    destruct (rel_factor_two u u_nonneg u_half k _ _ PXY
                (count_small k ltac:(lia)) Hv) as [F1 F2].
    rewrite !value_positive in *.
    destruct (add_value (Fp.prec T) (Fp.emax T) Hprec ma ms ea es
                Hda Hds ltac:(lia) ltac:(lia))
      as (m' & e' & Hadd & Hd' & He' & Herr); [lra|].
    unfold Fp.add. rewrite Hadd.
    split; [split; [split; assumption|eauto]|]. split; [|lra].
    apply (rel_round u u_nonneg u_half k _ _ _ PXY Hv).
    rewrite value_positive. exact Herr.
Qed.

(** The loop of the norm over components that stand for [qs]. *)
Lemma fold_tracks (ys : list spec_float) (qs : list Q) :
  Forall2 (stands_for T u lo hi j) ys qs ->
  forall (acc : spec_float) (X : Q) (c : nat),
    tracks T u lo (c + 2 * j + 1) acc X ->
    (X <= inject_Z (Z.of_nat c) * hi)%Q ->
    (c + length ys <= nmax)%nat ->
    tracks T u lo (c + length ys + 2 * j + 1)
      (fold_left (fun a x_i => Fp.add T a (Fp.mul T x_i x_i)) ys acc)
      (X + sumsq qs)
    /\ (X + sumsq qs <= inject_Z (Z.of_nat (c + length ys)) * hi)%Q.
Proof.
  induction 1 as [|y q ys qs Hy Hrest IH]; intros acc X c Hacc HX Hc.
  - cbn [fold_left length sumsq fold_right]. rewrite !Nat.add_0_r. split.
    + eapply tracks_eq; [|exact Hacc]. ring.
    + lra.
  - cbn [fold_left length sumsq fold_right]. fold (sumsq qs).
    cbn [length] in Hc.
    pose proof (tracks_nonneg _ _ _ Hacc) as PX.
    assert (Hq : (0 <= q * q)%Q /\ (q * q <= hi)%Q).
    { destruct Hy as [[_ Hq]|(_ & _ & Hq0 & Hql & Hqh)].
      - rewrite Hq. pose proof lo_pos. lra.
      - split; [nra|exact Hqh]. }
    destruct Hq as [Hq0 Hqh].
    assert (Hsq : tracks T u lo (c + 2 * j + 1) (Fp.mul T y y) (q * q)).
    { pose proof (square_tracks y q Hy) as Hs.
      destruct Hs as [Hs|(Hs1 & Hs2 & Hs3)]; [left; exact Hs|right].
      split; [exact Hs1|]. split; [|exact Hs3].
      apply (rel_weaken u u_nonneg u_half (2 * j + 1)); [lra|lia|exact Hs2]. }
    assert (Hnew : (X + q * q <= inject_Z (Z.of_nat (S c)) * hi)%Q)
      by (rewrite inject_nat_succ; lra).
    assert (Hstep : tracks T u lo (S c + 2 * j + 1)
                      (Fp.add T acc (Fp.mul T y y)) (X + q * q)).
    { apply (add_tracks (c + 2 * j + 1)); [lia|exact Hacc|exact Hsq|].
      pose proof (inject_nat_le (S c) nmax ltac:(lia)).
      assert (0 <= hi)%Q by lra. nra. }
    destruct (IH _ _ (S c) Hstep Hnew ltac:(lia)) as [I1 I2].
    replace (c + S (length ys))%nat with (S c + length ys)%nat by lia.
    split.
    + eapply tracks_eq; [|exact I1]. ring.
    + lra.
Qed.
End Accumulate.

End AccFacts.

Module RescaleFacts.
Import FpFacts NormFacts Val ValFacts OpFacts RelFacts AccFacts Exp2.

Lemma pow2_two : (2 == pow2 1)%Q.
Proof. reflexivity. Qed.

Lemma moderate_normal (v : spec_float) :
  moderate T 250 v = true ->
  normal T v
  /\ (pow2 (-250) <= Qabs (value v))%Q /\ (Qabs (value v) < pow2 250)%Q.
Proof.
  destruct v as [| | |s m e]; try discriminate.
  unfold moderate. intros H.
  apply andb_prop in H as [H H5]. apply andb_prop in H as [H H4].
  apply andb_prop in H as [H H3]. apply andb_prop in H as [H1 H2].
  apply Z.eqb_eq in H1. apply Z.leb_le in H2. apply Z.leb_le in H3.
  apply Z.ltb_lt in H4. apply Z.leb_le in H5.
  split; [cbn [normal]; lia|].
  rewrite abs_value. change (Fp.prec T) with 53 in H1.
  destruct (normal_bounds 53 m e ltac:(lia) H1) as [B1 B2].
  pose proof (pow2_le (-250) (53 - 1 + e) ltac:(lia)).
  pose proof (pow2_le (53 + e) 250 ltac:(lia)).
  split; lra.
Qed.

Section Scale.
Local Abbreviation u := (pow2 (1 - Fp.prec T)).
Local Abbreviation lo := (pow2 (-1000)).
Local Abbreviation hi := (pow2 1000).

Lemma range_lo :
  (2 * pow2 (emin (Fp.prec T) (Fp.emax T) + Fp.prec T - 1) <= lo)%Q.
Proof.
  change (emin (Fp.prec T) (Fp.emax T) + Fp.prec T - 1) with (-1022).
  rewrite pow2_two, <- pow2_add. apply pow2_le. lia.
Qed.

Lemma range_lohi : (lo <= hi)%Q.
Proof. apply pow2_le. lia. Qed.

Lemma range_hi : (2 * hi < pow2 (Fp.emax T - 1))%Q.
Proof.
  change (Fp.emax T - 1) with 1023.
  rewrite pow2_two, <- pow2_add. apply pow2_lt. lia.
Qed.

Lemma range_u0 : (0 <= u)%Q.
Proof. apply u_nonneg. Qed.

Lemma range_u_half : (u <= 1 # 2)%Q.
Proof.
  change (1 - Fp.prec T) with (-52).
  change (1 # 2)%Q with (pow2 (-1)). apply pow2_le. lia.
Qed.

(** A component stands for its own magnitude, and its quotient by
    [gamma] for the quotient of the magnitudes. *)
Lemma self_stands (x_i : spec_float) :
  zero_or_moderate T 250 x_i = true ->
  stands_for T u lo hi 0 x_i (Qabs (value x_i)).
Proof.
  intros Hx. destruct x_i as [s| | |s m e]; try discriminate.
  - left. split; [eauto|reflexivity].
  - right. cbn [zero_or_moderate] in Hx.
    destruct (moderate_normal _ Hx) as (Hn' & B1 & B2).
    split; [exact Hn'|]. split; [apply rel_exact|].
    set (q := Qabs (value (S754_finite s m e))) in *.
    pose proof (pow2_pos (-250)).
    split; [lra|].
    replace (-1000) with (-250 + -250 + -500) by lia.
    replace 1000 with (250 + 250 + 500) by lia.
    rewrite !pow2_add.
    pose proof (pow2_le (-500) 0 ltac:(lia)).
    pose proof (pow2_le 0 500 ltac:(lia)).
    pose proof (pow2_pos (-500)). change (pow2 0) with 1%Q in *.
    pose proof (pow2_pos 250).
    split; nra.
Qed.

Lemma div_stands (g x_i : spec_float) :
  moderate T 250 g = true -> zero_or_moderate T 250 x_i = true ->
  stands_for T u lo hi 1 (Fp.div T x_i g)
    (Qabs (value x_i) / Qabs (value g)).
Proof.
  intros Hg Hx. destruct (moderate_normal _ Hg) as (Hng & G1 & G2).
  destruct g as [| | |sg mg eg]; try contradiction.
  pose proof (pow2_pos (-250)) as P250.
  assert (HG : ~ (Qabs (value (S754_finite sg mg eg)) == 0)%Q) by lra.
  destruct x_i as [s| | |s m e]; try discriminate.
  - left. split; [cbn [Fp.div SFdiv]; eauto|].
    change (value (S754_zero s)) with 0%Q.
    change (Qabs 0) with 0%Q. field. exact HG.
  - right. cbn [zero_or_moderate] in Hx.
    destruct (moderate_normal _ Hx) as (Hnx & X1 & X2).
    set (q := (Qabs (value (S754_finite s m e))
               / Qabs (value (S754_finite sg mg eg)))%Q).
    assert (Eq : (q * Qabs (value (S754_finite sg mg eg))
                  == Qabs (value (S754_finite s m e)))%Q)
      by (unfold q; field; exact HG).
    set (A := Qabs (value (S754_finite s m e))) in *.
    set (G := Qabs (value (S754_finite sg mg eg))) in *.
    assert (E1 : (pow2 (-250) == pow2 (-500) * pow2 250)%Q)
      by (rewrite <- pow2_add; reflexivity).
    assert (E2 : (pow2 250 == pow2 500 * pow2 (-250))%Q)
      by (rewrite <- pow2_add; reflexivity).
    pose proof (pow2_pos (-500)) as P1. pose proof (pow2_pos 500) as P2.
    assert (Q1 : (pow2 (-500) <= q)%Q).
    { destruct (Qlt_le_dec q (pow2 (-500))) as [Hlt|]; [|assumption].
      exfalso. assert (q * G < pow2 (-500) * pow2 250)%Q; [|lra].
      destruct (Qlt_le_dec q 0); nra. }
    assert (Q2 : (q < pow2 500)%Q).
    { destruct (Qlt_le_dec q (pow2 500)) as [|Hge]; [assumption|].
      exfalso. assert (pow2 500 * pow2 (-250) <= q * G)%Q; [|lra]. nra. }
    destruct Hnx as [Hdx Hex], Hng as [Hdg Heg].
    destruct (div_value (Fp.prec T) (Fp.emax T) ltac:(reflexivity)
                s sg m mg e eg q Hdx Hdg)
      as (m' & e' & Hdiv & Hd' & He' & Herr).
    + unfold A, G in Eq. rewrite !abs_value in Eq. exact Eq.
    + change (emin (Fp.prec T) (Fp.emax T) + Fp.prec T) with (-1021).
      pose proof (pow2_le (-1021) (-500) ltac:(lia)). lra.
    + change (Fp.emax T - 1) with 1023.
      pose proof (pow2_le 500 1023 ltac:(lia)). lra.
    + unfold Fp.div. rewrite Hdiv.
      split; [split; assumption|].
      assert (Hq0 : (0 <= q)%Q) by lra.
      split.
      * apply (rel_round u range_u0 range_u_half 0 _ q q Hq0
                 (rel_exact u q)).
        rewrite abs_value. exact Herr.
      * split; [exact Hq0|].
        replace (-1000) with (-500 + -500) by lia.
        replace 1000 with (500 + 500) by lia.
        rewrite !pow2_add. split; nra.
Qed.
Lemma Qabs_square (q : Q) : (Qabs q * Qabs q == q * q)%Q.
Proof. rewrite <- Qabs_Qmult. apply Qabs_pos. nra. Qed.

Lemma sumsq_abs (xs : list spec_float) :
  (sumsq (map (fun v => Qabs (value v)) xs) == sum_of_squares xs)%Q.
Proof.
  unfold sum_of_squares.
  induction xs as [|x_i xs IH]; cbn [map sumsq fold_right]; [reflexivity|].
  fold (sumsq (map (fun v => Qabs (value v)) xs)).
  fold (sumsq (map value xs)). rewrite IH, Qabs_square. reflexivity.
Qed.

Lemma sumsq_div (G : Q) (xs : list spec_float) :
  ~ (G == 0)%Q ->
  (sumsq (map (fun v => (Qabs (value v) / G)%Q) xs) * (G * G)
   == sumsq (map (fun v => Qabs (value v)) xs))%Q.
Proof.
  intros HG.
  induction xs as [|x_i xs IH]; cbn [map sumsq fold_right]; [ring|].
  fold (sumsq (map (fun v => (Qabs (value v) / G)%Q) xs)).
  fold (sumsq (map (fun v => Qabs (value v)) xs)).
  rewrite <- IH. field. exact HG.
Qed.

Lemma self_stands_all (xs : list spec_float) :
  forallb (zero_or_moderate T 250) xs = true ->
  Forall2 (stands_for T u lo hi 0) xs (map (fun v => Qabs (value v)) xs).
Proof.
  induction xs as [|x_i xs IH]; cbn [forallb map]; intros H;
    [constructor|].
  apply andb_prop in H as [H1 H2].
  constructor; [apply self_stands; exact H1|apply IH; exact H2].
Qed.

Lemma div_stands_all (g : spec_float) (xs : list spec_float) :
  moderate T 250 g = true ->
  forallb (zero_or_moderate T 250) xs = true ->
  Forall2 (stands_for T u lo hi 1) (map (fun x_i => Fp.div T x_i g) xs)
    (map (fun v => (Qabs (value v) / Qabs (value g))%Q) xs).
Proof.
  intros Hg.
  induction xs as [|x_i xs IH]; cbn [forallb map]; intros H;
    [constructor|].
  apply andb_prop in H as [H1 H2].
  constructor; [apply div_stands; assumption|apply IH; exact H2].
Qed.

End Scale.

Section Range.
Variable n : N.
Hypothesis Hn : (n <= 2 ^ 20)%N.

Local Abbreviation u := (pow2 (1 - Fp.prec T)).
Local Abbreviation lo := (pow2 (-1000)).
Local Abbreviation hi := (pow2 1000).
Local Abbreviation nmax := (N.to_nat n).

Lemma count_le (m : nat) (c : Z) (k : Z) :
  Z.of_nat m <= Z.of_N n + c -> 2 ^ 20 + c <= 2 ^ k -> 0 <= k ->
  (inject_Z (Z.of_nat m) <= pow2 k)%Q.
Proof.
  intros Hm Hk Hk0. rewrite pow2_inject by exact Hk0.
  rewrite <- Zle_Qle.
  assert (Z.of_N n <= 2 ^ 20)
    by (change (2 ^ 20) with (Z.of_N (2 ^ 20)); lia).
  lia.
Qed.

Lemma range_nhi :
  (2 * (inject_Z (Z.of_nat nmax) * hi) < pow2 (Fp.emax T - 1))%Q.
Proof.
  change (Fp.emax T - 1) with 1023.
  pose proof (count_le (N.to_nat n) 0 20 ltac:(lia) ltac:(lia) ltac:(lia))
    as Hc.
  pose proof (pow2_pos 1000).
  assert (2 * (pow2 20 * pow2 1000) < pow2 1023)%Q.
  { rewrite pow2_two, <- !pow2_add. apply pow2_lt. lia. }
  pose proof (inject_nat_nonneg (N.to_nat n)). nra.
Qed.

Lemma range_u (j : nat) :
  (j <= 1)%nat ->
  (inject_Z (Z.of_nat (nmax + 2 * j + 2)) * u <= 1 # 2)%Q.
Proof.
  intros Hj. change (1 - Fp.prec T) with (-52).
  pose proof (count_le (N.to_nat n + 2 * j + 2) 4 21 ltac:(lia)
                ltac:(lia) ltac:(lia)) as Hc.
  pose proof (pow2_pos (-52)).
  assert (pow2 21 * pow2 (-52) <= 1 # 2)%Q.
  { rewrite <- pow2_add. change (1 # 2)%Q with (pow2 (-1)).
    apply pow2_le. lia. }
  nra.
Qed.

Lemma range_close :
  (2 * inject_Z (Z.of_nat (nmax + 5 + (nmax + 1) + 1))
   * (inject_Z (Z.of_nat (nmax + 5 + (nmax + 1) + 1)) * u) <= 1)%Q.
Proof.
  change (1 - Fp.prec T) with (-52).
  pose proof (count_le (N.to_nat n + 5 + (N.to_nat n + 1) + 1) (Z.of_N n + 7)
                22 ltac:(lia)) as Hc.
  assert (Z.of_N n <= 2 ^ 20)
    by (change (2 ^ 20) with (Z.of_N (2 ^ 20)); lia).
  specialize (Hc ltac:(lia) ltac:(lia)).
  pose proof (inject_nat_nonneg (N.to_nat n + 5 + (N.to_nat n + 1) + 1)).
  set (c := inject_Z (Z.of_nat (N.to_nat n + 5 + (N.to_nat n + 1) + 1))) in *.
  pose proof (pow2_pos (-52)).
  assert (E : (2 * (pow2 22 * (pow2 22 * pow2 (-52))) <= 1)%Q).
  { rewrite pow2_two, <- !pow2_add. change 1%Q with (pow2 0).
    apply pow2_le. lia. }
  assert (c * pow2 (-52) <= pow2 22 * pow2 (-52))%Q by nra.
  assert (0 <= c * pow2 (-52))%Q by nra.
  assert (c * (c * pow2 (-52)) <= pow2 22 * (pow2 22 * pow2 (-52)))%Q by nra.
  lra.
Qed.

Lemma tracks_start (k : nat) : tracks T u lo k Fp.zero 0.
Proof. left. split; reflexivity. Qed.

(** The norm of the vector tracks the exact sum of squares within
    [n + 1] roundings. *)
Lemma norm_tracks (x : list spec_float) :
  forallb (zero_or_moderate T 250) (take nmax x) = true ->
  (nmax <= length x)%nat ->
  exists b,
    f x n = Some b
    /\ tracks T u lo (nmax + 1) b (sum_of_squares (take nmax x))
    /\ (sum_of_squares (take nmax x) <= inject_Z (Z.of_nat nmax) * hi)%Q.
Proof.
  intros Hx Hlen. rewrite exp2_f, f_fold by exact Hlen.
  eexists. split; [reflexivity|].
  destruct (fold_tracks T ltac:(reflexivity) lo hi nmax 0
              range_lo range_lohi range_hi range_nhi (range_u 0 ltac:(lia))
              _ _ (self_stands_all _ Hx) Fp.zero 0%Q 0%nat
              (tracks_start _)) as [H1 H2].
  - change (inject_Z (Z.of_nat 0)) with 0%Q. pose proof range_lohi.
    pose proof (pow2_pos (-1000)). lra.
  - rewrite length_take. lia.
  - rewrite length_take in H1, H2.
    replace (0 + nmax `min` length x + 2 * 0 + 1)%nat with (nmax + 1)%nat
      in H1 by lia.
    replace (0 + nmax `min` length x)%nat with nmax in H2 by lia.
    unfold Norm.spec_sum_of_squares. split.
    + eapply tracks_eq; [|exact H1]. rewrite sumsq_abs. ring.
    + rewrite <- sumsq_abs. lra.
Qed.

(** The norm of the prescaled vector tracks the exact sum of squares of
    the exact quotients within [n + 3] roundings. *)
Lemma prescaled_norm_tracks (g : spec_float) (x : list spec_float) :
  moderate T 250 g = true ->
  forallb (zero_or_moderate T 250) (take nmax x) = true ->
  (nmax <= length x)%nat ->
  let Y := sumsq (map (fun v => (Qabs (value v) / Qabs (value g))%Q)
                    (take nmax x)) in
  exists a,
    f (prescale g x) n = Some a
    /\ tracks T u lo (nmax + 3) a Y
    /\ (Y <= inject_Z (Z.of_nat nmax) * hi)%Q.
Proof.
  intros Hg Hx Hlen Y.
  rewrite exp2_f, f_fold
    by (unfold prescale; rewrite length_map; exact Hlen).
  eexists. split; [reflexivity|].
  unfold prescale. rewrite firstn_map.
  destruct (fold_tracks T ltac:(reflexivity) lo hi nmax 1
              range_lo range_lohi range_hi range_nhi (range_u 1 ltac:(lia))
              _ _ (div_stands_all g _ Hg Hx) Fp.zero 0%Q 0%nat
              (tracks_start _)) as [H1 H2].
  - change (inject_Z (Z.of_nat 0)) with 0%Q. pose proof range_lohi.
    pose proof (pow2_pos (-1000)). lra.
  - rewrite length_map, length_take. lia.
  - rewrite length_map, length_take in H1, H2.
    replace (0 + nmax `min` length x + 2 * 1 + 1)%nat with (nmax + 3)%nat
      in H1 by lia.
    replace (0 + nmax `min` length x)%nat with nmax in H2 by lia.
    unfold Norm.spec_sum_of_squares. split.
    + eapply tracks_eq; [|exact H1]. unfold Y. ring.
    + unfold Y. lra.
Qed.
End Range.

(** C6, as amended.  For a scale [gamma] and a vector [x] whose first [n]
    components are zeros or normal numbers, all magnitudes in
    [[2^-250, 2^250)] (so that nothing overflows or underflows), and
    [n <= 2^20] within the buffer: the rescaled norm
    [f (x/gamma) * gamma^2] and the norm [f (x)] are both finite, and they
    differ by at most [(2 n + 7) 2^-52] times [f (x)]: the rounding errors
    that the two computations accumulate, each operation being within
    [2^-52] of its exact result. *)
Theorem rescaling_within_range (g : spec_float) (x : list spec_float)
    (n : N) :
  moderate T 250 g = true ->
  forallb (zero_or_moderate T 250) (take (N.to_nat n) x) = true ->
  (N.to_nat n <= length x)%nat ->
  (n <= 2 ^ 20)%N ->
  exists a b,
    rescaled_norm g x n = Some a
    /\ f x n = Some b
    /\ within (2 * Z.of_N n + 7) 52 a b.
Proof.
  intros Hg Hx Hlen Hn.
  destruct (norm_tracks n Hn x Hx Hlen) as (b & Hb & Tb & Xb).
  destruct (prescaled_norm_tracks n Hn g x Hg Hx Hlen)
    as (A & HA & TA & YA).
  cbv zeta in TA, YA.
  set (nmax := N.to_nat n) in *.
  set (u := pow2 (1 - Fp.prec T)) in *.
  set (lo := pow2 (-1000)) in *. set (hi := pow2 1000) in *.
  set (X := sum_of_squares (take nmax x)) in *.
  unfold rescaled_norm. rewrite HA. cbn [mbind option_bind].
  exists (Fp.mul T A (Fp.mul T g g)), b.
  split; [reflexivity|]. split; [exact Hb|].
  (* the scale and its square *)
  destruct (moderate_normal _ Hg) as (Hng & G1 & G2).
  destruct g as [| | |sg mg eg]; try contradiction.
  destruct Hng as [Hdg Heg].
  set (G := Qabs (value (S754_finite sg mg eg))) in *.
  pose proof (pow2_pos (-250)) as P250.
  assert (HG : ~ (G == 0)%Q) by lra.
  assert (E1 : (pow2 (-500) == pow2 (-250) * pow2 (-250))%Q)
    by (rewrite <- pow2_add; reflexivity).
  assert (E2 : (pow2 500 == pow2 250 * pow2 250)%Q)
    by (rewrite <- pow2_add; reflexivity).
  assert (GG1 : (pow2 (-500) <= G * G)%Q) by nra.
  assert (GG2 : (G * G < pow2 500)%Q) by nra.
  pose proof (pow2_pos (-500)) as P500.
  pose proof (range_u0 : (0 <= u)%Q) as Hu0.
  pose proof (range_u_half : (u <= 1 # 2)%Q) as Hu1.
  pose proof (range_lo : (_ <= lo)%Q) as Hlo.
  pose proof (range_nhi n Hn : (_ < _)%Q) as Hnhi. fold nmax hi in Hnhi.
  assert (Plo : (0 < lo)%Q) by apply pow2_pos.
  destruct (mul_value (Fp.prec T) (Fp.emax T) ltac:(reflexivity)
              sg sg mg mg eg eg Hdg Hdg)
    as (m2 & e2 & Hg2 & Hd2 & He2 & Herr2).
  { unfold G in GG1. rewrite abs_value in GG1.
    change (emin (Fp.prec T) (Fp.emax T) + Fp.prec T - 1) with (-1022).
    pose proof (pow2_le (-1022) (-500) ltac:(lia)). lra. }
  { unfold G in GG2. rewrite abs_value in GG2.
    change (Fp.emax T - 1) with 1023.
    pose proof (pow2_le 500 1023 ltac:(lia)). lra. }
  replace (xorb sg sg) with false in Hg2 by (destruct sg; reflexivity).
  fold (Fp.mul T (S754_finite sg mg eg) (S754_finite sg mg eg)) in Hg2.
  rewrite Hg2.
  assert (Rg2 : rel u 1 (value (S754_finite false m2 e2)) (G * G)).
  { apply (rel_round u Hu0 Hu1 0 _ (G * G) (G * G)); [lra|apply rel_exact|].
    rewrite value_positive. unfold G. rewrite !abs_value. exact Herr2. }
  assert (EX : (sumsq (map (fun v => (Qabs (value v) / G)%Q) (take nmax x))
                * (G * G) == X)%Q)
    by (unfold X; rewrite sumsq_div by exact HG; apply sumsq_abs).
  set (Y := sumsq (map (fun v => (Qabs (value v) / G)%Q) (take nmax x)))
    in *.
  assert (Ec : Z.of_nat (nmax + 5 + (nmax + 1) + 1) = 2 * Z.of_N n + 7)
    by (unfold nmax; lia).
  destruct TA as [[-> HY]|([HnA (mA & eA & ->)] & RA & LA)].
  - (* every component is zero *)
    assert (HX0 : (X == 0)%Q) by (rewrite <- EX, HY; ring).
    destruct Tb as [[-> _]|(_ & _ & Lb)]; [|lra].
    split; [reflexivity|]. split; [reflexivity|].
    cbn [Fp.mul SFmul xorb value].
    change (Qabs (0 - 0)) with 0%Q. change (Qabs 0) with 0%Q. lra.
  - assert (PY : (0 <= Y)%Q) by lra.
    destruct Tb as [[_ HX0]|([Hnb (mb & eb & ->)] & Rb & Lb)].
    { exfalso. assert (0 < Y * (G * G))%Q by nra. lra. }
    assert (PX : (0 <= X)%Q) by lra.
    destruct HnA as [HdA HeA].
    assert (Rv : rel u (nmax + 4)
                   (value (S754_finite false mA eA)
                    * value (S754_finite false m2 e2)) X).
    { eapply rel_eq; [reflexivity|exact EX|].
      replace (nmax + 4)%nat with (nmax + 3 + 1)%nat by lia.
      apply (rel_mul u Hu0 Hu1); [exact PY|lra|exact RA|exact Rg2]. }
    assert (Hsmall : (inject_Z (Z.of_nat (nmax + 4)) * u <= 1 # 2)%Q).
    { pose proof (range_u n Hn 1 (le_n 1)) as H. fold nmax u in H.
      replace (nmax + 2 * 1 + 2)%nat with (nmax + 4)%nat in H by lia.
      exact H. }
    destruct (rel_factor_two u Hu0 Hu1 (nmax + 4) _ _ PX Hsmall Rv)
      as [F1 F2].
    rewrite !value_positive in F1, F2.
    destruct (mul_value (Fp.prec T) (Fp.emax T) ltac:(reflexivity)
                false false mA m2 eA e2 HdA Hd2)
      as (m & e & Hmul & Hd & He & Herr); [lra | lra |].
    unfold Fp.mul at 1. rewrite Hmul. cbn [xorb].
    assert (Ra : rel u (nmax + 5) (value (S754_finite false m e)) X).
    { replace (nmax + 5)%nat with (S (nmax + 4)) by lia.
      apply (rel_round u Hu0 Hu1 (nmax + 4) _ _ _ PX Rv).
      rewrite !value_positive. exact Herr. }
    pose proof (rel_close u Hu0 Hu1 (nmax + 5) (nmax + 1) _ _ X PX Ra Rb
                  (range_close n Hn)) as Hclose.
    rewrite Ec in Hclose.
    pose proof (rel_nonneg u Hu0 Hu1 _ _ _ PX Rb) as Pb.
    split; [reflexivity|]. split; [reflexivity|].
    rewrite (Qabs_pos (value (S754_finite false mb eb))) by exact Pb.
    assert (Eu : (u * pow2 52 == 1)%Q)
      by (unfold u; rewrite <- pow2_add; reflexivity).
    pose proof (pow2_pos 52) as P52.
    set (d := Qabs (value (S754_finite false m e)
                    - value (S754_finite false mb eb))) in *.
    set (vb := value (S754_finite false mb eb)) in *.
    set (c := inject_Z (2 * Z.of_N n + 7)) in *.
    assert (d * pow2 52 <= c * u * vb * pow2 52)%Q by nra.
    assert (E : (c * u * vb * pow2 52 == c * vb * (u * pow2 52))%Q) by ring.
    rewrite E, Eu in H. lra.
Qed.

(** The scale and the vector of the scan: [gamma = 100] and
    [1, 2, ..., 1024], whose prescaling is the buffer of the scan, at the
    largest size the scan visits. *)
Lemma rescaling_within_range_witness :
  prescale gamma integers = x_initial
  /\ exists a b,
       rescaled_norm gamma integers 1000 = Some a
       /\ f integers 1000 = Some b
       /\ within (2 * Z.of_N 1000 + 7) 52 a b.
Proof.
  split; [exact Exp2Facts.prescale_integers|].
  apply (rescaling_within_range gamma integers 1000).
  - reflexivity.
  - vm_compute. reflexivity.
  - vm_compute. lia.
  - vm_compute. discriminate.
Defined.

End RescaleFacts.

(** ** Further properties of the norm evaluator *)

Module NormBounds.
Import FpFacts NormFacts Obs.

Lemma f_loop_Some_range (T : Fp.format) (todo : nat) :
  forall (x : list spec_float) (i : nat) (r v : spec_float),
    Norm.f_loop T x i todo r = Some v ->
    todo = 0%nat \/ (i + todo <= length x)%nat.
Proof.
  induction todo as [|todo IH]; intros x i r v Hv; [left; reflexivity|].
  right. cbn [Norm.f_loop] in Hv.
  destruct (x !! i) as [x_i|] eqn:Hx; [|discriminate].
  apply lookup_lt_Some in Hx. cbn [mbind option_bind] in Hv.
  apply IH in Hv as [->|Hv]; lia.
Qed.

(** X1. [f] is defined exactly when the [n] components it reads are
    inside the buffer: with [n] above the length of the buffer the loop
    reads past its end, and with [n = 0] it reads nothing and returns
    [0.0], also on the empty buffer. *)
Theorem f_defined_iff (T : Fp.format) (x : list spec_float) (n : N) :
  (is_Some (Norm.f T x n) <-> (N.to_nat n <= length x)%nat)
  /\ (is_Some (Exp2.f x n) <-> (N.to_nat n <= length x)%nat)
  /\ Norm.f T [] n = (if (n =? 0)%N then Some Fp.zero else None)
  /\ Norm.f T x 0 = Some Fp.zero.
Proof.
  assert (H : forall T', is_Some (Norm.f T' x n)
                         <-> (N.to_nat n <= length x)%nat).
  { intros T'. split.
    - intros [v Hv]. apply f_loop_Some_range in Hv. lia.
    - intros Hn. rewrite f_fold by exact Hn. eauto. }
  split; [apply H|]. split; [rewrite exp2_f; apply H|]. split; [|reflexivity].
  destruct (n =? 0)%N eqn:E.
  - apply N.eqb_eq in E. subst n. reflexivity.
  - apply N.eqb_neq in E. unfold Norm.f.
    destruct (N.to_nat n) as [|todo] eqn:En; [lia|reflexivity].
Qed.

Lemma f_loop_S (T : Fp.format) (x : list spec_float) (i todo : nat)
    (r : spec_float) :
  Norm.f_loop T x i (S todo) r
  = (x_i ← x !! i;
     Norm.f_loop T x (S i) todo (Fp.add T r (Fp.mul T x_i x_i))).
Proof. reflexivity. Qed.

Lemma f_loop_snoc (T : Fp.format) (todo : nat) :
  forall (x : list spec_float) (i : nat) (r : spec_float),
    Norm.f_loop T x i (S todo) r
    = (r' ← Norm.f_loop T x i todo r;
       x_n ← x !! (i + todo)%nat;
       Some (Norm.accumulate T r' x_n)).
Proof.
  induction todo as [|todo IH]; intros x i r.
  - cbn [Norm.f_loop mbind option_bind]. rewrite Nat.add_0_r.
    destruct (x !! i); reflexivity.
  - rewrite (f_loop_S T x i (S todo) r), (f_loop_S T x i todo r).
    destruct (x !! i) as [x_i|]; [|reflexivity].
    cbn [mbind option_bind]. rewrite IH.
    replace (S i + todo)%nat with (i + S todo)%nat by lia. reflexivity.
Qed.

(** X2. One more component adds its square to the norm of the
    components before it: [f (x, n + 1)] is [f (x, n) + x[n]*x[n]], and is
    undefined when [f (x, n)] is or when [x[n]] is past the end. *)
Theorem f_one_more (T : Fp.format) (x : list spec_float) (n : N) :
  Norm.f T x (n + 1)
  = (r ← Norm.f T x n;
     x_n ← x !! N.to_nat n;
     Some (Fp.add T r (Fp.mul T x_n x_n)))
  /\ Exp2.f x (n + 1)
     = (r ← Exp2.f x n;
        x_n ← x !! N.to_nat n;
        Some (Fp.add Exp2.T r (Fp.mul Exp2.T x_n x_n))).
Proof.
  assert (H : forall T',
             Norm.f T' x (n + 1)
             = (r ← Norm.f T' x n;
                x_n ← x !! N.to_nat n;
                Some (Fp.add T' r (Fp.mul T' x_n x_n)))).
  { intros T'. unfold Norm.f.
    replace (N.to_nat (n + 1)) with (S (N.to_nat n)) by lia.
    rewrite f_loop_snoc. reflexivity. }
  split; [apply H|]. rewrite !exp2_f. apply H.
Qed.

Lemma binary_round_aux_sign (prec emax : Z) (s : bool) (m e : Z)
    (l : location) :
  match binary_round_aux prec emax s m e l with
  | S754_nan => True
  | S754_zero s' | S754_infinity s' | S754_finite s' _ _ => s' = s
  end.
Proof.
  unfold binary_round_aux.
  destruct (shr_fexp prec emax m e l) as [mrs' e'].
  destruct (shr_fexp prec emax _ e' loc_Exact) as [mrs'' e''].
  destruct (shr_m mrs''); [reflexivity| |exact I].
  destruct (e'' <=? emax - prec); reflexivity.
Qed.

(** A square has its sign bit clear. *)
Lemma mul_self_sign_clear (T : Fp.format) (v : spec_float) :
  sign_clear (Fp.mul T v v).
Proof.
  destruct v as [s|s| |s m e]; cbn [Fp.mul SFmul sign_clear];
    try (destruct s; reflexivity); try exact I.
  pose proof (binary_round_aux_sign (Fp.prec T) (Fp.emax T) (xorb s s)
                (Zpos (m * m)) (e + e) loc_Exact) as H.
  rewrite Bool.xorb_nilpotent in *.
  destruct (binary_round_aux _ _ _ _ _ _); exact H.
Qed.

(** The sum of two values with clear sign bits has its sign bit clear. *)
Lemma add_sign_clear (T : Fp.format) (a b : spec_float) :
  sign_clear a -> sign_clear b -> sign_clear (Fp.add T a b).
Proof.
  destruct a as [sa|sa| |sa ma ea], b as [sb|sb| |sb mb eb];
    cbn [sign_clear]; intros Ha Hb; subst;
    cbn [Fp.add SFadd sign_clear]; try reflexivity; try exact I.
  unfold Fp.add, SFadd. cbn [cond_Zopp].
  destruct (shl_align ma ea (Z.min ea eb)) as [ma' ea'].
  destruct (shl_align mb eb (Z.min ea eb)) as [mb' eb'].
  cbn [fst].
  change (Zpos ma' + Zpos mb') with (Zpos (ma' + mb')).
  cbn [binary_normalize]. unfold binary_round.
  match goal with
  | |- context [shl_align ?m ?e ?e'] => destruct (shl_align m e e') as [mz ez]
  end.
  pose proof (binary_round_aux_sign (Fp.prec T) (Fp.emax T) false
                (Zpos mz) ez loc_Exact) as H.
  destruct (binary_round_aux _ _ _ _ _ _); exact H.
Qed.

Lemma f_loop_sign_clear (T : Fp.format) (todo : nat) :
  forall (x : list spec_float) (i : nat) (r v : spec_float),
    sign_clear r -> Norm.f_loop T x i todo r = Some v -> sign_clear v.
Proof.
  induction todo as [|todo IH]; intros x i r v Hr Hv; cbn [Norm.f_loop] in Hv.
  - injection Hv as <-. exact Hr.
  - destruct (x !! i) as [x_i|]; [|discriminate].
    cbn [mbind option_bind] in Hv. eapply IH; [|exact Hv].
    apply add_sign_clear; [exact Hr|apply mul_self_sign_clear].
Qed.

(** X3. Whatever the components are, the norm [f] returns is never a
    negative number and never [-0.0]: its sign bit is clear or it is NaN,
    so it never compares below zero. *)
Theorem f_never_negative (T : Fp.format) (x : list spec_float) (n : N)
    (v : spec_float) :
  Norm.f T x n = Some v \/ Exp2.f x n = Some v ->
  sign_clear v /\ SFltb v Fp.zero = false.
Proof.
  intros Hv.
  assert (Hs : sign_clear v).
  { destruct Hv as [Hv|Hv]; [|rewrite exp2_f in Hv];
      eapply f_loop_sign_clear; try exact Hv; reflexivity. }
  split; [exact Hs|].
  destruct v as [s|s| |s m e]; cbn [sign_clear] in Hs; subst; reflexivity.
Qed.

(** The norm of [-3, 4] in single precision. *)
Lemma f_never_negative_witness :
  sign_clear (Fp.of_Z Fp.binary32 25)
  /\ SFltb (Fp.of_Z Fp.binary32 25) Fp.zero = false.
Proof.
  apply (f_never_negative Fp.binary32
           [Fp.of_Z Fp.binary32 (-3); Fp.of_Z Fp.binary32 4] 2).
  left. vm_compute. reflexivity.
Defined.

Lemma accumulate_nan_l (T : Fp.format) (x_i : spec_float) :
  Norm.accumulate T S754_nan x_i = S754_nan.
Proof. reflexivity. Qed.

Lemma accumulate_nan_r (T : Fp.format) (r : spec_float) :
  Norm.accumulate T r S754_nan = S754_nan.
Proof. destruct r; reflexivity. Qed.

Lemma f_loop_nan (T : Fp.format) (todo : nat) :
  forall (x : list spec_float) (i : nat),
    (i + todo <= length x)%nat ->
    Norm.f_loop T x i todo S754_nan = Some S754_nan.
Proof.
  induction todo as [|todo IH]; intros x i Hlen; [reflexivity|].
  cbn [Norm.f_loop].
  destruct (lookup_lt_is_Some_2 x i ltac:(lia)) as [x_i ->].
  cbn [mbind option_bind]. apply IH. lia.
Qed.

Lemma f_loop_meets_nan (T : Fp.format) (todo : nat) :
  forall (x : list spec_float) (i j : nat) (r : spec_float),
    (i + todo <= length x)%nat -> (i <= j < i + todo)%nat ->
    x !! j = Some S754_nan ->
    Norm.f_loop T x i todo r = Some S754_nan.
Proof.
  induction todo as [|todo IH]; intros x i j r Hlen Hj Hnan; [lia|].
  cbn [Norm.f_loop].
  destruct (Nat.eq_dec j i) as [->|Hne].
  - rewrite Hnan. cbn [mbind option_bind].
    fold (Norm.accumulate T r S754_nan). rewrite accumulate_nan_r.
    apply f_loop_nan. lia.
  - destruct (lookup_lt_is_Some_2 x i ltac:(lia)) as [x_i ->].
    cbn [mbind option_bind]. apply (IH x (S i) j); [lia|lia|exact Hnan].
Qed.

(** X4. A NaN among the components read makes the norm NaN: nothing
    the loop adds afterwards brings the result back to a number. *)
Theorem f_propagates_nan (T : Fp.format) (x : list spec_float) (n : N)
    (j : nat) :
  (N.to_nat n <= length x)%nat -> (j < N.to_nat n)%nat ->
  x !! j = Some S754_nan ->
  Norm.f T x n = Some S754_nan /\ Exp2.f x n = Some S754_nan.
Proof.
  intros Hn Hj Hnan.
  assert (H : forall T', Norm.f T' x n = Some S754_nan).
  { intros T'. apply (f_loop_meets_nan T' _ x 0%nat j); [lia|lia|exact Hnan]. }
  split; [apply H|]. rewrite exp2_f. apply H.
Qed.

(** A NaN in the middle of three components. *)
Lemma f_propagates_nan_witness :
  let x := [Fp.of_Z Fp.binary64 3; S754_nan; Fp.of_Z Fp.binary64 5] in
  Norm.f Fp.binary64 x 3 = Some S754_nan /\ Exp2.f x 3 = Some S754_nan.
Proof.
  apply (f_propagates_nan Fp.binary64
           [Fp.of_Z Fp.binary64 3; S754_nan; Fp.of_Z Fp.binary64 5] 3 1).
  - simpl. lia.
  - simpl. lia.
  - reflexivity.
Defined.

End NormBounds.

(** ** Conversions between the formats *)

Module ConvertFacts.
Import FpFacts Obs.

Lemma bounded_inv (prec emax : Z) (m : positive) (e : Z) :
  bounded prec emax m e = true ->
  fexp prec emax (Zpos (digits2_pos m) + e) = e /\ e <= emax - prec.
Proof.
  unfold bounded, canonical_mantissa. intros H.
  apply andb_prop in H as [Hc He].
  apply Z.eqb_eq in Hc. apply Z.leb_le in He. auto.
Qed.

(** Conversion to a format is the identity on the values of that
    format: a [double] stored into a [double] cell is not rounded. *)
Lemma convert_valid (T : Fp.format) (v : spec_float) :
  valid T v = true -> Fp.convert T v = v.
Proof.
  destruct v as [s|s| |s m e]; try reflexivity.
  unfold valid. cbn [valid_binary Fp.convert]. intros Hb.
  apply bounded_inv in Hb as [Hc He].
  assert (H : binary_round (Fp.prec T) (Fp.emax T) s m e
              = S754_finite s m e).
  { apply binary_round_exact; try assumption;
      intros _; rewrite Z.sub_diag; lia. }
  destruct s; exact H.
Qed.

Lemma same_value_finite (s : bool) (m m' : positive) (e e' : Z) :
  e' <= e -> Zpos m' = Zpos m * 2 ^ (e - e') ->
  same_value (S754_finite s m' e') (S754_finite s m e).
Proof.
  intros He Hm. unfold same_value, Fp.exact.
  assert (Hc : cond_Zopp s (Zpos m')
               = cond_Zopp s (Zpos m) * 2 ^ (e - e'))
    by (destruct s; cbn [cond_Zopp]; lia).
  destruct (0 <=? e') eqn:E'; destruct (0 <=? e) eqn:E;
    try apply Z.leb_le in E'; try apply Z.leb_le in E;
    try apply Z.leb_gt in E'; try apply Z.leb_gt in E; try lia;
    rewrite Hc.
  - rewrite !Z.pow_0_r, !Z.mul_1_r, <- Z.mul_assoc, <- Z.pow_add_r by lia.
    do 2 f_equal. lia.
  - rewrite Z.pow_0_r, Z.mul_1_r.
    replace (e - e') with (e + - e') by lia.
    rewrite Z.pow_add_r by lia. lia.
  - rewrite <- Z.mul_assoc, <- Z.pow_add_r by lia. do 2 f_equal. lia.
Qed.

(** X5. The promotion of a [float] to [double] is exact: the result is a
    [double] and the same number, with the same sign; so the bounds
    [-a] and [a] reach [gsl_ran_flat] unchanged, and [printf] prints a
    [float] norm from its own value. *)
Theorem float_to_double_is_exact (v : spec_float) :
  valid Fp.binary32 v = true ->
  same_value (Fp.convert Fp.binary64 v) v
  /\ valid Fp.binary64 (Fp.convert Fp.binary64 v) = true
  /\ Fp.convert Fp.binary64 (Fp.opp v) = Fp.opp (Fp.convert Fp.binary64 v).
Proof.
  destruct v as [s|s| |s m e];
    try (intros _; repeat split; try reflexivity;
         unfold same_value; cbn; reflexivity).
  unfold valid. cbn [valid_binary]. intros Hb.
  apply bounded_inv in Hb as [Hc He].
  change (Fp.prec Fp.binary32) with 24 in *.
  change (Fp.emax Fp.binary32) with 128 in *.
  pose proof (digits2_pos_bounds m) as _.
  set (d := Zpos (digits2_pos m)) in *.
  assert (Hd : 1 <= d) by (subst d; lia).
  unfold fexp, emin in Hc.
  assert (Hd24 : d <= 24) by lia.
  assert (He149 : -149 <= e) by lia.
  assert (Hpow : 0 < 2 ^ (53 - d)) by (apply Z.pow_pos_nonneg; lia).
  set (m' := Z.to_pos (Zpos m * 2 ^ (53 - d))).
  assert (Hm' : Zpos m' = Zpos m * 2 ^ (53 - d))
    by (subst m'; rewrite Z2Pos.id; nia).
  assert (H : forall s', binary_round 53 1024 s' m e
                         = S754_finite s' m' (d + e - 53)).
  { intros s'. apply binary_round_exact.
    - fold d. unfold fexp, emin. lia.
    - lia.
    - intros _. rewrite Hm'. do 2 f_equal. lia.
    - intros Hle. lia. }
  assert (Hconv : forall s', Fp.convert Fp.binary64 (S754_finite s' m e)
                             = S754_finite s' m' (d + e - 53)).
  { intros s'. cbn [Fp.convert].
    change (Fp.prec Fp.binary64) with 53.
    change (Fp.emax Fp.binary64) with 1024.
    destruct s'; apply H. }
  split; [|split].
  - rewrite Hconv. apply same_value_finite; [lia|].
    rewrite Hm'. do 2 f_equal. lia.
  - rewrite Hconv. unfold valid. cbn [valid_binary].
    change (Fp.prec Fp.binary64) with 53.
    change (Fp.emax Fp.binary64) with 1024.
    unfold bounded, canonical_mantissa. apply andb_true_intro. split.
    + apply Z.eqb_eq. subst m'. rewrite digits2_pos_shift by lia.
      fold d. unfold fexp, emin. lia.
    + apply Z.leb_le. lia.
  - cbn [Fp.opp SFopp]. rewrite !Hconv. reflexivity.
Qed.

(** The [float] [1.0f], the half-width Experiment 1 uses. *)
Lemma float_to_double_is_exact_witness :
  same_value (Fp.convert Fp.binary64 (Fp.one Fp.binary32))
    (Fp.one Fp.binary32)
  /\ valid Fp.binary64 (Fp.convert Fp.binary64 (Fp.one Fp.binary32)) = true
  /\ Fp.convert Fp.binary64 (Fp.opp (Fp.one Fp.binary32))
     = Fp.opp (Fp.convert Fp.binary64 (Fp.one Fp.binary32)).
Proof.
  apply (float_to_double_is_exact (Fp.one Fp.binary32)). reflexivity.
Defined.

End ConvertFacts.

(** ** The uniform initialiser and the seed of Experiment 1 *)

Module UniformFacts.
Import FpFacts NormFacts BufFacts Exp1 Obs ConvertFacts.

Section Gsl.
Variable rng : Type.
Variable gsl_rng_set : rng -> Z -> rng.
Variable gsl_ran_flat :
  rng -> spec_float -> spec_float -> spec_float * rng.

Lemma draws_count (count : nat) :
  forall r a b,
    length (fst (Exp1.draws rng gsl_ran_flat r count a b)) = count.
Proof.
  induction count as [|count IH]; intros r a b; [reflexivity|].
  cbn [Exp1.draws]. destruct (gsl_ran_flat r a b) as [v r'].
  specialize (IH r' a b).
  destruct (Exp1.draws rng gsl_ran_flat r' count a b) as [vs r''].
  cbn [fst length] in *. now rewrite IH.
Qed.

Lemma init_data_uniform_loop_fills (T : Fp.format) (a : spec_float)
    (todo : nat) :
  forall (data : list spec_float) (r : rng) (i : nat),
    (i + todo <= length data)%nat ->
    init_data_uniform_loop rng gsl_ran_flat T data r i todo a
    = Some (take i data
              ++ map (Fp.convert T)
                   (fst (Exp1.draws rng gsl_ran_flat r todo
                           (Fp.convert Fp.binary64 (Fp.opp a))
                           (Fp.convert Fp.binary64 a)))
              ++ drop (i + todo) data,
            snd (Exp1.draws rng gsl_ran_flat r todo
                   (Fp.convert Fp.binary64 (Fp.opp a))
                   (Fp.convert Fp.binary64 a))).
Proof.
  induction todo as [|todo IH]; intros data r i Hlen.
  - cbn [init_data_uniform_loop Exp1.draws fst snd map app].
    rewrite Nat.add_0_r, take_drop. reflexivity.
  - cbn [init_data_uniform_loop Exp1.draws].
    destruct (gsl_ran_flat r _ _) as [v r'].
    rewrite store_in_range by lia. cbn [mbind option_bind].
    rewrite IH by (rewrite length_insert; lia).
    destruct (Exp1.draws rng gsl_ran_flat r' todo _ _) as [vs r''].
    cbn [fst snd map]. f_equal. f_equal.
    rewrite (take_S_r _ _ (Fp.convert T v))
      by (apply list_lookup_insert_eq; lia).
    rewrite take_insert_ge by lia.
    rewrite drop_insert_lt by lia.
    rewrite <- app_assoc. cbn [app].
    replace (S i + todo)%nat with (i + S todo)%nat by lia. reflexivity.
Qed.

Lemma init_data_uniform_loop_Some (T : Fp.format) (a : spec_float)
    (todo : nat) :
  forall (data : list spec_float) (r : rng) (i : nat)
         (res : list spec_float * rng),
    init_data_uniform_loop rng gsl_ran_flat T data r i todo a = Some res ->
    todo = 0%nat \/ (i + todo <= length data)%nat.
Proof.
  induction todo as [|todo IH]; intros data r i res Hres; [left; reflexivity|].
  right. cbn [init_data_uniform_loop] in Hres.
  destruct (gsl_ran_flat r _ _) as [v r'].
  destruct (Buf.store data i (Fp.convert T v)) as [data'|] eqn:Hst;
    [|discriminate].
  apply store_Some in Hst as [Hi ->]. cbn [mbind option_bind] in Hres.
  apply IH in Hres as [->|Hres]; [lia|].
  rewrite length_insert in Hres. lia.
Qed.

(** X6. [init_data_uniform] on a buffer that holds [nelem] cells ([nelem]
    within the range of the [uint32_t] index of the loop) writes
    the first [nelem] cells, in order, with the first [nelem] draws of the
    generator for the bounds [-a] and [a], each converted to the type of
    the buffer; it leaves the cells from [nelem] on as they were, keeps
    the length of the buffer, and hands the generator on as it is after
    these draws. *)
Theorem init_data_uniform_fills (T : Fp.format) (data : list spec_float)
    (r : rng) (nelem : N) (a : spec_float) :
  (nelem < 2 ^ 32)%N ->
  (N.to_nat nelem <= length data)%nat ->
  exists sample r' filled,
    Exp1.draws rng gsl_ran_flat r (N.to_nat nelem)
      (Fp.convert Fp.binary64 (Fp.opp a)) (Fp.convert Fp.binary64 a)
    = (sample, r')
    /\ init_data_uniform rng gsl_ran_flat T data r nelem a
       = Some (filled, r')
    /\ filled = map (Fp.convert T) sample ++ drop (N.to_nat nelem) data
    /\ length filled = length data
    /\ (forall i, (i < N.to_nat nelem)%nat ->
          filled !! i = Fp.convert T <$> sample !! i)
    /\ (forall i, (N.to_nat nelem <= i)%nat -> filled !! i = data !! i).
Proof.
  intros _ Hlen. unfold init_data_uniform.
  rewrite init_data_uniform_loop_fills by lia.
  pose proof (draws_count (N.to_nat nelem) r
                (Fp.convert Fp.binary64 (Fp.opp a))
                (Fp.convert Fp.binary64 a)) as Hcount.
  destruct (Exp1.draws rng gsl_ran_flat r (N.to_nat nelem) _ _)
    as [sample r'].
  cbn [fst snd] in *.
  exists sample, r', (map (Fp.convert T) sample ++ drop (N.to_nat nelem) data).
  split; [reflexivity|]. split; [rewrite take_0; reflexivity|].
  split; [reflexivity|].
  assert (Hmap : length (map (Fp.convert T) sample) = N.to_nat nelem)
    by (rewrite length_map; exact Hcount).
  split; [|split].
  - rewrite length_app, Hmap, length_drop. lia.
  - intros i Hi. rewrite lookup_app_l by lia. apply list_lookup_fmap.
  - intros i Hi. rewrite lookup_app_r by lia.
    rewrite Hmap, lookup_drop. f_equal. lia.
Qed.

(** X7. With more cells asked for than the buffer holds,
    [init_data_uniform] writes past the end of the buffer: the call has
    no defined result.  For [nelem] within the range of the loop index it
    is defined exactly when [nelem] is at most the length of the buffer;
    [nelem = 0] writes nothing and draws nothing. *)
Theorem init_data_uniform_defined_iff (T : Fp.format)
    (data : list spec_float) (r : rng) (nelem : N) (a : spec_float) :
  (nelem < 2 ^ 32)%N ->
  (is_Some (init_data_uniform rng gsl_ran_flat T data r nelem a)
   <-> (N.to_nat nelem <= length data)%nat)
  /\ init_data_uniform rng gsl_ran_flat T data r 0 a = Some (data, r).
Proof.
  intros _. split; [|reflexivity]. split.
  - intros [res Hres]. apply init_data_uniform_loop_Some in Hres. lia.
  - intros Hlen. unfold init_data_uniform.
    rewrite init_data_uniform_loop_fills by lia. eauto.
Qed.

(** X8. At [double] the buffer holds the draws themselves: when the
    generator returns [double]s, no cell is rounded, so every cell written
    satisfies whatever bounds the draws satisfy. *)
Theorem init_data_uniform_double_keeps_draws (data : list spec_float)
    (r : rng) (nelem : N) (a : spec_float) :
  (nelem < 2 ^ 32)%N ->
  (N.to_nat nelem <= length data)%nat ->
  forallb (valid Fp.binary64)
    (fst (Exp1.draws rng gsl_ran_flat r (N.to_nat nelem)
            (Fp.convert Fp.binary64 (Fp.opp a))
            (Fp.convert Fp.binary64 a))) = true ->
  exists sample r',
    Exp1.draws rng gsl_ran_flat r (N.to_nat nelem)
      (Fp.convert Fp.binary64 (Fp.opp a)) (Fp.convert Fp.binary64 a)
    = (sample, r')
    /\ init_data_uniform rng gsl_ran_flat Fp.binary64 data r nelem a
       = Some (sample ++ drop (N.to_nat nelem) data, r')
    /\ forall lo hi,
         Forall (fun v => SFleb lo v = true /\ SFleb v hi = true) sample ->
         forall i v,
           (i < N.to_nat nelem)%nat ->
           (sample ++ drop (N.to_nat nelem) data) !! i = Some v ->
           SFleb lo v = true /\ SFleb v hi = true.
Proof.
  intros _ Hlen Hvalid. unfold init_data_uniform.
  rewrite init_data_uniform_loop_fills by lia.
  pose proof (draws_count (N.to_nat nelem) r
                (Fp.convert Fp.binary64 (Fp.opp a))
                (Fp.convert Fp.binary64 a)) as Hcount.
  destruct (Exp1.draws rng gsl_ran_flat r (N.to_nat nelem) _ _)
    as [sample r'].
  cbn [fst snd] in *. exists sample, r'.
  assert (Hmap : map (Fp.convert Fp.binary64) sample = sample).
  { clear Hcount. induction sample as [|v sample IH]; [reflexivity|].
    cbn [forallb] in Hvalid. apply andb_prop in Hvalid as [Hv Hrest].
    cbn [map]. rewrite (convert_valid Fp.binary64 v Hv), IH by exact Hrest.
    reflexivity. }
  split; [reflexivity|]. split; [rewrite take_0, Hmap; reflexivity|].
  intros lo hi Hall i v Hi Hv.
  rewrite lookup_app_l in Hv by lia.
  rewrite Forall_forall in Hall. apply Hall.
  eapply list_elem_of_lookup_2. exact Hv.
Qed.

(** X9. The seed is the microsecond field of the time of day: a failed
    [gettimeofday] stops the program on the assertion; otherwise the seed
    is a [uint64_t], and for a microsecond field in its range
    [0 .. 999999] it is that field, so there are at most a million
    seeds. *)
Theorem seed_is_microseconds (env : environment rng) :
  (gettimeofday_status rng env <> 0 ->
   get_and_check_time_of_day rng env = None
   /\ get_seed_from_time_of_day rng env = None
   /\ get_gsl_rng rng gsl_rng_set env = None)
  /\ (gettimeofday_status rng env = 0 ->
      exists seed,
        get_seed_from_time_of_day rng env = Some seed
        /\ 0 <= seed < 2 ^ 64
        /\ (0 <= gettimeofday_usec rng env < 1000000 ->
            seed = gettimeofday_usec rng env /\ seed < 1000000)).
Proof.
  unfold get_gsl_rng, get_seed_from_time_of_day, get_and_check_time_of_day.
  split.
  - intros Hne. apply Z.eqb_neq in Hne. rewrite Hne.
    repeat split. destruct (gsl_rng_alloc rng env); reflexivity.
  - intros ->. cbn. eexists. split; [reflexivity|].
    split; [apply Z.mod_pos_bound; reflexivity|].
    intros Hu. rewrite Z.mod_small; [lia|].
    change (2 ^ 64) with 18446744073709551616. lia.
Qed.

End Gsl.

(** Four cells of a buffer of six, with the small generator. *)
Lemma init_data_uniform_fills_witness :
  let data := Buf.indeterminate 6 in
  let a := Fp.one Fp.binary32 in
  exists sample r' filled,
    Exp1.draws Z lcg_flat 42 (N.to_nat 4)
      (Fp.convert Fp.binary64 (Fp.opp a)) (Fp.convert Fp.binary64 a)
    = (sample, r')
    /\ init_data_uniform Z lcg_flat Fp.binary32 data 42 4 a
       = Some (filled, r')
    /\ filled = map (Fp.convert Fp.binary32) sample ++ drop (N.to_nat 4) data
    /\ length filled = length data
    /\ (forall i, (i < N.to_nat 4)%nat ->
          filled !! i = Fp.convert Fp.binary32 <$> sample !! i)
    /\ (forall i, (N.to_nat 4 <= i)%nat -> filled !! i = data !! i).
Proof.
  apply (init_data_uniform_fills Z lcg_flat Fp.binary32
           (Buf.indeterminate 6) 42 4 (Fp.one Fp.binary32)).
  - reflexivity.
  - simpl. lia.
Defined.

(** Three cells asked of a buffer of two. *)
Lemma init_data_uniform_defined_iff_witness :
  (is_Some (init_data_uniform Z lcg_flat Fp.binary32 (Buf.indeterminate 2)
              42 3 (Fp.one Fp.binary32))
   <-> (N.to_nat 3 <= length (Buf.indeterminate 2))%nat)
  /\ init_data_uniform Z lcg_flat Fp.binary32 (Buf.indeterminate 2) 42 0
       (Fp.one Fp.binary32)
     = Some (Buf.indeterminate 2, 42).
Proof.
  apply (init_data_uniform_defined_iff Z lcg_flat Fp.binary32
           (Buf.indeterminate 2) 42 3 (Fp.one Fp.binary32)).
  reflexivity.
Defined.

(** Four [double] cells with the small generator, whose draws are
    [double]s. *)
Lemma init_data_uniform_double_keeps_draws_witness :
  let data := Buf.indeterminate 6 in
  let a := Fp.one Fp.binary32 in
  exists sample r',
    Exp1.draws Z lcg_flat 42 (N.to_nat 4)
      (Fp.convert Fp.binary64 (Fp.opp a)) (Fp.convert Fp.binary64 a)
    = (sample, r')
    /\ init_data_uniform Z lcg_flat Fp.binary64 data 42 4 a
       = Some (sample ++ drop (N.to_nat 4) data, r')
    /\ forall lo hi,
         Forall (fun v => SFleb lo v = true /\ SFleb v hi = true) sample ->
         forall i v,
           (i < N.to_nat 4)%nat ->
           (sample ++ drop (N.to_nat 4) data) !! i = Some v ->
           SFleb lo v = true /\ SFleb v hi = true.
Proof.
  apply (init_data_uniform_double_keeps_draws Z lcg_flat
           (Buf.indeterminate 6) 42 4 (Fp.one Fp.binary32)).
  - reflexivity.
  - simpl. lia.
  - vm_compute. reflexivity.
Defined.

End UniformFacts.

(** ** Further properties of the scan *)

Module ScanFacts.
Import FpFacts NormFacts BufFacts Exp2 Exp2Facts Obs.

Lemma init_data_loop_fills (todo : nat) :
  forall (data : list spec_float) (i : nat) (g : spec_float),
    (i + todo <= length data)%nat ->
    init_data_loop data i todo g
    = Some (take i data
              ++ map (fun j =>
                        Fp.div T
                          (Fp.of_Z T (Z.of_N (wrap32 (N.of_nat j + 1)))) g)
                   (seq i todo)
              ++ drop (i + todo) data).
Proof.
  induction todo as [|todo IH]; intros data i g Hlen.
  - cbn [init_data_loop seq map app]. rewrite Nat.add_0_r, take_drop.
    reflexivity.
  - cbn [init_data_loop seq map].
    rewrite store_in_range by lia. cbn [mbind option_bind].
    rewrite IH by (rewrite length_insert; lia). f_equal.
    rewrite (take_S_r _ _
               (Fp.div T (Fp.of_Z T (Z.of_N (wrap32 (N.of_nat i + 1)))) g))
      by (apply list_lookup_insert_eq; lia).
    rewrite take_insert_ge by lia.
    rewrite drop_insert_lt by lia.
    rewrite <- app_assoc. cbn [app].
    replace (S i + todo)%nat with (i + S todo)%nat by lia. reflexivity.
Qed.

Lemma init_data_loop_Some_range (todo : nat) :
  forall (data : list spec_float) (i : nat) (g : spec_float)
         (r : list spec_float),
    init_data_loop data i todo g = Some r ->
    todo = 0%nat \/ (i + todo <= length data)%nat.
Proof.
  destruct todo as [|todo]; intros data i g r Hr; [left; reflexivity|].
  right. apply init_data_loop_Some in Hr as (_ & Hin & _).
  destruct (Hin (i + todo)%nat ltac:(lia)) as [Hlt _]. lia.
Qed.

Lemma init_data_writes (data : list spec_float) (nelem : N)
    (g : spec_float) :
  (nelem < 2 ^ 32)%N -> (N.to_nat nelem <= length data)%nat ->
  init_data data nelem g
  = Some (map (fun j => Fp.div T (Fp.of_Z T (Z.of_nat j + 1)) g)
            (seq 0 (N.to_nat nelem))
          ++ drop (N.to_nat nelem) data).
Proof.
  intros Hn Hlen. unfold init_data.
  rewrite init_data_loop_fills by lia. rewrite take_0. cbn [app].
  do 2 f_equal. apply map_ext_in. intros j Hj.
  apply in_seq in Hj. rewrite wrap32_small; [reflexivity|].
  change (2 ^ 32)%N with 4294967296%N in Hn.
  change (2 ^ 32) with 4294967296. lia.
Qed.

(** X10. [init_data] on a buffer that holds [nelem] cells (a count within
    the range of the [uint32_t] index) overwrites the first [nelem] cells
    with [1/gamma, 2/gamma, ..., nelem/gamma], whatever they held, and
    leaves the rest and the length as they were; with [nelem] above the
    length of the buffer it writes past the end and has no defined
    result. *)
Theorem init_data_fills (data : list spec_float) (nelem : N)
    (g : spec_float) :
  (nelem < 2 ^ 32)%N ->
  (is_Some (init_data data nelem g) <-> (N.to_nat nelem <= length data)%nat)
  /\ ((N.to_nat nelem <= length data)%nat ->
      init_data data nelem g
      = Some (map (fun j => Fp.div T (Fp.of_Z T (Z.of_nat j + 1)) g)
                (seq 0 (N.to_nat nelem))
              ++ drop (N.to_nat nelem) data)).
Proof.
  intros Hn. split; [split|].
  - intros [r Hr]. apply init_data_loop_Some_range in Hr. lia.
  - intros Hlen. apply init_data_loop_defined. lia.
  - apply init_data_writes. exact Hn.
Qed.

(** Three cells of a buffer of four that held other values. *)
Lemma init_data_fills_witness :
  let data := [S754_nan; Fp.of_Z T 7; S754_infinity true; Fp.of_Z T 9] in
  (is_Some (init_data data 3 gamma) <-> (N.to_nat 3 <= length data)%nat)
  /\ ((N.to_nat 3 <= length data)%nat ->
      init_data data 3 gamma
      = Some (map (fun j => Fp.div T (Fp.of_Z T (Z.of_nat j + 1)) gamma)
                (seq 0 (N.to_nat 3))
              ++ drop (N.to_nat 3) data)).
Proof.
  apply (init_data_fills
           [S754_nan; Fp.of_Z T 7; S754_infinity true; Fp.of_Z T 9] 3 gamma).
  reflexivity.
Defined.

Lemma init_data_full (x0 : list spec_float) :
  length x0 = N.to_nat N_x -> init_data x0 N_x gamma = Some x_initial.
Proof.
  intros Hlen.
  rewrite (init_data_writes x0 N_x gamma) by (reflexivity || lia).
  rewrite drop_ge by lia. rewrite app_nil_r.
  symmetry. transitivity (init_data x_declared N_x gamma);
    [|exact x_initial_eq].
  rewrite (init_data_writes x_declared N_x gamma) by reflexivity.
  rewrite drop_ge by reflexivity. rewrite app_nil_r. reflexivity.
Qed.

(** X11. What the scan does is independent of what the buffer
    [double x[N]] holds when it is declared: every cell is written by
    [init_data] before it is read, so [main] from any indeterminate
    contents is [main] from any other. *)
Theorem main_ignores_indeterminate_cells
    (pow : spec_float -> spec_float -> spec_float)
    (x0 x1 : list spec_float) (fuel : nat) :
  length x0 = N.to_nat N_x -> length x1 = N.to_nat N_x ->
  main pow x0 fuel = main pow x1 fuel
  /\ main pow x0 fuel = run pow fuel (State x_initial Fp.zero Outer) [].
Proof.
  intros H0 H1. unfold main.
  rewrite (init_data_full x0 H0), (init_data_full x1 H1). auto.
Qed.

(** A buffer of NaN and a buffer of zeros. *)
Lemma main_ignores_indeterminate_cells_witness :
  main Exp2.pow x_declared 3
  = main Exp2.pow (replicate (N.to_nat N_x) Fp.zero) 3
  /\ main Exp2.pow x_declared 3
     = run Exp2.pow 3 (State x_initial Fp.zero Outer) [].
Proof.
  apply (main_ignores_indeterminate_cells Exp2.pow x_declared
           (replicate (N.to_nat N_x) Fp.zero) 3).
  - reflexivity.
  - apply length_replicate.
Defined.

Lemma safe_restored (x' : list spec_float) (k' : spec_float) (pc' : pc) :
  safe (State x' k' pc') -> safe (State (restored x') k' pc').
Proof.
  intros [Hlen H]. split; [|exact H].
  unfold restored. cbn [x] in *. rewrite length_insert. exact Hlen.
Qed.

(** A step from a safe state is defined, leads to a safe state, and
    prints only lines for the sizes below the capacity. *)
Lemma step_safe (pow : spec_float -> spec_float -> spec_float) (s : state) :
  safe s ->
  exists out s',
    step pow s = Next out s' /\ safe s'
    /\ Forall (fun ev => forall n, event_size ev = Some n ->
                                   In n scanned_sizes) out
    /\ (length out <= 1)%nat.
Proof.
  intros [Hlen Hpc]. unfold step.
  destruct (at_pc s) as [|h n|] eqn:Eat.
  - destruct (Fp.eqb _ Fp.zero).
    + eexists _, _. split; [reflexivity|]. split; [split; [exact Hlen|exact I]|].
      split; [|cbn; lia]. constructor; [intros m Hm; discriminate Hm|constructor].
    + eexists _, _. split; [reflexivity|]. split.
      * split; [exact Hlen|]. cbn [at_pc]. exists 0. left. reflexivity.
      * split; [constructor|cbn; lia].
  - destruct Hpc as [i Hin].
    destruct (n <? N_x)%N eqn:En.
    + assert (Hsize : In n scanned_sizes).
      { each_size Hin; try discriminate En;
          unfold scanned_sizes; cbn [In]; tauto. }
      assert (Hn : (N.to_nat n <= length (x s))%nat).
      { apply N.ltb_lt in En. rewrite Hlen. lia. }
      destruct (difference_defined (x s) h n) as [err Hd];
        [rewrite Hlen; change (N.to_nat N_x) with 1024%nat; lia | exact Hn |].
      rewrite Hd.
      assert (Hev : forall ev, event_size ev = Some n ->
                Forall (fun ev => forall n, event_size ev = Some n ->
                                            In n scanned_sizes) [ev]).
      { intros ev Hev. constructor; [|constructor]. intros n' Hn'.
        rewrite Hev in Hn'. injection Hn' as <-. exact Hsize. }
      destruct (Fp.eqb err Fp.zero).
      * eexists _, _. split; [reflexivity|]. split.
        -- destruct (n =? 1)%N; apply safe_restored; split;
             solve [exact Hlen | exact I].
        -- split; [apply Hev; reflexivity|cbn; lia].
      * eexists _, _. split; [reflexivity|]. split.
        -- apply safe_restored. split; [exact Hlen|]. cbn [at_pc].
           exists (i + 1). apply sizes_next; assumption.
        -- split; [apply Hev; reflexivity|cbn; lia].
    + eexists _, _. split; [reflexivity|].
      split; [split; [exact Hlen|exact I]|]. split; [constructor|cbn; lia].
  - eexists _, _. split; [reflexivity|].
    split; [split; [exact Hlen|rewrite Eat; exact I]|].
    split; [constructor|cbn; lia].
Qed.

Lemma run_safe (pow : spec_float -> spec_float -> spec_float) (fuel : nat) :
  forall (s : state) (out : list event),
    safe s ->
    Forall (fun ev => forall n, event_size ev = Some n ->
                                In n scanned_sizes) out ->
    (forall out', run pow fuel s out <> Crashed out')
    /\ Forall (fun ev => forall n, event_size ev = Some n ->
                                   In n scanned_sizes)
         (printed (run pow fuel s out))
    /\ (length (printed (run pow fuel s out)) <= length out + fuel)%nat.
Proof.
  induction fuel as [|fuel IH]; intros s out Hsafe Hout; cbn [run].
  - destruct (at_pc s); cbn [printed]; (split; [discriminate|]);
      (split; [exact Hout|lia]).
  - destruct (at_pc s) eqn:Eat;
      try (destruct (step_safe pow s Hsafe) as (o & s' & -> & Hs' & Ho & Hlen);
           destruct (IH s' (out ++ o) Hs') as (Hc & Hp & Hl);
           [apply Forall_app; auto|];
           split; [exact Hc|]; split; [exact Hp|];
           rewrite length_app in Hl; lia).
    cbn [printed]. split; [discriminate|]. split; [exact Hout|lia].
Qed.

(** X12. The scan never reads or writes outside the buffer: for any
    [pow], from any contents of the 1024 cells and for a run of any
    length, [main] has no undefined step.  Every line it prints for a pair
    [(k, n)] has [n] among [1, 10, 100, 1000], the sizes below the
    capacity ([n *= 10] never wraps around), and a step prints at most
    one line. *)
Theorem scan_stays_in_bounds
    (pow : spec_float -> spec_float -> spec_float)
    (x0 : list spec_float) (fuel : nat) :
  length x0 = N.to_nat N_x ->
  (forall out, main pow x0 fuel <> Crashed out)
  /\ Forall (fun ev => forall n, event_size ev = Some n ->
                                 In n scanned_sizes)
       (printed (main pow x0 fuel))
  /\ (length (printed (main pow x0 fuel)) <= fuel)%nat.
Proof.
  intros Hlen. unfold main. rewrite (init_data_full x0 Hlen).
  apply (run_safe pow fuel (State x_initial Fp.zero Outer) []).
  - split; [|exact I]. cbn [x].
    pose proof x_initial_eq as H.
    apply init_data_loop_Some in H as [-> _]. reflexivity.
  - constructor.
Qed.

(** The scan from the buffer as it is declared, for forty steps. *)
Lemma scan_stays_in_bounds_witness :
  (forall out, main Exp2.pow x_declared 40 <> Crashed out)
  /\ Forall (fun ev => forall n, event_size ev = Some n ->
                                 In n scanned_sizes)
       (printed (main Exp2.pow x_declared 40))
  /\ (length (printed (main Exp2.pow x_declared 40)) <= 40)%nat.
Proof.
  apply (scan_stays_in_bounds Exp2.pow x_declared 40). reflexivity.
Defined.

Lemma run_last_line (pow : spec_float -> spec_float -> spec_float)
    (fuel : nat) :
  forall (s : state) (out out' : list event) (s' : state),
    at_pc s <> Finish ->
    run pow fuel s out = Halted out' s' ->
    at_pc s' = Finish
    /\ exists ev, last out' = Some ev /\ closing ev (k s').
Proof.
  induction fuel as [|fuel IH]; intros s out out' s' Hpc Hrun.
  - cbn [run] in Hrun. destruct (at_pc s); try discriminate. congruence.
  - cbn [run] in Hrun.
    destruct (at_pc s) as [|h n|] eqn:Eat; [| |congruence].
    + unfold step in Hrun. rewrite Eat in Hrun.
      destruct (Fp.eqb _ Fp.zero).
      * destruct fuel; cbn [run at_pc] in Hrun; injection Hrun as <- <-;
          (split; [reflexivity|]); eexists; (split; [apply last_snoc|]);
          left; reflexivity.
      * eapply IH; [|exact Hrun]. cbn [at_pc]. discriminate.
    + unfold step in Hrun. rewrite Eat in Hrun.
      destruct (n <? N_x)%N.
      * destruct (difference (x s) h n) as [[err x']|]; [|discriminate].
        destruct (Fp.eqb err Fp.zero).
        -- destruct (n =? 1)%N eqn:En.
           ++ apply N.eqb_eq in En. subst n.
              destruct fuel; cbn [run at_pc] in Hrun;
                injection Hrun as <- <-;
                (split; [reflexivity|]); eexists;
                (split; [apply last_snoc|]); right; reflexivity.
           ++ eapply IH; [|exact Hrun]. cbn [at_pc]. discriminate.
        -- eapply IH; [|exact Hrun]. cbn [at_pc]. discriminate.
      * eapply IH; [|exact Hrun]. cbn [at_pc]. discriminate.
Qed.

(** X13. A run of the scan that ends, ends on an underflow report: the
    last line printed is [underflow for 10^-k], or
    [difference underflown for k: k n: 1], for the final value of [k], and
    nothing is printed after it. *)
Theorem scan_ends_on_underflow_report
    (pow : spec_float -> spec_float -> spec_float)
    (x0 : list spec_float) (fuel : nat) (out : list event) (s : state) :
  main pow x0 fuel = Halted out s ->
  at_pc s = Finish
  /\ exists ev, last out = Some ev /\ closing ev (k s).
Proof.
  unfold main. destruct (init_data x0 N_x gamma) as [xi|]; [|discriminate].
  apply run_last_line. cbn [at_pc]. discriminate.
Qed.

(** The run of the program, which stops at [k = 16]. *)
Lemma scan_ends_on_underflow_report_witness :
  let o := main Exp2.pow x_declared 1945 in
  exists s,
    final_state o = Some s
    /\ at_pc s = Finish
    /\ exists ev, last (printed o) = Some ev /\ closing ev (k s).
Proof.
  intros o. pose proof main_stops_at_16 as H. cbv zeta in H.
  remember (main Exp2.pow x_declared 1945) as o' eqn:Eo.
  subst o. destruct o' as [out s| |]; try discriminate H.
  exists s. split; [reflexivity|].
  apply (scan_ends_on_underflow_report Exp2.pow x_declared 1945 out s).
  symmetry. exact Eo.
Defined.

End ScanFacts.

Module OrderFacts.
Import FpFacts NormFacts BufFacts Exp2 Exp2Facts Obs ScanFacts.

Lemma StronglySorted_snoc {A : Type} (R : A -> A -> Prop) (l : list A)
    (b : A) :
  StronglySorted R l -> Forall (fun a => R a b) l ->
  StronglySorted R (l ++ [b]).
Proof.
  induction 1 as [|a l Hl IH Ha]; intros Hb; cbn [app].
  - repeat constructor.
  - apply Forall_cons_1 in Hb as [Hab Hb]. constructor; [auto|].
    apply Forall_app. split; [exact Ha|]. repeat constructor. exact Hab.
Qed.

Lemma k_counts_up (j : Z) :
  0 <= j -> j + 1 < 2 ^ 53 ->
  Fp.add T (Fp.of_Z T j) (Fp.one T) = Fp.of_Z T (j + 1).
Proof.
  intros Hj Hlt. apply add_of_Z_one; [reflexivity | reflexivity | lia |].
  exact Hlt.
Qed.

Lemma sizes_grow (n : N) (i : Z) :
  In (n, i) sizes -> (n <? N_x)%N = true -> (n < wrap32 (n * 10))%N.
Proof.
  intros Hin Hn. each_size Hin; try discriminate Hn; reflexivity.
Qed.

Lemma run_in_order (pow : spec_float -> spec_float -> spec_float)
    (fuel : nat) :
  forall (s : state) (out : list event) (places : list (Z * N)) (j : Z),
    safe s -> k s = Fp.of_Z T j -> 0 <= j -> j + Z.of_nat fuel < 2 ^ 53 ->
    Forall2 shows out places ->
    StronglySorted before places ->
    Forall (ahead s j) places ->
    Forall (fun place => 0 <= fst place <= j) places ->
    exists places',
      Forall2 shows (printed (run pow fuel s out)) places'
      /\ StronglySorted before places'
      /\ Forall (fun place => 0 <= fst place <= j + Z.of_nat fuel) places'.
Proof.
  induction fuel as [|fuel IH];
    intros s out places j Hsafe Hk Hj Hfuel Hshow Hsort Hahead Hrange.
  - exists places. split; [|split; [exact Hsort|]].
    + cbn [run]. destruct (at_pc s); exact Hshow.
    + eapply Forall_impl; [exact Hrange|]. cbn beta. intros; lia.
  - assert (Hweak : Forall (fun place => 0 <= fst place
                                         <= j + Z.of_nat (S fuel)) places).
    { eapply Forall_impl; [exact Hrange|]. cbn beta. intros; lia. }
    cbn [run]. destruct Hsafe as [Hlen Hpc]. unfold ahead in Hahead.
    destruct (at_pc s) as [|h n|] eqn:Eat;
      [| |exists places; cbn [printed]; auto].
    + unfold step. rewrite Eat. cbv zeta.
      set (h := pow (Fp.of_Z T 10) (Fp.opp (k s))).
      destruct (Fp.eqb h Fp.zero).
      * exists (places ++ [(j, 0%N)]).
        assert (Hrun : forall f, printed (run pow f (State (x s) (k s) Finish)
                                            (out ++ [Underflow_h (k s)]))
                                 = out ++ [Underflow_h (k s)])
          by (intros [|f]; reflexivity).
        rewrite Hrun. split; [|split].
        -- apply Forall2_app; [exact Hshow|].
           repeat constructor. exact Hk.
        -- apply StronglySorted_snoc; [exact Hsort|].
           eapply Forall_impl; [exact Hahead|]. cbn beta.
           intros place Hp. left. exact Hp.
        -- apply Forall_app. split; [exact Hweak|].
           repeat constructor; cbn [fst]; lia.
      * rewrite app_nil_r.
        destruct (IH (State (x s) (k s) (Inner h 1)) out places j)
          as (places' & H1 & H2 & H3); try assumption.
        -- split; [exact Hlen|]. exists 0. left. reflexivity.
        -- lia.
        -- eapply Forall_impl; [exact Hahead|]. cbn beta.
           intros place Hp. left. exact Hp.
        -- exists places'. split; [exact H1|split; [exact H2|]].
           eapply Forall_impl; [exact H3|]. cbn beta. intros; lia.
    + destruct Hpc as [i Hin]. unfold step. rewrite Eat.
      assert (Hle : Forall (fun place => fst place <= j) places).
      { eapply Forall_impl; [exact Hrange|]. cbn beta. intros; lia. }
      destruct (n <? N_x)%N eqn:En.
      * destruct (difference_defined (x s) h n) as [err Hd];
          [rewrite Hlen; change (N.to_nat N_x) with 1024%nat; lia
          |apply N.ltb_lt in En; rewrite Hlen; lia|].
        rewrite Hd.
        assert (Hlen' : length (restored (x s)) = N.to_nat N_x)
          by (unfold restored; rewrite length_insert; exact Hlen).
        assert (Hsnoc : forall ev, event_k ev = k s -> event_column ev = n ->
                  Forall2 shows (out ++ [ev]) (places ++ [(j, n)])
                  /\ StronglySorted before (places ++ [(j, n)])).
        { intros ev Hek Hec. split.
          - apply Forall2_app; [exact Hshow|].
            repeat constructor; [rewrite Hek; exact Hk|exact Hec].
          - apply StronglySorted_snoc; assumption. }
        destruct (Fp.eqb err Fp.zero).
        -- destruct (Hsnoc (Underflow_diff (k s) n) eq_refl eq_refl)
             as [Hs1 Hs2].
           destruct (n =? 1)%N.
           ++ exists (places ++ [(j, n)]).
              assert (Hrun : forall f o,
                        printed (run pow f (State (restored (x s)) (k s)
                                              Finish) o) = o)
                by (intros [|f] o; reflexivity).
              rewrite Hrun. split; [exact Hs1|split; [exact Hs2|]].
              apply Forall_app. split; [exact Hweak|].
              repeat constructor; cbn [fst]; lia.
           ++ destruct (IH (State (restored (x s))
                              (Fp.add T (k s) (Fp.one T)) Outer)
                          (out ++ [Underflow_diff (k s) n])
                          (places ++ [(j, n)]) (j + 1))
                as (places' & H1 & H2 & H3); try assumption.
              ** split; [exact Hlen'|exact I].
              ** cbn [k]. rewrite Hk. apply k_counts_up; lia.
              ** lia.
              ** lia.
              ** unfold ahead. cbn [at_pc]. apply Forall_app. split.
                 --- eapply Forall_impl; [exact Hle|]. cbn beta.
                     intros; lia.
                 --- repeat constructor. cbn [fst]. lia.
              ** apply Forall_app. split.
                 --- eapply Forall_impl; [exact Hrange|]. cbn beta.
                     intros; lia.
                 --- repeat constructor; cbn [fst]; lia.
              ** exists places'. split; [exact H1|split; [exact H2|]].
                 eapply Forall_impl; [exact H3|]. cbn beta. intros; lia.
        -- match goal with
           | |- context [Err_line (k s) n ?e] =>
               destruct (Hsnoc (Err_line (k s) n e) eq_refl eq_refl)
                 as [Hs1 Hs2];
               destruct (IH (State (restored (x s)) (k s)
                               (Inner h (wrap32 (n * 10))))
                           (out ++ [Err_line (k s) n e])
                           (places ++ [(j, n)]) j)
                 as (places' & H1 & H2 & H3); try assumption
           end.
           ++ split; [exact Hlen'|]. exists (i + 1).
              apply sizes_next; assumption.
           ++ lia.
           ++ pose proof (sizes_grow n i Hin En) as Hgrow.
              unfold ahead. cbn [at_pc]. apply Forall_app. split.
              ** eapply Forall_impl; [exact Hahead|]. cbn beta.
                 unfold before. cbn [fst snd]. intros place Hp. lia.
              ** constructor; [|constructor]. right. cbn [fst snd]. lia.
           ++ apply Forall_app. split; [exact Hrange|].
              repeat constructor; cbn [fst]; lia.
           ++ exists places'. split; [exact H1|split; [exact H2|]].
              eapply Forall_impl; [exact H3|]. cbn beta. intros; lia.
      * rewrite app_nil_r.
        destruct (IH (State (x s) (Fp.add T (k s) (Fp.one T)) Outer)
                    out places (j + 1))
          as (places' & H1 & H2 & H3); try assumption.
        -- split; [exact Hlen|exact I].
        -- cbn [k]. rewrite Hk. apply k_counts_up; lia.
        -- lia.
        -- lia.
        -- unfold ahead. cbn [at_pc].
           eapply Forall_impl; [exact Hle|]. cbn beta. intros; lia.
        -- eapply Forall_impl; [exact Hrange|]. cbn beta. intros; lia.
        -- exists places'. split; [exact H1|split; [exact H2|]].
           eapply Forall_impl; [exact H3|]. cbn beta. intros; lia.
Qed.

(** X14. The lines of the scan come in order and none comes twice: for
    any [pow], in a run of fewer than [2^53] steps (while the counter
    [k] is exact) every line shows an integer [k = j >= 0], and the lines
    are strictly increasing in [j] and, for the same [j], in the size
    [n]. *)
Theorem scan_lines_in_order
    (pow : spec_float -> spec_float -> spec_float)
    (x0 : list spec_float) (fuel : nat) :
  length x0 = N.to_nat N_x -> Z.of_nat fuel < 2 ^ 53 ->
  exists places,
    Forall2 shows (printed (main pow x0 fuel)) places
    /\ StronglySorted before places
    /\ Forall (fun place => 0 <= fst place <= Z.of_nat fuel) places.
Proof.
  intros Hlen Hfuel. unfold main. rewrite (init_data_full x0 Hlen).
  apply (run_in_order pow fuel (State x_initial Fp.zero Outer) [] [] 0).
  - split; [|exact I]. cbn [x].
    pose proof x_initial_eq as H.
    apply init_data_loop_Some in H as [-> _]. reflexivity.
  - reflexivity.
  - lia.
  - lia.
  - constructor.
  - constructor.
  - constructor.
  - constructor.
Qed.

(** The scan of the program, for forty steps. *)
Lemma scan_lines_in_order_witness :
  exists places,
    Forall2 shows (printed (main Exp2.pow x_declared 40)) places
    /\ StronglySorted before places
    /\ Forall (fun place => 0 <= fst place <= Z.of_nat 40) places.
Proof.
  apply (scan_lines_in_order Exp2.pow x_declared 40);
    [reflexivity | reflexivity].
Defined.

End OrderFacts.
